(** * GoPy binding generator: the reference bridge, the signature analyzer
      and the CPython/cgo emitters, embedded from [bind/gengo.go],
      [bind/package.go] and [bind/gencpy.go]. *)

From Stdlib Require Import Ascii.
From stdpp Require Import gmap strings list sorting pretty.

Open Scope string_scope.
Open Scope list_scope.
Open Scope Z_scope.

(** ** The reference bridge ([cgopy_incref] / [cgopy_decref])

    The helpers live in the Go preamble printed by [goGen.genPreamble]
    ([goPreamble] in [bind/gengo.go]).  Addresses ([unsafe.Pointer]) are
    integers, [nil] is [0]; [int32] values are integers with the
    wrap-around of Go's arithmetic written out. *)
Module Bridge.

Definition int32_min : Z := -2147483648.
Definition int32_max : Z := 2147483647.

(** Go's [int32] arithmetic wraps silently. *)
Definition wrap32 (z : Z) : Z := (z + 2147483648) `mod` 4294967296 - 2147483648.

(** [type cobject struct { ptr unsafe.Pointer; cnt int32 }] *)
Record cobject := CObj { ptr : Z; cnt : Z }.

(** The zero value a Go map lookup yields for a missing key. *)
Definition cobject_zero : cobject := CObj 0 0.

(** [var refs struct { sync.Mutex; next int32; refs map[unsafe.Pointer]int32;
    ptrs map[int32]cobject }].  The mutex is held for the whole body of
    both operations, so each is one atomic step on this record. *)
Record refs_t := Refs {
  next : Z;
  refs : gmap Z Z;
  ptrs : gmap Z cobject
}.

(** How a call ends: it returns (with the list of values the Go function
    hands back, empty for a function declared without results) or it
    panics, which aborts the process. *)
Inductive outcome :=
  | Ret (results : list Z) (st : refs_t)
  | Panic (msg : string).

(** [func init()] : [refs.next = -24], both maps empty. *)
Definition init : refs_t := Refs (-24) ∅ ∅.

(** [func cgopy_incref(ptr unsafe.Pointer)] *)
Definition cgopy_incref (st : refs_t) (p : Z) : outcome :=
  match refs st !! p with
  | Some num =>
      let s := default cobject_zero (ptrs st !! num) in
      Ret [] (Refs (next st) (refs st)
                   (<[num := CObj (ptr s) (wrap32 (cnt s + 1))]> (ptrs st)))
  | None =>
      let num := next st in
      let next' := wrap32 (next st - 1) in
      if 0 <? next' then Panic "refs.next underflow"
      else Ret [] (Refs next' (<[p := num]> (refs st))
                        (<[num := CObj p 1]> (ptrs st)))
  end.

(** [func cgopy_decref(ptr unsafe.Pointer)] *)
Definition cgopy_decref (st : refs_t) (p : Z) : outcome :=
  match refs st !! p with
  | None => Panic "cgopy: decref untracked object"
  | Some num =>
      let s := default cobject_zero (ptrs st !! num) in
      if wrap32 (cnt s - 1) <=? 0
      then Ret [] (Refs (next st) (delete p (refs st)) (delete num (ptrs st)))
      else Ret [] (Refs (next st) (refs st)
                        (<[num := CObj (ptr s) (wrap32 (cnt s - 1))]> (ptrs st)))
  end.

(** Calls made by generated glue, and runs of them from a given table. *)
Inductive op := Acquire (p : Z) | Release (p : Z).

Definition step (st : refs_t) (o : op) : outcome :=
  match o with
  | Acquire p => cgopy_incref st p
  | Release p => cgopy_decref st p
  end.

(** The table after a run, [None] once a call has panicked. *)
Fixpoint run (st : refs_t) (ops : list op) : option refs_t :=
  match ops with
  | [] => Some st
  | o :: ops' =>
      match step st o with
      | Ret _ st' => run st' ops'
      | Panic _ => None
      end
  end.

(** The id a call hands out: an acquire of an address that was not tracked
    and is tracked afterwards was given the id now stored for it. *)
Definition fresh_id (st : refs_t) (o : op) (st' : refs_t) : list Z :=
  match o with
  | Acquire p =>
      match refs st !! p, refs st' !! p with
      | None, Some n => [n]
      | _, _ => []
      end
  | Release _ => []
  end.

(** All ids handed out along a run, oldest first; the run stops at a panic. *)
Fixpoint assigned (st : refs_t) (ops : list op) : list Z :=
  match ops with
  | [] => []
  | o :: ops' =>
      match step st o with
      | Ret _ st' => fresh_id st o st' ++ assigned st' ops'
      | Panic _ => []
      end
  end.

(** Tables that runs from [init] can produce. *)
Inductive reachable : refs_t → Prop :=
  | reach_init : reachable init
  | reach_step st o rs st' :
      reachable st → step st o = Ret rs st' → reachable st'.

(** The two maps describe the same entries, and every id in use lies
    strictly above [next], which has only moved down from [-24]. *)
Record wf (st : refs_t) : Prop := WF {
  wf_next : int32_min ≤ next st ≤ -24;
  wf_fwd : ∀ p n, refs st !! p = Some n → ∃ c, ptrs st !! n = Some (CObj p c);
  wf_bwd : ∀ n p c, ptrs st !! n = Some (CObj p c) → refs st !! p = Some n;
  wf_ids : ∀ n e, ptrs st !! n = Some e → next st < n ≤ -24
}.

End Bridge.

(** ** The classifier and signature analyzer ([bind/package.go]) *)
Module Bind.

(** *** Outcomes of fallible code

    A Go function of the pipeline returns normally, returns a non-nil
    [error], or panics. *)
Inductive res (A : Type) :=
  | Ok (a : A)
  | Err (e : string)
  | Panic (msg : string).
Arguments Ok {A} a.
Arguments Err {A} e.
Arguments Panic {A} msg.

Global Instance res_ret : MRet res := λ A a, Ok a.
Global Instance res_bind : MBind res := λ A B f m,
  match m with
  | Ok a => f a
  | Err e => Err e
  | Panic msg => Panic msg
  end.

(** The message of a nil-pointer dereference. *)
Definition nil_deref : string :=
  "runtime error: invalid memory address or nil pointer dereference".

(** *** What [go/types] and [go/doc] hand to the pipeline *)

(** A [types.Type], compared by identity ([==]) in the source.  Shapes the
    pipeline does not look into are kept by their printed form. *)
Inductive GoType :=
  | TError
  | TBasic (name : string)
  | TNamed (path name : string)
  | TPointer (elem : GoType)
  | TSlice (elem : GoType)
  | TArray (len : Z) (elem : GoType)
  | TMap (key elem : GoType)
  | TOpaque (repr : string).

Global Instance GoType_eq_dec : EqDecision GoType.
Proof. solve_decision. Defined.

(** Modelled from the spec: [isErrorType] (not among the sources) decides
    whether a result type "denotes failure indicator"; that type is Go's
    predeclared [error]. *)
Definition isErrorType (t : GoType) : bool := bool_decide (t = TError).

(** A [*types.Var] of a parameter or result tuple. *)
Record TVar := MkTVar { tv_name : string; tv_type : GoType }.

(** A [*types.Signature]. *)
Record TSignature := MkTSig {
  ts_recv : option TVar;
  ts_params : list TVar;
  ts_results : list TVar
}.

(** The accessors of a [types.Object] that the pipeline calls:
    [Name()], [Pkg().Name()], [Pkg().Path()], [Pkg() == nil],
    [Parent() == nil], [Exported()], [String()] (what [%s] and [%v]
    print) and, for a function or method, [FullName()].  An object of the
    universe, such as the method [Error] of the predeclared [error], has
    no package: [Pkg()] is nil and calling [Name()] or [Path()] on it
    dereferences a nil pointer; the two strings mean nothing then. *)
Record ObjInfo := MkObj {
  o_name : string;
  o_pkg_name : string;
  o_pkg_path : string;
  o_pkg_nil : bool;
  o_parent_nil : bool;
  o_exported : bool;
  o_string : string;
  o_fullname : string
}.

(** A [types.Object] by dynamic type, as the type switches take it
    apart: [*types.Const], [*types.Var], [*types.Func], [*types.TypeName],
    or another one, kept with the name of its dynamic type (what [%T]
    prints). *)
Inductive Object :=
  | OConst (i : ObjInfo) (t : GoType)
  | OVar (i : ObjInfo) (t : GoType)
  | OFunc (i : ObjInfo) (s : TSignature)
  | OTypeName (i : ObjInfo) (t : GoType)
  | OOther (i : ObjInfo) (dyn : string).

Definition info (o : Object) : ObjInfo :=
  match o with
  | OConst i _ | OVar i _ | OFunc i _ | OTypeName i _ | OOther i _ => i
  end.

(** [obj.Type()] *)
Inductive TypeOf := TyType (t : GoType) | TySig (s : TSignature).

Definition obj_type (o : Object) : option TypeOf :=
  match o with
  | OConst _ t | OVar _ t | OTypeName _ t => Some (TyType t)
  | OFunc _ s => Some (TySig s)
  | OOther _ _ => None
  end.

(** [doc.Value], [doc.Func], [doc.Type] and [doc.Package]: the
    documentation index. *)
Record DocValue := MkDocValue { dv_names : list string; dv_doc : string }.
Record DocFunc := MkDocFunc { df_name : string; df_doc : string }.
Record DocType := MkDocType {
  dt_name : string;
  dt_doc : string;
  dt_methods : list DocFunc;
  dt_funcs : list DocFunc
}.
Record DocPackage := MkDocPackage {
  dp_import_path : string;
  dp_doc : string;
  dp_consts : list DocValue;
  dp_vars : list DocValue;
  dp_types : list DocType;
  dp_funcs : list DocFunc
}.

(** A [types.Package]: its name and path, the objects of its scope in the
    order of [scope.Names()], and for a type [t] the method set
    [types.NewMethodSet(types.NewPointer(t))], each method with its object
    ([meth.Obj()]) and its signature ([meth.Type()]). *)
Record TPackage := MkTPackage {
  tp_name : string;
  tp_path : string;
  tp_scope : list Object;
  tp_methods : GoType → list (Object * TSignature)
}.

(** *** The entities the pipeline builds *)

(** The fields of [symbol] that [bind/package.go] and the emitters read;
    [GoType()] returns [s_gotyp]. *)
Record symbol := MkSymbol {
  s_gotyp : GoType;
  s_id : string;
  s_goname : string;
  s_doc : string;
  s_pysig : string;
  s_cgoname : string;
  s_cpyname : string
}.

(** The fields of [Var] that [bind/package.go] and the emitters read;
    [Name()] returns [v_name] and [GoType()] the type of [v_sym]. *)
Record Var := MkVar {
  v_sym : symbol;
  v_id : string;
  v_doc : string;
  v_name : string
}.

(** [type Signature struct { ret []*Var; args []*Var; recv *Var }] *)
Record Signature := MkSignature {
  sg_ret : list Var;
  sg_args : list Var;
  sg_recv : option Var
}.

(** [type Func struct], without the back pointer [pkg]. *)
Record Func := MkFunc {
  f_sig : Signature;
  f_typ : option TypeOf;
  f_name : string;
  f_desc : string;
  f_id : string;
  f_doc : string;
  f_ret : option GoType;
  f_err : bool;
  f_ctor : bool
}.

(** The zero value [Func{}] has a nil [sig]; nothing reads the
    signature of a zero [Func], and the empty signature stands for it. *)
Definition Func_zero : Func :=
  MkFunc (MkSignature [] [] None) None "" "" "" "" None false false.

(** [const ProtoStringer Protocol = 1 << iota] *)
Definition ProtoStringer : Z := 1.

(** [type Type struct]; the name [Type] is taken, hence [Type_].  [sym] is
    a pointer into the symbol table; the copy kept here carries the
    documentation [newType] stores in it. *)
Record Type_ := MkType {
  t_sym : symbol;
  t_obj : ObjInfo;
  t_id : string;
  t_doc : string;
  t_ctors : list Func;
  t_meths : list Func;
  t_new : Func;
  t_del : Func;
  t_init : Func;
  t_str : Func;
  t_prots : Z
}.

(** [type Const struct] *)
Record Const := MkConst {
  c_sym : option symbol;
  c_obj : ObjInfo;
  c_type : GoType;
  c_id : string;
  c_doc : string;
  c_f : Func
}.

(** [bind.Object], the values of [Package.objs]. *)
Inductive BObject := ObjType (t : Type_) | ObjFunc (f : Func).

(** [type Package struct], with the symbol table left to the environment
    below. *)
Record Package := MkPackage {
  p_pkg : TPackage;
  p_n : Z;
  p_doc : DocPackage;
  p_objs : gmap string BObject;
  p_consts : list Const;
  p_vars : list Var;
  p_types : list Type_;
  p_funcs : list Func
}.

(** The line feed written [\n] in Go string literals, and the double
    quote. *)
Definition nl : string := String "010"%char EmptyString.
Definition dq : string := String "034"%char EmptyString.

(** [fmt.Errorf("not yet supported: %v (%T)", o, o)] *)
Definition not_supported (i : ObjInfo) (dyn : string) : string :=
  "not yet supported: " +:+ o_string i +:+ " (" +:+ dyn +:+ ")".

(** [strings.Join] *)
Fixpoint join (sep : string) (l : list string) : string :=
  match l with
  | [] => ""
  | x :: l' =>
      match l' with
      | [] => x
      | _ => x +:+ sep +:+ join sep l'
      end
  end.

(** Go ranges over a map in an order the language leaves open.  A range
    is modelled by the order [ord] in which it happens to visit keys: it
    yields the entries of [m] under the keys of [ord], in that order. *)
Definition range_map {V} (ord : list string) (m : gmap string V)
  : list (string * V) :=
  omap (λ k, (λ v, (k, v)) <$> m !! k) ord.

(** A loop whose body may fail, left at the first failure. *)
Fixpoint foldM {A B} (f : B → A → res B) (b : B) (l : list A) : res B :=
  match l with
  | [] => Ok b
  | a :: l' => b' ← f b a; foldM f b' l'
  end.

(** The choices of one run of [process]: the order of the range over
    [typs], of the range over [funcs] inside each of its rounds, and of the
    final range over [funcs]. *)
Record Orders := MkOrders {
  ord_typs : list string;
  ord_ctors : string → list string;
  ord_funcs : list string
}.

Section Pipeline.

(** The symbol table and the helpers declared outside [bind/package.go],
    [bind/gengo.go] and [bind/gencpy.go]:
    [p.syms.symtype], [universe.sym("string")], [newVarFrom], [newVar],
    [isStringer], and for the last pass of [process] the named symbols in
    the order of [p.syms.names()] with the methods [typ.Method(i)] of
    their [*types.Named] type, and [p.syms.sym(types.ObjectString(m, nil))]. *)
Context (symtype : GoType → option symbol).
Context (universe_string : symbol).
Context (newVarFrom : TVar → Var).
Context (newVar : GoType → string → string → string → Var).
Context (isStringer : Object → bool).
Context (named_syms : list (symbol * list Object)).
Context (method_sym : Object → option symbol).

(** Modelled from the spec: [newVarsFrom] (not among the sources) builds
    the "ordered parameter list" and "ordered result list" of a callable
    from a tuple of the raw signature, one [Var] per entry, in order.  Its
    callers read the lists that way: [goGen.genFuncBody] binds one
    [_gopy_NNN] per entry of the result list to the results of the Go call,
    and [cpyGen.genFuncBody] finds the error of an error-convention [Func]
    in the sole or the second entry. *)
Definition newVarsFrom (tuple : list TVar) : list Var := map newVarFrom tuple.

(** The doc of the first value declaring name [n]: the nested range loops
    of [getDoc] over [p.doc.Consts] and [p.doc.Vars]. *)
Fixpoint docOfValue (n : string) (vs : list DocValue) : string :=
  match vs with
  | [] => ""
  | c :: vs' =>
      if bool_decide (n ∈ dv_names c) then dv_doc c else docOfValue n vs'
  end.

(** [for _, m := range fs { if m.Name == n { return m.Doc } }] *)
Fixpoint docOfFunc (n : string) (fs : list DocFunc) : option string :=
  match fs with
  | [] => None
  | m :: fs' =>
      if bool_decide (df_name m = n) then Some (df_doc m) else docOfFunc n fs'
  end.

(** The range over [p.doc.Types] in the [*types.Func] case of [getDoc]. *)
Fixpoint docInTypes (parent n : string) (parent_nil : bool)
    (ts : list DocType) : string :=
  match ts with
  | [] => ""
  | typ :: ts' =>
      if bool_decide (dt_name typ ≠ parent) then docInTypes parent n parent_nil ts'
      else
        match docOfFunc n (if parent_nil then dt_methods typ else dt_funcs typ) with
        | Some d => d
        | None => docInTypes parent n parent_nil ts'
        end
  end.

(** [for _, t := range p.doc.Types { if n == t.Name { return t.Doc } }] *)
Fixpoint docOfType (n : string) (ts : list DocType) : string :=
  match ts with
  | [] => ""
  | t :: ts' => if bool_decide (n = dt_name t) then dt_doc t else docOfType n ts'
  end.

(** The closure [parseFn] of [getDoc]; [symtype(...).pysig] dereferences
    the symbol, which panics when there is none. *)
Fixpoint parseFn (tup : list TVar) : res (list string) :=
  match tup with
  | [] => Ok []
  | paramVar :: tup' =>
      match symtype (tv_type paramVar) with
      | None => Panic nil_deref
      | Some sym =>
          let paramType :=
            if bool_decide (tv_name paramVar ≠ "")
            then s_pysig sym +:+ " " +:+ tv_name paramVar
            else s_pysig sym in
          rest ← parseFn tup';
          Ok (paramType :: rest)
      end
  end.

(** The closure [doc := func() string { ... }()] in the [*types.Func] case
    of [getDoc]. *)
Definition funcDoc (d : DocPackage) (parent : string) (i : ObjInfo) : string :=
  if o_parent_nil i || (negb (o_parent_nil i) && bool_decide (parent ≠ ""))
  then docInTypes parent (o_name i) (o_parent_nil i) (dp_types d)
  else default "" (docOfFunc (o_name i) (dp_funcs d)).

(** [func (p *Package) getDoc(parent string, o types.Object) string] *)
Definition getDoc (d : DocPackage) (parent : string) (o : Object) : res string :=
  let n := o_name (info o) in
  match o with
  | OConst _ _ => Ok (docOfValue n (dp_consts d))
  | OVar _ _ => Ok (docOfValue n (dp_vars d))
  | OFunc i sig =>
      let doc := funcDoc d parent i in
      params ← parseFn (ts_params sig);
      results ← parseFn (ts_results sig);
      let paramString := join ", " params in
      let resultString := join ", " results in
      let docSig := n +:+ "(" +:+ paramString +:+ ") " +:+ resultString in
      if bool_decide (doc ≠ "")
      then Ok (docSig +:+ nl +:+ nl +:+ doc)
      else Ok docSig
  | OTypeName _ _ => Ok (docOfType n (dp_types d))
  | OOther i dyn => Panic (not_supported i dyn)
  end.

(** [func newSignatureFrom(pkg *Package, sig *types.Signature) *Signature] *)
Definition newSignatureFrom (sig : TSignature) : Signature :=
  MkSignature (newVarsFrom (ts_results sig))
              (newVarsFrom (ts_params sig))
              (newVarFrom <$> ts_recv sig).

(** [func newSignature(pkg *Package, recv *Var, params, results []*Var) *Signature] *)
Definition newSignature (recv : option Var) (params results : list Var)
  : Signature :=
  MkSignature results params recv.

(** The [switch res.Len()] of [newFuncFrom]: the error flag and the
    return type, or the classification error. *)
Definition resultArity (obj : Object) (results : list TVar)
  : res (bool * option GoType) :=
  match results with
  | [r0; r1] =>
      if negb (isErrorType (tv_type r1))
      then Err ("bind: second result value must be of type error: "
                +:+ o_string (info obj))
      else Ok (true, Some (tv_type r0))
  | [r0] =>
      if isErrorType (tv_type r0) then Ok (true, None)
      else Ok (false, Some (tv_type r0))
  | [] => Ok (false, None)
  | _ => Err ("bind: too many results to return: " +:+ o_string (info obj))
  end.

(** [func newFuncFrom(p *Package, parent string, obj types.Object,
    sig *types.Signature) (Func, error)].  After the switch,
    [obj.Pkg().Path()] and [obj.Pkg().Name()] are evaluated before the
    [Func] literal and its call of [getDoc]; they panic for an object
    without a package. *)
Definition newFuncFrom (d : DocPackage) (parent : string) (obj : Object)
    (sig : TSignature) : res Func :=
  '(haserr, ret) ← resultArity obj (ts_results sig);
  let i := info obj in
  if o_pkg_nil i then Panic nil_deref else
  let desc :=
    if bool_decide (parent ≠ "")
    then o_pkg_path i +:+ "." +:+ parent +:+ "." +:+ o_name i
    else o_pkg_path i +:+ "." +:+ o_name i in
  let id :=
    if bool_decide (parent ≠ "")
    then o_pkg_name i +:+ "_" +:+ parent +:+ "_" +:+ o_name i
    else o_pkg_name i +:+ "_" +:+ o_name i in
  doc ← getDoc d parent obj;
  Ok (MkFunc (newSignatureFrom sig) (obj_type obj) (o_name i) desc id doc
             ret haserr false).

(** [func newConst(p *Package, o *types.Const) Const]; [pkg.Name()]
    panics for a constant without a package. *)
Definition newConst (d : DocPackage) (i : ObjInfo) (t : GoType) : res Const :=
  let sym := symtype t in
  if o_pkg_nil i then Panic nil_deref else
  let id := o_pkg_name i +:+ "_" +:+ o_name i in
  doc ← getDoc d "" (OConst i t);
  let results := [newVar t "ret" (o_name i) doc] in
  let sig := newSignature None [] results in
  let fct := MkFunc sig None (o_name i)
               (dp_import_path d +:+ "." +:+ o_name i +:+ ".get")
               (id +:+ "_get") doc (Some t) false false in
  Ok (MkConst sym i t id doc fct).

(** [func newType(p *Package, obj *types.TypeName) (Type, error)].  The
    panic message prints [obj.Id()], which is the name for the exported
    objects [process] passes. *)
Definition newType (d : DocPackage) (i : ObjInfo) (t : GoType) : res Type_ :=
  match symtype t with
  | None => Panic ("no such object [" +:+ o_name i +:+ "] in symbols table")
  | Some sym0 =>
      doc ← getDoc d "" (OTypeName i t);
      let sym := MkSymbol (s_gotyp sym0) (s_id sym0) (s_goname sym0) doc
                   (s_pysig sym0) (s_cgoname sym0) (s_cpyname sym0) in
      let desc := dp_import_path d +:+ "." +:+ o_name i in
      let recv := newVar t "recv" (o_name i) (s_doc sym) in
      let fnew := MkFunc
            (newSignature None [] [newVar t "ret" (o_name i) (s_doc sym)])
            None (o_name i) (desc +:+ ".new") (s_id sym +:+ "_new")
            (s_doc sym) (Some t) false false in
      let styp := universe_string in
      let fstr := MkFunc
            (newSignature (Some recv) []
               [newVar (s_gotyp styp) "ret" "string" ""])
            None (o_name i) (desc +:+ ".str") (s_id sym +:+ "_str")
            "" (Some (s_gotyp styp)) false false in
      Ok (MkType sym i "" "" [] [] fnew Func_zero Func_zero fstr 0)
  end.

(** [Type.GoType] and [Type.GoName]; [Func.GoName], [Func.ID], [Func.Doc],
    [Func.Signature] and [Func.Return] are the projections [f_name],
    [f_id], [f_doc], [f_sig] and [f_ret]. *)
Definition Type_GoType (t : Type_) : GoType := s_gotyp (t_sym t).
Definition Type_GoName (t : Type_) : string := s_goname (t_sym t).

(** [func (p *Package) addType(t Type)] and [addFunc(f Func)] *)
Definition addType (p : Package) (t : Type_) : Package :=
  MkPackage (p_pkg p) (p_n p) (p_doc p)
            (<[Type_GoName t := ObjType t]> (p_objs p))
            (p_consts p) (p_vars p) (p_types p ++ [t]) (p_funcs p).

Definition addFunc (p : Package) (f : Func) : Package :=
  MkPackage (p_pkg p) (p_n p) (p_doc p)
            (<[f_name f := ObjFunc f]> (p_objs p))
            (p_consts p) (p_vars p) (p_types p) (p_funcs p ++ [f]).

(** [func (p *Package) addConst(obj *types.Const)] and [addVar] *)
Definition addConst (p : Package) (i : ObjInfo) (t : GoType) : res Package :=
  c ← newConst (p_doc p) i t;
  Ok (MkPackage (p_pkg p) (p_n p) (p_doc p) (p_objs p)
                (p_consts p ++ [c]) (p_vars p) (p_types p) (p_funcs p)).

Definition addVar (p : Package) (i : ObjInfo) (t : GoType) : Package :=
  MkPackage (p_pkg p) (p_n p) (p_doc p) (p_objs p)
            (p_consts p) (p_vars p ++ [newVarFrom (MkTVar (o_name i) t)])
            (p_types p) (p_funcs p).

(** The names of a list of objects; [scope.Names()] has no repetition. *)
Definition names (l : list Object) : list string :=
  (λ o, o_name (info o)) <$> l.

(** [scope.Lookup(name)] *)
Definition scope_lookup (tp : TPackage) (name : string) : option Object :=
  List.find (λ o, bool_decide (o_name (info o) = name)) (tp_scope tp).

(** Field updates of [Type] and [Func] values. *)
Definition with_ctors (t : Type_) (cs : list Func) : Type_ :=
  MkType (t_sym t) (t_obj t) (t_id t) (t_doc t) cs (t_meths t)
         (t_new t) (t_del t) (t_init t) (t_str t) (t_prots t).
Definition with_meths (t : Type_) (ms : list Func) : Type_ :=
  MkType (t_sym t) (t_obj t) (t_id t) (t_doc t) (t_ctors t) ms
         (t_new t) (t_del t) (t_init t) (t_str t) (t_prots t).
Definition with_prots (t : Type_) (ps : Z) : Type_ :=
  MkType (t_sym t) (t_obj t) (t_id t) (t_doc t) (t_ctors t) (t_meths t)
         (t_new t) (t_del t) (t_init t) (t_str t) ps.

(** [fct.doc = doc; fct.ctor = true] *)
Definition as_ctor (fct : Func) (doc : string) : Func :=
  MkFunc (f_sig fct) (f_typ fct) (f_name fct) (f_desc fct) (f_id fct) doc
         (f_ret fct) (f_err fct) true.

(** The values [process] threads through its second loop: the package and
    the local maps [funcs] and [typs]. *)
Record Collected := MkCollected {
  cl_pkg : Package;
  cl_funcs : gmap string Func;
  cl_typs : gmap string Type_
}.

(** The body of the second [for _, name := range scope.Names()] loop. *)
Definition classify (st : Collected) (obj : Object) : res Collected :=
  if negb (o_exported (info obj)) then Ok st
  else
    let d := p_doc (cl_pkg st) in
    match obj with
    | OConst i t =>
        p' ← addConst (cl_pkg st) i t;
        Ok (MkCollected p' (cl_funcs st) (cl_typs st))
    | OVar i t =>
        Ok (MkCollected (addVar (cl_pkg st) i t) (cl_funcs st) (cl_typs st))
    | OFunc i s =>
        f ← newFuncFrom d "" obj s;
        Ok (MkCollected (cl_pkg st) (<[o_name i := f]> (cl_funcs st)) (cl_typs st))
    | OTypeName i t =>
        ty ← newType d i t;
        Ok (MkCollected (cl_pkg st) (cl_funcs st) (<[o_name i := ty]> (cl_typs st)))
    | OOther i dyn => Panic (not_supported i dyn)
    end.

(** The body of [for name, fct := range funcs] inside a round for the type
    [t] stored under [tname]. *)
Definition ctor_step (d : DocPackage) (tp : TPackage) (tname : string)
    (st : Type_ * gmap string Func) (e : string * Func)
  : res (Type_ * gmap string Func) :=
  let '(t, funcs) := st in
  let '(name, fct) := e in
  match f_ret fct with
  | None => Ok st
  | Some r =>
      if bool_decide (r = Type_GoType t) then
        match scope_lookup tp name with
        | None => Panic nil_deref
        | Some o =>
            doc ← getDoc d tname o;
            Ok (with_ctors t (t_ctors t ++ [as_ctor fct doc]), delete name funcs)
        end
      else Ok st
  end.

(** The body of [for i := 0; i < mset.Len(); i++]. *)
Definition meth_step (d : DocPackage) (tname : string) (t : Type_)
    (m : Object * TSignature) : res Type_ :=
  let '(mobj, msig) := m in
  if negb (o_exported (info mobj)) then Ok t
  else
    f ← newFuncFrom d tname mobj msig;
    let t1 := with_meths t (t_meths t ++ [f]) in
    Ok (if isStringer mobj
        then with_prots t1 (Z.lor (t_prots t1) ProtoStringer)
        else t1).

(** One round of [for tname, t := range typs].  The range over [funcs]
    yields the entries present when it starts; its body deletes only the
    entry under visit.  The store [typs[tname] = t] rewrites the entry under
    visit of the outer range, and [typs] is not read again. *)
Definition type_round (d : DocPackage) (tp : TPackage) (ords : Orders)
    (st : Package * gmap string Func) (e : string * Type_)
  : res (Package * gmap string Func) :=
  let '(p, funcs) := st in
  let '(tname, t) := e in
  '(t1, funcs1) ← foldM (ctor_step d tp tname) (t, funcs)
                        (range_map (ord_ctors ords tname) funcs);
  t2 ← foldM (meth_step d tname) t1 (tp_methods tp (Type_GoType t1));
  Ok (addType p t2, funcs1).

(** The body of the loop that attaches docstrings to methods; the store
    [msym.doc = doc] changes the symbol table only.  The panic message
    prints [m.FullName()] with [%q]; the escapes [%q] writes for special
    characters are left out. *)
Definition doc_step (d : DocPackage) (goname : string) (_ : unit) (m : Object)
  : res unit :=
  if negb (o_exported (info m)) then Ok ()
  else
    doc ← getDoc d goname m;
    match method_sym m with
    | None => Panic ("gopy: could not retrieve symbol for "
                     +:+ dq +:+ o_fullname (info m) +:+ dq)
    | Some msym => Ok ()
    end.

Definition doc_pass (d : DocPackage) : res unit :=
  foldM (λ _ e, foldM (doc_step d (s_goname e.1)) () e.2) () named_syms.

(** [func (p *Package) process() error], on the package as [NewPackage]
    has set it up. *)
Definition process (ords : Orders) (p : Package) : res Package :=
  let tp := p_pkg p in
  let d := p_doc p in
  let exported := List.filter (λ o, o_exported (info o)) (tp_scope tp) in
  let p1 := MkPackage tp (p_n p + Z.of_nat (length exported)) d (p_objs p)
              (p_consts p) (p_vars p) (p_types p) (p_funcs p) in
  st ← foldM classify (MkCollected p1 ∅ ∅) (tp_scope tp);
  '(p3, funcs3) ← foldM (type_round d tp ords) (cl_pkg st, cl_funcs st)
                        (range_map (ord_typs ords) (cl_typs st));
  let p4 := foldl addFunc p3 (snd <$> range_map (ord_funcs ords) funcs3) in
  _ ← doc_pass d;
  Ok p4.

(** [func NewPackage(pkg, doc)], which returns the processed package or the
    error of [process]. *)
Definition NewPackage (ords : Orders) (tp : TPackage) (d : DocPackage)
  : res Package :=
  process ords (MkPackage tp 0 d ∅ [] [] [] []).

End Pipeline.

(** Two packages with the same documentation index, [types.Package],
    types and functions. *)
Definition same_core (p q : Package) : Prop :=
  p_doc q = p_doc p ∧ p_pkg q = p_pkg p ∧
  p_types q = p_types p ∧ p_funcs q = p_funcs p.

(** An order visits every entry of a map keyed by names of the scope once
    when it has no repetition and lists every name of the scope; the
    orders of a run of [process] are such orders. *)
Definition covers (ord : list string) (tp : TPackage) : Prop :=
  NoDup ord ∧ ∀ k, k ∈ names (tp_scope tp) → k ∈ ord.

Definition orders_cover (ords : Orders) (tp : TPackage) : Prop :=
  covers (ord_typs ords) tp ∧
  (∀ tname, covers (ord_ctors ords tname) tp) ∧
  covers (ord_funcs ords) tp.

End Bind.

(** ** What the emitters write

    The [printer] type is not among the sources.  An emitter's output is
    kept as the calls it makes on its printer, in order: [Printf] with the
    formatted text, [Indent] and [Outdent]. *)
Module Emit.
Import Bind.

Inductive ev :=
  | Printf (s : string)
  | Indent
  | Outdent.

(** The text handed to [Printf], in order, without the indentation the
    printer puts in front of lines. *)
Fixpoint text (out : list ev) : string :=
  match out with
  | [] => ""
  | Printf s :: out' => s +:+ text out'
  | _ :: out' => text out'
  end.

(** [%d] and [%03d] of a natural number. *)
Definition fmt_d (n : nat) : string := pretty n.

Definition fmt_03d (n : nat) : string :=
  let s := pretty n in
  match String.length s with
  | 0%nat => "000" +:+ s
  | 1%nat => "00" +:+ s
  | 2%nat => "0" +:+ s
  | _ => s
  end.

(** [for i, x := range l], with the index. *)
Definition indexed {A} (l : list A) : list (nat * A) := imap (λ i x, (i, x)) l.

End Emit.

(** ** The CPython emitter ([bind/gencpy.go]) *)
Module CPy.
Import Bind Emit.

(** What [cpyGen] writes: the declarations ([g.decl]) and the
    implementation ([g.impl]). *)
Record output := MkOutput { decl : list ev; impl : list ev }.


(** The statements every emitted [tp_init] ends with, for the type named
    [goname]. *)
Definition init_check (goname : string) : list ev :=
  [ Printf ("Py_ssize_t nkwds = (kwds != NULL) ? PyDict_Size(kwds) : 0;" +:+ nl);
    Printf ("Py_ssize_t nargs = (args != NULL) ? PySequence_Size(args) : 0;" +:+ nl);
    Printf ("if ((nkwds + nargs) > 0) {" +:+ nl);
    Indent;
    Printf "PyErr_SetString(PyExc_TypeError, ";
    Printf (dq +:+ goname +:+ ".__init__ takes no argument" +:+ dq +:+ ");" +:+ nl);
    Printf ("return -1;" +:+ nl);
    Outdent;
    Printf ("}" +:+ nl +:+ nl);
    Printf ("return 0;" +:+ nl);
    Outdent;
    Printf ("}" +:+ nl +:+ nl) ].

(** What a call of an emitted [tp_init] leaves behind: the value it
    returns and the Python exception it has set, if any. *)
Record init_result := MkInitResult {
  ir_return : Z;
  ir_error : option (string * string)
}.

(** The C function that [init_check] spells out, run on its arguments:
    [args] and [kwds] are [None] for [NULL] and otherwise carry what
    [PySequence_Size] and [PyDict_Size] return for them. *)
Definition tp_init (goname : string) (args kwds : option Z) : init_result :=
  let nkwds := match kwds with Some n => n | None => 0 end in
  let nargs := match args with Some n => n | None => 0 end in
  if 0 <? nkwds + nargs
  then MkInitResult (-1)
         (Some ("PyExc_TypeError", goname +:+ ".__init__ takes no argument"))
  else MkInitResult 0 None.

Section Emitter.

(** [fmt]'s [%q], and the methods of [Var] (not among the sources) that
    the emitter calls: those that print take the printer and are kept by
    what they write. *)
Context (quote : string → string).
Context (genRecvDecl genDecl genRetDecl genRecvImpl genFuncPreamble
         : Var → list ev).
Context (getFuncArg : Var → string).
Context (getArgParse getArgBuildValue : Var → string * list string).

(** [ret.name = "gopy_ret"] *)
Definition with_name (v : Var) (n : string) : Var :=
  MkVar (v_sym v) (v_id v) (v_doc v) n.

(** The statements that wrap the handle of a freshly built Go value in a
    new Python object of the constructor's type. *)
Definition new_object (ret : Var) (handle : string) : list ev :=
  [ Printf ("PyObject *o = cpy_func_" +:+ s_id (v_sym ret) +:+ "_new(&"
            +:+ s_cpyname (v_sym ret) +:+ "Type, 0, 0);" +:+ nl);
    Printf ("if (o == NULL) {" +:+ nl);
    Indent;
    Printf ("return NULL;" +:+ nl);
    Outdent;
    Printf ("}" +:+ nl);
    Printf ("((" +:+ s_cpyname (v_sym ret) +:+ "*)o)->cgopy = " +:+ handle
            +:+ ";" +:+ nl);
    Printf ("return o;" +:+ nl) ].

(** [func (g *cpyGen) genFuncBody(f Func)], up to and including the call
    of the cgo function and the blank line after it. *)
Definition call_of (f : Func) : list ev :=
  let id := f_id f in
  let sig := f_sig f in
  let results := sg_ret sig in
  let args := sg_args sig in
  let funcArgs :=
    (match sg_recv sig with Some recv => [getFuncArg recv] | None => [] end
     ++ (getFuncArg <$> args))%list in
  (if bool_decide (results ≠ []) then [Printf "c_gopy_ret = "] else [])
  ++ [ Printf ("cgo_func_" +:+ id +:+ "(" +:+ join ", " funcArgs +:+ ");" +:+ nl);
       Printf nl ].

Definition before_call (f : Func) : list ev :=
  let id := f_id f in
  let sig := f_sig f in
  let results := sg_ret sig in
  let args := sg_args sig in
  match sg_recv sig with Some recv => genRecvDecl recv | None => [] end
  ++ concat (genDecl <$> args)
  ++ match results with
     | [] => []
     | [ret] => genRetDecl ret
     | _ => [Printf ("struct cgo_func_" +:+ id +:+ "_return c_gopy_ret;" +:+ nl)]
     end
  ++ [Printf nl]
  ++ match sg_recv sig with Some recv => genRecvImpl recv | None => [] end
  ++ (if bool_decide (args ≠ []) then
        [ Printf "if (!PyArg_ParseTuple(args, ";
          Printf (quote (join "" ((λ a, (getArgParse a).1) <$> args)) +:+ ", "
                  +:+ join ", " (concat ((λ a, (getArgParse a).2) <$> args))
                  +:+ ")) {" +:+ nl);
          Indent;
          Printf ("return NULL;" +:+ nl);
          Outdent;
          Printf ("}" +:+ nl +:+ nl) ]
      else [])
  ++ (if bool_decide (args ≠ []) then
        concat (genFuncPreamble <$> args) ++ [Printf nl]
      else []).

(** [func (g *cpyGen) genFuncBody(f Func)]: what it writes to [g.impl]. *)
Definition genFuncBody (f : Func) : res (list ev) :=
  let id := f_id f in
  let results := sg_ret (f_sig f) in
  let head := (before_call f ++ call_of f)%list in
  match results with
  | [] =>
      Ok (head ++ [Printf ("Py_INCREF(Py_None);" +:+ nl +:+ "return Py_None;" +:+ nl)])
  | r0 :: rest =>
      if f_err f then
        match rest with
        | [] =>
            Ok (head ++
                [ Printf ("if (!_cgopy_ErrorIsNil(c_gopy_ret)) {" +:+ nl);
                  Indent;
                  Printf ("const char* c_err_str = _cgopy_ErrorString(c_gopy_ret);" +:+ nl);
                  Printf ("PyErr_SetString(PyExc_RuntimeError, c_err_str);" +:+ nl);
                  Printf ("free((void*)c_err_str);" +:+ nl);
                  Printf ("return NULL;" +:+ nl);
                  Outdent;
                  Printf ("}" +:+ nl +:+ nl);
                  Printf ("Py_INCREF(Py_None);" +:+ nl +:+ "return Py_None;" +:+ nl) ])
        | [_] =>
            Ok (head ++
                [ Printf ("if (!_cgopy_ErrorIsNil(c_gopy_ret.r1)) {" +:+ nl);
                  Indent;
                  Printf ("const char* c_err_str = _cgopy_ErrorString(c_gopy_ret.r1);" +:+ nl);
                  Printf ("PyErr_SetString(PyExc_RuntimeError, c_err_str);" +:+ nl);
                  Printf ("free((void*)c_err_str);" +:+ nl);
                  Printf ("return NULL;" +:+ nl);
                  Outdent;
                  Printf ("}" +:+ nl +:+ nl) ] ++
                (if f_ctor f then new_object r0 "c_gopy_ret.r0"
                 else [Printf ("return Py_BuildValue("
                               +:+ quote (getArgBuildValue r0).1
                               +:+ ", c_gopy_ret.r0);" +:+ nl)]))
        | _ =>
            Panic ("bind: function/method with more than 2 results not supported! ("
                   +:+ id +:+ ")")
        end
      else if f_ctor f then
        Ok (head ++ new_object r0 "c_gopy_ret")
      else
        let built :=
          match rest with
          | [] => [getArgBuildValue (with_name r0 "gopy_ret")]
          | _ => getArgBuildValue <$> results
          end in
        Ok (head ++
            [Printf ("return Py_BuildValue("
                     +:+ quote (join "" (fst <$> built)) +:+ ", "
                     +:+ join ", " (concat (snd <$> built)) +:+ ");" +:+ nl)])
  end.

(** [func (g *cpyGen) genFunc(o Func)] *)
Definition genFunc (pkgname : string) (o : Func) : res (list ev) :=
  body ← genFuncBody o;
  Ok ([ Printf (nl +:+ "/* pythonization of: " +:+ pkgname +:+ "." +:+ f_name o
                +:+ " */" +:+ nl +:+ "static PyObject*" +:+ nl +:+ "cpy_func_"
                +:+ f_id o +:+ "(PyObject *self, PyObject *args) {" +:+ nl);
        Indent ]
      ++ body ++ [Outdent; Printf ("}" +:+ nl +:+ nl)]).

(** The map [kwds] that [genStructInit] fills from the parameters of the
    constructors: each new name gets the size of the map so far. *)
Definition add_kwd (kwds : gmap string nat) (arg : Var) : gmap string nat :=
  match kwds !! v_name arg with
  | Some _ => kwds
  | None => <[v_name arg := size kwds]> kwds
  end.

Definition ctor_kwds (ctors : list Func) : gmap string nat :=
  foldl (λ kwds ctor, foldl add_kwd kwds (sg_args (f_sig ctor))) ∅ ctors.

(** [func (g *cpyGen) genStructInit(cpy Struct)].  [ord1] and [ord2] are
    the orders of its two ranges over [kwds]. *)
Definition genStructInit (pkgname : string) (ord1 ord2 : list string)
    (cpy : Type_) : output :=
  let kwds := ctor_kwds (t_ctors cpy) in
  MkOutput
    [ Printf ("/* tp_init for " +:+ pkgname +:+ "." +:+ Type_GoName cpy
              +:+ " */" +:+ nl);
      Printf ("static int" +:+ nl +:+ "cpy_func_" +:+ s_id (t_sym cpy)
              +:+ "_init(" +:+ s_cpyname (t_sym cpy)
              +:+ " *self, PyObject *args, PyObject *kwds);" +:+ nl) ]
    ([ Printf ("/* tp_init */" +:+ nl);
       Printf ("static int" +:+ nl +:+ "cpy_func_" +:+ s_id (t_sym cpy)
               +:+ "_init(" +:+ s_cpyname (t_sym cpy)
               +:+ " *self, PyObject *args, PyObject *kwds) {" +:+ nl);
       Indent;
       Printf ("static char *kwlist[] = {" +:+ nl);
       Indent ]
     ++ ((λ e : string * nat,
            Printf (quote e.1 +:+ ", /* py_kwd_" +:+ fmt_d e.2 +:+ " */" +:+ nl))
         <$> range_map ord1 kwds)
     ++ [ Printf ("NULL" +:+ nl);
          Outdent;
          Printf ("};" +:+ nl) ]
     ++ ((λ e : string * nat,
            Printf ("PyObject *py_kwd_" +:+ fmt_d e.2 +:+ " = NULL;" +:+ nl))
         <$> range_map ord2 kwds)
     ++ [ Printf ("Py_ssize_t nkwds = (kwds != NULL) ? PyDict_Size(kwds) : 0;" +:+ nl);
          Printf ("Py_ssize_t nargs = (args != NULL) ? PySequence_Size(args) : 0;" +:+ nl);
          Printf ("if ((nkwds + nargs) > 0) {" +:+ nl);
          Indent;
          Printf "PyErr_SetString(PyExc_TypeError, ";
          Printf (dq +:+ Type_GoName cpy +:+ ".__init__ takes no argument"
                  +:+ dq +:+ ");" +:+ nl);
          Printf ("return -1;" +:+ nl);
          Outdent;
          Printf ("}" +:+ nl +:+ nl);
          Printf ("return 0;" +:+ nl);
          Outdent;
          Printf ("}" +:+ nl +:+ nl) ]).

(** The events [genStructInit] writes before the closing check: the
    function header and the declarations of the keyword list. *)
Inductive init_decl : ev → Prop :=
  | decl_indent : init_decl Indent
  | decl_outdent : init_decl Outdent
  | decl_header : init_decl (Printf ("/* tp_init */" +:+ nl))
  | decl_proto id cpyname :
      init_decl (Printf ("static int" +:+ nl +:+ "cpy_func_" +:+ id
                         +:+ "_init(" +:+ cpyname
                         +:+ " *self, PyObject *args, PyObject *kwds) {" +:+ nl))
  | decl_kwlist : init_decl (Printf ("static char *kwlist[] = {" +:+ nl))
  | decl_kw k n :
      init_decl (Printf (quote k +:+ ", /* py_kwd_" +:+ fmt_d n +:+ " */" +:+ nl))
  | decl_null : init_decl (Printf ("NULL" +:+ nl))
  | decl_close : init_decl (Printf ("};" +:+ nl))
  | decl_var n :
      init_decl (Printf ("PyObject *py_kwd_" +:+ fmt_d n +:+ " = NULL;" +:+ nl)).

(** An entry of a [PyMethodDef] table, as [cpyGen.gen] prints it. *)
Definition method_entry (name cfunc doc : string) : ev :=
  Printf ("{" +:+ quote name +:+ ", " +:+ cfunc +:+ ", METH_VARARGS, "
          +:+ quote doc +:+ "}," +:+ nl).

(** The entries [cpyGen.gen] writes into the module's method table for the
    free functions and then for the constructors of every struct. *)
Definition module_methods (structs : list Type_) (funcs : list Func) : list ev :=
  ((λ f, method_entry (f_name f) ("cpy_func_" +:+ f_id f) (f_doc f)) <$> funcs)
  ++ concat ((λ s, (λ f, method_entry (f_name f) ("cpy_func_" +:+ f_id f) (f_doc f))
                   <$> t_ctors s) <$> structs).

(** The entries [genStructMethods] writes into the method table of the
    type itself: one per method, none for constructors. *)
Definition struct_methods (cpy : Type_) : list ev :=
  (λ m, Printf ("{" +:+ quote (f_name m) +:+ ", (PyCFunction)cpy_func_"
                +:+ f_id m +:+ ", "
                +:+ (if bool_decide (sg_args (f_sig m) = [])
                     then "METH_NOARGS" else "METH_VARARGS")
                +:+ ", " +:+ quote (f_doc m) +:+ "}," +:+ nl))
  <$> t_meths cpy.

End Emitter.

End CPy.

(** ** The cgo emitter ([bind/gengo.go]) *)
Module GoGen.
Import Bind Emit.

Section Emitter.

(** [symbol.cgotypename], [Var.needWrap] and [types.TypeString] with the
    package-name qualifier, which are not among the sources; the expanded
    preamble; and what the emitters of types, structs, constants and
    variables write. *)
Context (cgotypename : symbol → string).
Context (needWrap : Var → bool).
Context (typeString : GoType → string).
Context (preamble : string).
Context (types_out : list ev).
Context (genStruct : Type_ → list ev).
Context (genConst : Const → list ev).
Context (genVar : Var → list ev).

(** [func (g *goGen) tupleString(tuple []*Var) string] *)
Definition tupleString (tuple : list Var) : string :=
  join ", " ((λ v, v_name v +:+ " " +:+ cgotypename (v_sym v)) <$> tuple).

(** [func (g *goGen) genFuncBody(f Func)] *)
Definition genFuncBody (pkgname : string) (f : Func) : list ev :=
  let results := sg_ret (f_sig f) in
  let args := sg_args (f_sig f) in
  concat ((λ e : nat * Var,
             (if bool_decide (0 < e.1)%nat then [Printf ", "] else [])
             ++ [Printf ("_gopy_" +:+ fmt_03d e.1)]) <$> indexed results)
  ++ (if bool_decide (results ≠ []) then [Printf " := "] else [])
  ++ [Printf (pkgname +:+ "." +:+ f_name f +:+ "(")]
  ++ ((λ e : nat * Var,
         let tail := if bool_decide (e.1 + 1 < length args)%nat then ", " else "" in
         let head :=
           if needWrap e.2
           then "*(*" +:+ typeString (s_gotyp (v_sym e.2))
                +:+ ")(unsafe.Pointer(" +:+ v_name e.2 +:+ "))"
           else v_name e.2 in
         Printf (head +:+ tail)) <$> indexed args)
  ++ [Printf (")" +:+ nl)]
  ++ (if bool_decide (results = []) then []
      else
        concat ((λ e : nat * Var,
                   if needWrap e.2
                   then [Printf ("cgopy_incref(unsafe.Pointer(&_gopy_"
                                 +:+ fmt_03d e.1 +:+ "))" +:+ nl)]
                   else []) <$> indexed results)
        ++ [Printf "return "]
        ++ concat ((λ e : nat * Var,
                      (if bool_decide (0 < e.1)%nat then [Printf ", "] else [])
                      ++ (if needWrap e.2
                          then [Printf (s_cgoname (v_sym e.2) +:+ "(unsafe.Pointer(&")]
                          else [])
                      ++ [Printf ("_gopy_" +:+ fmt_03d e.1)]
                      ++ (if needWrap e.2 then [Printf "))"] else []))
                   <$> indexed results)
        ++ [Printf nl]).

(** [func (g *goGen) genFunc(f Func)] *)
Definition genFunc (pkgname : string) (f : Func) : list ev :=
  let params := "(" +:+ tupleString (sg_args (f_sig f)) +:+ ")" in
  let ret := " (" +:+ tupleString (sg_ret (f_sig f)) +:+ ") " in
  [ Printf (nl +:+ "//export cgo_func_" +:+ f_id f +:+ nl
            +:+ "// cgo_func_" +:+ f_id f +:+ " wraps " +:+ pkgname +:+ "."
            +:+ f_name f +:+ nl
            +:+ "func cgo_func_" +:+ f_id f +:+ params +:+ ret +:+ "{" +:+ nl);
    Indent ]
  ++ genFuncBody pkgname f
  ++ [Outdent; Printf ("}" +:+ nl +:+ nl)].

(** [func (g *goGen) genPackage()] *)
Definition genPackage (pkgname : string) : list ev :=
  [ Printf (nl +:+ "//export cgo_pkg_" +:+ pkgname +:+ "_init" +:+ nl);
    Printf ("func cgo_pkg_" +:+ pkgname +:+ "_init() {}" +:+ nl +:+ nl) ].

(** [func (g *goGen) gen() error]: what it prints for the package [p]
    ([goGen] never adds to [g.err]). *)
Definition gen (p : Package) : list ev :=
  let pkgname := tp_name (p_pkg p) in
  [Printf preamble]
  ++ genPackage pkgname
  ++ types_out
  ++ concat (genStruct <$> p_types p)
  ++ concat ((λ s, concat (genFunc pkgname <$> t_ctors s)) <$> p_types p)
  ++ concat (genFunc pkgname <$> p_funcs p)
  ++ concat (genConst <$> p_consts p)
  ++ concat (genVar <$> p_vars p)
  ++ [Printf ("// buildmode=c-shared needs a 'main'" +:+ nl
              +:+ "func main() {}" +:+ nl)].

End Emitter.

End GoGen.

(** ** A worked package

    [package foo] declares [type Foo struct{}] and
    [func NewFoo() (Foo, error)]; its symbol table has a symbol for every
    type, named after the type. *)
Module Demo.
Import Bind Emit.

Fixpoint tyname (t : GoType) : string :=
  match t with
  | TError => "error"
  | TBasic n => n
  | TNamed _ n => n
  | TPointer e => "*" +:+ tyname e
  | TSlice e => "[]" +:+ tyname e
  | TArray _ e => "[...]" +:+ tyname e
  | TMap k e => "map[" +:+ tyname k +:+ "]" +:+ tyname e
  | TOpaque r => r
  end.

Definition sym_of (t : GoType) : symbol :=
  MkSymbol t ("foo_" +:+ tyname t) (tyname t) "" (tyname t)
           ("cgo_type_" +:+ tyname t) ("cpy_type_" +:+ tyname t).

Definition symtype (t : GoType) : option symbol := Some (sym_of t).
Definition universe_string : symbol := sym_of (TBasic "string").
Definition newVar (t : GoType) (objname name doc : string) : Var :=
  MkVar (sym_of t) ("foo_" +:+ objname) doc name.
Definition newVarFrom (v : TVar) : Var :=
  newVar (tv_type v) (tv_name v) (tv_name v) "".
Definition isStringer (o : Object) : bool := false.
Definition named_syms : list (symbol * list Object) := [].
Definition method_sym (o : Object) : option symbol := None.

Definition Foo : GoType := TNamed "example/foo" "Foo".

Definition Foo_obj : ObjInfo :=
  MkObj "Foo" "foo" "example/foo" false false true "type example/foo.Foo struct{}"
        "".

Definition NewFoo_obj : ObjInfo :=
  MkObj "NewFoo" "foo" "example/foo" false false true
        "func example/foo.NewFoo() (example/foo.Foo, error)"
        "example/foo.NewFoo".

Definition NewFoo_sig : TSignature :=
  MkTSig None [] [MkTVar "" Foo; MkTVar "" TError].

Definition foo_pkg : TPackage :=
  MkTPackage "foo" "example/foo"
             [OTypeName Foo_obj Foo; OFunc NewFoo_obj NewFoo_sig]
             (λ _, []).

(** The documentation index [go/doc] computes for it: a function that
    returns [Foo] is listed with the type, not with the package. *)
Definition foo_doc : DocPackage :=
  MkDocPackage "example/foo" "Package foo."
    [] []
    [MkDocType "Foo" "Foo is a thing." [] [MkDocFunc "NewFoo" "NewFoo makes a Foo."]]
    [].

(** The descriptor of [Foo] before promotion. *)
Definition Foo_struct : Type_ :=
  MkType (sym_of Foo) Foo_obj "" "" [] [] Func_zero Func_zero Func_zero
         Func_zero 0.

(** A documentation index with no entry at all. *)
Definition no_doc : DocPackage := MkDocPackage "example/foo" "" [] [] [] [].

(** One order for every range. *)
Definition foo_orders : Orders :=
  MkOrders ["Foo"; "NewFoo"] (λ _, ["Foo"; "NewFoo"]) ["Foo"; "NewFoo"].

(** [func Hello()] and [const Pi float64] *)
Definition Hello_obj : ObjInfo :=
  MkObj "Hello" "foo" "example/foo" false false true "func example/foo.Hello()"
        "example/foo.Hello".

Definition Pi_obj : ObjInfo :=
  MkObj "Pi" "foo" "example/foo" false false true "const example/foo.Pi" "".

(** [package ab] declares [func A()] and [func B()] and nothing else. *)
Definition A_obj : ObjInfo :=
  MkObj "A" "ab" "example/ab" false false true "func example/ab.A()" "example/ab.A".
Definition B_obj : ObjInfo :=
  MkObj "B" "ab" "example/ab" false false true "func example/ab.B()" "example/ab.B".

Definition ab_pkg : TPackage :=
  MkTPackage "ab" "example/ab"
             [OFunc A_obj (MkTSig None [] []); OFunc B_obj (MkTSig None [] [])]
             (λ _, []).

(** Two runs of the pipeline on [package ab]: the final range over [funcs]
    yields [A] before [B] in one and [B] before [A] in the other. *)
Definition ab_orders : Orders :=
  MkOrders ["A"; "B"] (λ _, ["A"; "B"]) ["A"; "B"].
Definition ba_orders : Orders :=
  MkOrders ["A"; "B"] (λ _, ["A"; "B"]) ["B"; "A"].

(** The cgo emitter on a package without types, constants and variables. *)
Definition go_gen (p : Package) : list ev :=
  GoGen.gen s_cgoname (λ _, false) tyname
            ("package main" +:+ nl) [] (λ _, []) (λ _, []) (λ _, []) p.

End Demo.

(** ** Counting acquires and releases

    What the table says about one address, and what a list of calls asks
    for, so that the two can be compared along a run. *)
Module Tally.
Import Bridge.

(** The address a call is about. *)
Definition target (o : op) : Z :=
  match o with Acquire p | Release p => p end.

(** The count the table holds for an address; [0] when it is not tracked.
    Both operations read the entry this way ([s := refs.ptrs[num]], the
    zero [cobject] for a missing id). *)
Definition count (st : refs_t) (p : Z) : Z :=
  match refs st !! p with
  | Some num => cnt (default cobject_zero (ptrs st !! num))
  | None => 0
  end.

(** Acquires minus releases of [p] in a list of calls. *)
Fixpoint balance (p : Z) (ops : list op) : Z :=
  match ops with
  | [] => 0
  | Acquire q :: ops' => (if decide (q = p) then 1 else 0) + balance p ops'
  | Release q :: ops' => (if decide (q = p) then -1 else 0) + balance p ops'
  end.

(** Every tracked address has a count of at least one and below the
    [int32] maximum plus one. *)
Definition counted (st : refs_t) : Prop :=
  ∀ p n, refs st !! p = Some n → 1 ≤ count st p ≤ int32_max.

End Tally.

(** ** The processed package as its users read it *)
Module Objects.
Import Bind.

(** [func (p *Package) Lookup(o types.Object) (Object, bool)]: the entry
    of [p.objs] under the name of [o], if there is one. *)
Definition Lookup (p : Package) (o : Object) : option BObject :=
  p_objs p !! o_name (info o).

(** The objects the second loop of [process] does not skip
    ([if !obj.Exported() { continue }]), and among them the constants and
    the variables with their types, in the order of the scope. *)
Definition exported_objects (l : list Object) : list Object :=
  List.filter (λ o, o_exported (info o)) l.

Definition exported_consts (l : list Object) : list (ObjInfo * GoType) :=
  omap (λ o, match o with OConst i t => Some (i, t) | _ => None end)
       (exported_objects l).

Definition exported_vars (l : list Object) : list (ObjInfo * GoType) :=
  omap (λ o, match o with OVar i t => Some (i, t) | _ => None end)
       (exported_objects l).

(** The methods of a method set the third loop does not skip
    ([if !m.Obj().Exported() { continue }]). *)
Definition exported_methods (ms : list (Object * TSignature))
  : list (Object * TSignature) :=
  List.filter (λ m, o_exported (info m.1)) ms.

End Objects.

(** ** The keyword map of [genStructInit] *)
Module Keywords.

(** A map from names to numbers in which the numbers in use are exactly
    those below the size of the map, each under one name. *)
Definition numbered (m : gmap string nat) : Prop :=
  (∀ k n, m !! k = Some n → (n < size m)%nat) ∧
  (∀ k1 k2 n, m !! k1 = Some n → m !! k2 = Some n → k1 = k2) ∧
  (∀ n, (n < size m)%nat → ∃ k, m !! k = Some n).

End Keywords.

(** ** A package with every kind of object

    [package foo] with [var Debug bool], [type Foo struct{}] and its
    methods [String() string] and [reset()], [func Hello()],
    [func NewFoo() (Foo, error)], [const Pi float64] and the unexported
    [func helper()]; the scope lists the names sorted, as [scope.Names()]
    does. *)
Module Zoo.
Import Bind.

Definition isStringer (o : Object) : bool :=
  bool_decide (o_name (info o) = "String").

Definition Debug_obj : ObjInfo :=
  MkObj "Debug" "foo" "example/foo" false false true "var example/foo.Debug bool" "".

Definition helper_obj : ObjInfo :=
  MkObj "helper" "foo" "example/foo" false false false "func example/foo.helper()"
        "example/foo.helper".

Definition String_obj : ObjInfo :=
  MkObj "String" "foo" "example/foo" false true true
        "func (example/foo.Foo).String() string" "(example/foo.Foo).String".

Definition reset_obj : ObjInfo :=
  MkObj "reset" "foo" "example/foo" false true false
        "func (*example/foo.Foo).reset()" "(*example/foo.Foo).reset".

Definition String_sig : TSignature :=
  MkTSig (Some (MkTVar "f" Demo.Foo)) [] [MkTVar "" (TBasic "string")].

Definition reset_sig : TSignature :=
  MkTSig (Some (MkTVar "f" (TPointer Demo.Foo))) [] [].

Definition Hello_sig : TSignature := MkTSig None [] [].

(** [func Foo_String()], a package-level function whose name spells a
    type name, an underscore and a method name. *)
Definition Foo_String_obj : ObjInfo :=
  MkObj "Foo_String" "foo" "example/foo" false false true
        "func example/foo.Foo_String()" "example/foo.Foo_String".

(** A documentation index that lists [Pi] in two groups of constants and
    [Hello] among the functions. *)
Definition two_docs : DocPackage :=
  MkDocPackage "example/foo" "Package foo."
    [MkDocValue ["E"; "Pi"] "Mathematical constants.";
     MkDocValue ["Pi"] "Pi again."]
    []
    [MkDocType "Foo" "Foo is a thing." [] []]
    [MkDocFunc "Hello" "Hello greets."; MkDocFunc "Hello" "Shadowed."].

(** Two constructors of [Foo] with parameters, [NewXY(x, y int)] and
    [NewXZ(x, z int)], as [process] would leave them. *)
Definition param (n : string) : Var := Demo.newVar (TBasic "int") n n "".

Definition NewXY : Func :=
  MkFunc (MkSignature [param "ret"] [param "x"; param "y"] None) None
         "NewXY" "example/foo.NewXY" "foo_NewXY" "" (Some Demo.Foo) false true.

Definition NewXZ : Func :=
  MkFunc (MkSignature [param "ret"] [param "x"; param "z"] None) None
         "NewXZ" "example/foo.NewXZ" "foo_NewXZ" "" (Some Demo.Foo) false true.

Definition methods (t : GoType) : list (Object * TSignature) :=
  if decide (t = Demo.Foo)
  then [(OFunc String_obj String_sig, String_sig);
        (OFunc reset_obj reset_sig, reset_sig)]
  else [].

Definition pkg : TPackage :=
  MkTPackage "foo" "example/foo"
    [OVar Debug_obj (TBasic "bool");
     OTypeName Demo.Foo_obj Demo.Foo;
     OFunc Demo.Hello_obj Hello_sig;
     OFunc Demo.NewFoo_obj Demo.NewFoo_sig;
     OConst Demo.Pi_obj (TBasic "float64");
     OFunc helper_obj Hello_sig]
    methods.

Definition scope_names : list string :=
  ["Debug"; "Foo"; "Hello"; "NewFoo"; "Pi"; "helper"].

(** Two choices of range orders for it. *)
Definition orders : Orders :=
  MkOrders scope_names (λ _, scope_names) scope_names.
Definition orders_rev : Orders :=
  MkOrders (reverse scope_names) (λ _, reverse scope_names)
           (reverse scope_names).

(** The pipeline on it. *)
Definition pipeline (ords : Orders) : res Package :=
  NewPackage Demo.symtype Demo.universe_string Demo.newVarFrom Demo.newVar
             isStringer Demo.named_syms Demo.method_sym ords pkg Demo.foo_doc.







(** The package it returns under [orders]. *)
Definition out : Package :=
  Eval vm_compute in
    match pipeline orders with
    | Ok p => p
    | _ => MkPackage pkg 0 Demo.foo_doc ∅ [] [] [] []
    end.

(** The pipeline on [package ab] of [Demo], and the packages it returns
    under the two orders given there. *)
Definition pipeline_ab (ords : Orders) : res Package :=
  NewPackage Demo.symtype Demo.universe_string Demo.newVarFrom Demo.newVar
             Demo.isStringer Demo.named_syms Demo.method_sym ords
             Demo.ab_pkg Demo.no_doc.

Definition ab_out : Package :=
  Eval vm_compute in
    match pipeline_ab Demo.ab_orders with
    | Ok p => p
    | _ => MkPackage Demo.ab_pkg 0 Demo.no_doc ∅ [] [] [] []
    end.

Definition ba_out : Package :=
  Eval vm_compute in
    match pipeline_ab Demo.ba_orders with
    | Ok p => p
    | _ => MkPackage Demo.ab_pkg 0 Demo.no_doc ∅ [] [] [] []
    end.

End Zoo.

(** ** Helpers of the Python generator ([bind/gengo.go], [pyGen]) *)
Module PyGen.

(** [func boolGoToPy(b bool) C.char] and [func boolPyToGo(b C.char) bool]
    of the Go preamble; a [C.char] is kept as an integer. *)
Definition boolGoToPy (b : bool) : Z := if b then 1 else 0.

Definition boolPyToGo (b : Z) : bool := if bool_decide (b ≠ 0) then true else false.

(** [len(s)] of a Go string, a sequence of bytes. *)
Definition len (s : string) : Z := Z.of_nat (String.length s).

(** [strings.Index(s, substr)]: the index of the first instance of
    [substr] in [s], or [-1] if there is none. *)
Fixpoint Index (s substr : string) : Z :=
  if String.prefix substr s then 0
  else
    match s with
    | EmptyString => -1
    | String _ s' =>
        let i := Index s' substr in
        if i <? 0 then -1 else i + 1
    end.

(** The first [n] bytes of a string, and the string without them. *)
Fixpoint take (n : nat) (s : string) : string :=
  match n, s with
  | S n', String c s' => String c (take n' s')
  | _, _ => EmptyString
  end.

Fixpoint drop (n : nat) (s : string) : string :=
  match n, s with
  | S n', String _ s' => drop n' s'
  | _, _ => s
  end.

(** The slice expression [s[lo:hi]]; it panics ([None]) unless
    [0 <= lo <= hi <= len(s)]. *)
Definition slice (s : string) (lo hi : Z) : option string :=
  if bool_decide (0 ≤ lo ∧ lo ≤ hi ∧ hi ≤ len s)
  then Some (take (Z.to_nat (hi - lo)) (drop (Z.to_nat lo) s))
  else None.

(** [func CmdStrToMakefile(cmdstr string) string]; [s[lo:]] is
    [s[lo:len(s)]] and [s[:hi]] is [s[0:hi]].  The indices are bounded by
    the length of the string, so Go's [int] does not wrap. *)
Definition CmdStrToMakefile (cmdstr : string) : option string :=
  let oidx := Index cmdstr "-output=" in
  if 0 <? oidx then
    tl ← slice cmdstr oidx (len cmdstr);
    let spidx := Index tl " " in
    a ← slice cmdstr 0 oidx;
    b ← slice cmdstr (oidx + spidx + 1) (len cmdstr);
    Some (a +:+ b)
  else Some cmdstr.

End PyGen.

(** ** Facts about the reference bridge *)
Module BridgeFacts.
Import Bridge.

(** *** Arithmetic of [wrap32] *)

Lemma wrap32_id z : int32_min ≤ z ≤ int32_max → wrap32 z = z.
Proof.
  unfold wrap32, int32_min, int32_max. intros Hz.
  rewrite Z.mod_small; lia.
Qed.

Lemma wrap32_pred_min : wrap32 (int32_min - 1) = int32_max.
Proof. reflexivity. Qed.

Lemma wrap32_succ_max : wrap32 (int32_max + 1) = int32_min.
Proof. reflexivity. Qed.

(** *** The invariant *)

Lemma wf_init : wf init.
Proof.
  split; simpl.
  - unfold int32_min. lia.
  - intros p n H. by rewrite lookup_empty in H.
  - intros n p c H. by rewrite lookup_empty in H.
  - intros n e H. by rewrite lookup_empty in H.
Qed.

Lemma incref_fresh_eq st p :
  refs st !! p = None → int32_min < next st ≤ 0 →
  cgopy_incref st p =
    Ret [] (Refs (next st - 1) (<[p := next st]> (refs st))
                 (<[next st := CObj p 1]> (ptrs st))).
Proof.
  intros Hp Hn. unfold cgopy_incref. rewrite Hp. cbv zeta.
  rewrite wrap32_id by (unfold int32_min, int32_max in *; lia).
  destruct (0 <? next st - 1) eqn:E; [apply Z.ltb_lt in E; lia | done].
Qed.

Lemma incref_fresh_panic st p :
  refs st !! p = None → next st = int32_min →
  cgopy_incref st p = Panic "refs.next underflow".
Proof.
  intros Hp Hn. unfold cgopy_incref. rewrite Hp, Hn. reflexivity.
Qed.

Lemma incref_tracked_eq st p n q c :
  refs st !! p = Some n → ptrs st !! n = Some (CObj q c) →
  int32_min ≤ c < int32_max →
  cgopy_incref st p =
    Ret [] (Refs (next st) (refs st) (<[n := CObj q (c + 1)]> (ptrs st))).
Proof.
  intros Hp Hn Hc. unfold cgopy_incref. rewrite Hp, Hn. simpl.
  rewrite wrap32_id by (unfold int32_min, int32_max in *; lia). done.
Qed.

Lemma decref_tracked_eq st p n q c :
  refs st !! p = Some n → ptrs st !! n = Some (CObj q c) →
  1 ≤ c ≤ int32_max →
  cgopy_decref st p =
    if decide (c = 1)
    then Ret [] (Refs (next st) (delete p (refs st)) (delete n (ptrs st)))
    else Ret [] (Refs (next st) (refs st) (<[n := CObj q (c - 1)]> (ptrs st))).
Proof.
  intros Hp Hn Hc. unfold cgopy_decref. rewrite Hp, Hn. simpl.
  rewrite wrap32_id by (unfold int32_min, int32_max in *; lia).
  destruct (decide (c = 1)) as [->|Hne]; [done|].
  destruct (c - 1 <=? 0) eqn:E; [apply Z.leb_le in E; lia | done].
Qed.

(** Release on any [int32] count: the entry goes when the count is at
    most 1 and not the smallest [int32], whose predecessor wraps to the
    largest. *)
Lemma decref_tracked_int32 st p n q c :
  refs st !! p = Some n → ptrs st !! n = Some (CObj q c) →
  int32_min ≤ c ≤ int32_max →
  cgopy_decref st p =
    if decide (int32_min < c ≤ 1)
    then Ret [] (Refs (next st) (delete p (refs st)) (delete n (ptrs st)))
    else Ret [] (Refs (next st) (refs st)
                      (<[n := CObj q (if decide (c = int32_min)
                                      then int32_max else c - 1)]> (ptrs st))).
Proof.
  intros Hp Hn Hc. unfold cgopy_decref. rewrite Hp, Hn. simpl.
  destruct (decide (c = int32_min)) as [->|Hmin].
  - rewrite wrap32_pred_min. rewrite decide_False by lia. done.
  - rewrite wrap32_id by (unfold int32_min, int32_max in *; lia).
    destruct (decide (int32_min < c ≤ 1)) as [Hlow|Hhigh].
    + destruct (c - 1 <=? 0) eqn:E; [done|apply Z.leb_gt in E; lia].
    + destruct (c - 1 <=? 0) eqn:E; [apply Z.leb_le in E; lia|done].
Qed.

Lemma incref_wf st p rs st' :
  wf st → cgopy_incref st p = Ret rs st' → wf st'.
Proof.
  intros [Hnx Hf Hb Hi]. unfold cgopy_incref.
  destruct (refs st !! p) as [num|] eqn:Hp.
  - destruct (Hf _ _ Hp) as [c Hc]. rewrite Hc. simpl.
    intros [= <- <-]. split; simpl; [done| | |].
    + intros p' n' Hp'. destruct (decide (n' = num)) as [->|Hne].
      * rewrite lookup_insert_eq. destruct (Hf _ _ Hp') as [c' Hc'].
        rewrite Hc in Hc'. injection Hc' as -> _. eauto.
      * rewrite lookup_insert_ne by done. eauto.
    + intros n' p' c'. destruct (decide (n' = num)) as [->|Hne].
      * rewrite lookup_insert_eq. intros [= <- _]. done.
      * rewrite lookup_insert_ne by done. eauto.
    + intros n' e. destruct (decide (n' = num)) as [->|Hne].
      * intros _. eauto.
      * rewrite lookup_insert_ne by done. eauto.
  - cbv zeta. destruct (decide (next st = int32_min)) as [Hmin|Hmin].
    { rewrite Hmin. discriminate. }
    rewrite wrap32_id by (unfold int32_min, int32_max in *; lia).
    destruct (0 <? next st - 1) eqn:E; [discriminate|].
    intros [= <- <-]. split; simpl.
    + lia.
    + intros p' n'. destruct (decide (p' = p)) as [->|Hne].
      * rewrite lookup_insert_eq. intros [= <-].
        rewrite lookup_insert_eq. eauto.
      * rewrite lookup_insert_ne by done. intros Hp'.
        destruct (Hf _ _ Hp') as [c Hc]. exists c.
        rewrite lookup_insert_ne; [done|].
        intros <-. apply Hi in Hc. lia.
    + intros n' p' c'. destruct (decide (n' = next st)) as [->|Hne].
      * rewrite lookup_insert_eq. intros [= <- _].
        by rewrite lookup_insert_eq.
      * rewrite lookup_insert_ne by done. intros Hn'.
        rewrite lookup_insert_ne; [eauto|].
        intros <-. apply Hb in Hn'. congruence.
    + intros n' e. destruct (decide (n' = next st)) as [->|Hne].
      * intros _. lia.
      * rewrite lookup_insert_ne by done. intros Hn'.
        apply Hi in Hn'. lia.
Qed.

Lemma decref_wf st p rs st' :
  wf st → cgopy_decref st p = Ret rs st' → wf st'.
Proof.
  intros [Hnx Hf Hb Hi]. unfold cgopy_decref.
  destruct (refs st !! p) as [num|] eqn:Hp; [|discriminate].
  destruct (Hf _ _ Hp) as [c Hc]. rewrite Hc. simpl.
  destruct (wrap32 (c - 1) <=? 0).
  - intros [= <- <-]. split; simpl; [done| | |].
    + intros p' n'. destruct (decide (p' = p)) as [->|Hne].
      * by rewrite lookup_delete_eq.
      * rewrite lookup_delete_ne by done. intros Hp'.
        destruct (Hf _ _ Hp') as [c' Hc']. exists c'.
        rewrite lookup_delete_ne; [done|].
        intros <-. rewrite Hc in Hc'. congruence.
    + intros n' p' c'. destruct (decide (n' = num)) as [->|Hne].
      * by rewrite lookup_delete_eq.
      * rewrite lookup_delete_ne by done. intros Hn'.
        rewrite lookup_delete_ne; [eauto|].
        intros <-. apply Hb in Hn'. congruence.
    + intros n' e. destruct (decide (n' = num)) as [->|Hne].
      * by rewrite lookup_delete_eq.
      * rewrite lookup_delete_ne by done. eauto.
  - intros [= <- <-]. split; simpl; [done| | |].
    + intros p' n' Hp'. destruct (decide (n' = num)) as [->|Hne].
      * rewrite lookup_insert_eq. destruct (Hf _ _ Hp') as [c' Hc'].
        rewrite Hc in Hc'. injection Hc' as -> _. eauto.
      * rewrite lookup_insert_ne by done. eauto.
    + intros n' p' c'. destruct (decide (n' = num)) as [->|Hne].
      * rewrite lookup_insert_eq. intros [= <- _]. done.
      * rewrite lookup_insert_ne by done. eauto.
    + intros n' e. destruct (decide (n' = num)) as [->|Hne].
      * intros _. eauto.
      * rewrite lookup_insert_ne by done. eauto.
Qed.

Lemma step_wf st o rs st' : wf st → step st o = Ret rs st' → wf st'.
Proof. destruct o; simpl; eauto using incref_wf, decref_wf. Qed.

Lemma reachable_wf st : reachable st → wf st.
Proof. induction 1; eauto using wf_init, step_wf. Qed.


Lemma run_wf ops : ∀ st st', wf st → run st ops = Some st' → wf st'.
Proof.
  induction ops as [|o ops IH]; simpl; intros st st' Hwf.
  - by intros [= <-].
  - destruct (step st o) as [rs s1|] eqn:E; [|done].
    eauto using step_wf.
Qed.

Lemma run_reachable ops : ∀ st st',
  reachable st → run st ops = Some st' → reachable st'.
Proof.
  induction ops as [|o ops IH]; simpl; intros st st' Hst.
  - by intros [= <-].
  - destruct (step st o) as [rs s1|] eqn:E; [|done].
    apply IH. by eapply reach_step.
Qed.

(** Two acquires and two releases of one address leave an empty table
    whose next id is one lower; a third release aborts. *)
Example round_trip :
  run init [Acquire 5; Acquire 5; Release 5; Release 5]
  = Some (Refs (-25) ∅ ∅).
Proof. reflexivity. Qed.

Example third_release :
  run init [Acquire 5; Acquire 5; Release 5; Release 5; Release 5] = None.
Proof. reflexivity. Qed.

(** *** Exhausting the id sequence

    Acquiring and releasing one address moves [next] down by one and
    leaves the table empty, so every value down to the smallest [int32]
    is reached with an empty table. *)
Lemma reachable_drained (k : Z) :
  0 ≤ k ≤ 2147483624 → reachable (Refs (-24 - k) ∅ ∅).
Proof.
  intros [Hk0 Hk]. revert Hk. pattern k. apply natlike_ind; [| |exact Hk0].
  - intros _. apply reach_init.
  - clear k Hk0. intros k Hk0 IH Hk.
    assert (Hst : reachable (Refs (-24 - k) ∅ ∅)) by (apply IH; lia).
    set (n := -24 - k) in *.
    assert (E1 : step (Refs n ∅ ∅) (Acquire 0)
                 = Ret [] (Refs (n - 1) (<[0 := n]> ∅) (<[n := CObj 0 1]> ∅))).
    { simpl. rewrite incref_fresh_eq; simpl; [done|done|].
      unfold int32_min. lia. }
    assert (E2 : step (Refs (n - 1) (<[0 := n]> ∅) (<[n := CObj 0 1]> ∅)) (Release 0)
                 = Ret [] (Refs (n - 1) ∅ ∅)).
    { simpl. unfold cgopy_decref. simpl.
      rewrite lookup_insert_eq. simpl. rewrite lookup_insert_eq. simpl.
      by rewrite !delete_insert_eq, !delete_empty. }
    replace (-24 - Z.succ k) with (n - 1) by lia.
    eapply reach_step; [|exact E2].
    eapply reach_step; [exact Hst|exact E1].
Qed.

(** A table that real runs produce on which acquiring an untracked address
    aborts instead of inserting it. *)
Lemma incref_exhausted :
  reachable (Refs int32_min ∅ ∅) ∧
  cgopy_incref (Refs int32_min ∅ ∅) 7 = Panic "refs.next underflow".
Proof.
  split; [|reflexivity].
  apply (reachable_drained 2147483624). lia.
Qed.

(** *** Ids handed out along a run *)

Lemma fresh_id_incref st p rs st' :
  int32_min ≤ next st ≤ 0 →
  cgopy_incref st p = Ret rs st' →
  (fresh_id st (Acquire p) st' = [] ∧ next st' = next st) ∨
  (fresh_id st (Acquire p) st' = [next st] ∧ next st' = next st - 1
   ∧ int32_min < next st).
Proof.
  intros Hn. unfold cgopy_incref, fresh_id.
  destruct (refs st !! p) as [num|] eqn:Hp.
  - intros [= <- <-]. by left.
  - cbv zeta. destruct (decide (next st = int32_min)) as [Hmin|Hmin].
    { rewrite Hmin. discriminate. }
    rewrite wrap32_id by (unfold int32_min, int32_max in *; lia).
    destruct (0 <? next st - 1); [discriminate|].
    intros [= <- <-]. simpl. rewrite lookup_insert_eq. right.
    repeat split; lia.
Qed.

Lemma decref_next st p rs st' :
  cgopy_decref st p = Ret rs st' → next st' = next st.
Proof.
  unfold cgopy_decref. destruct (refs st !! p); [|discriminate].
  destruct (_ <=? _); by intros [= <- <-].
Qed.

Lemma assigned_below ops :
  ∀ st, int32_min ≤ next st ≤ 0 →
    Forall (λ i, int32_min < i ≤ next st) (assigned st ops) ∧
    StronglySorted (λ a b, b < a) (assigned st ops).
Proof.
  induction ops as [|o ops IH]; intros st Hn; simpl.
  - split; constructor.
  - destruct (step st o) as [rs st'|] eqn:E; [|split; constructor].
    destruct o as [p|p]; simpl in E.
    + destruct (fresh_id_incref _ _ _ _ Hn E) as [[-> Hnx]|(-> & Hnx & Hlt)].
      * simpl. rewrite <- Hnx. apply IH. lia.
      * destruct (IH st') as [Hall Hs]; [lia|]. simpl. split.
        -- constructor; [lia|]. eapply Forall_impl; [exact Hall|].
           simpl. intros i Hi. lia.
        -- constructor; [done|]. eapply Forall_impl; [exact Hall|].
           simpl. intros i Hi. lia.
    + simpl. rewrite <- (decref_next _ _ _ _ E). apply IH.
      rewrite (decref_next _ _ _ _ E). lia.
Qed.

Lemma decreasing_NoDup (l : list Z) :
  StronglySorted (λ a b, b < a) l → NoDup l.
Proof.
  induction 1 as [|a l Hs IH Hall]; constructor; [|done].
  intros Hin. rewrite Forall_forall in Hall. apply Hall in Hin. lia.
Qed.

(** *** Acquire, release and the id sequence *)

(** C2 (as stated, refuted): acquire does not hand a handle id back.
    On the freshly initialised table, [cgopy_incref] of address [1] stores
    id [-24] for it and returns no value at all. *)
Lemma cgopy_incref_returns_no_handle :
  cgopy_incref init 1 = Ret [] (Refs (-25) {[1 := -24]} {[-24 := CObj 1 1]}) ∧
  ¬ (∃ id st', cgopy_incref init 1 = Ret [id] st').
Proof.
  assert (E : cgopy_incref init 1
              = Ret [] (Refs (-25) {[1 := -24]} {[-24 := CObj 1 1]}))
    by reflexivity.
  split; [exact E|]. intros (id & st' & H). rewrite E in H. discriminate.
Qed.

(** C2 (amended): [cgopy_incref] returns no value; its effect is on the
    table only.  On a well-formed table: a tracked address keeps its id and
    the count of its entry goes up by one (below the [int32] maximum); an
    untracked address is stored under id [next] with count 1 and [next]
    moves down by one, unless [next] is the smallest [int32], where the call
    panics.  Acquiring an untracked address twice leaves it under that one
    id with count 2, and no other entry holds the address. *)
Theorem cgopy_incref_table (st : refs_t) (p : Z) :
  wf st →
  (∀ n, refs st !! p = Some n →
     ∃ c, ptrs st !! n = Some (CObj p c) ∧
       (int32_min ≤ c < int32_max →
        cgopy_incref st p =
          Ret [] (Refs (next st) (refs st) (<[n := CObj p (c + 1)]> (ptrs st))))) ∧
  (refs st !! p = None → int32_min < next st →
     let st1 := Refs (next st - 1) (<[p := next st]> (refs st))
                     (<[next st := CObj p 1]> (ptrs st)) in
     let st2 := Refs (next st - 1) (<[p := next st]> (refs st))
                     (<[next st := CObj p 2]> (ptrs st)) in
     cgopy_incref st p = Ret [] st1 ∧
     cgopy_incref st1 p = Ret [] st2 ∧
     refs st1 !! p = Some (next st) ∧
     refs st2 !! p = Some (next st) ∧
     ptrs st2 !! next st = Some (CObj p 2) ∧
     (∀ n e, ptrs st2 !! n = Some e → ptr e = p → n = next st)) ∧
  (refs st !! p = None → next st = int32_min →
     cgopy_incref st p = Panic "refs.next underflow").
Proof.
  intros Hwf. destruct Hwf as [Hnx Hf Hb Hi]. split; [|split].
  - intros n Hp. destruct (Hf _ _ Hp) as [c Hc]. exists c. split; [done|].
    intros Hr. by apply incref_tracked_eq.
  - intros Hp Hlt st1 st2.
    assert (E1 : cgopy_incref st p = Ret [] st1)
      by (apply incref_fresh_eq; [done|lia]).
    assert (E2 : cgopy_incref st1 p = Ret [] st2).
    { rewrite (incref_tracked_eq st1 p (next st) p 1); subst st1 st2; simpl.
      - by rewrite insert_insert_eq.
      - by rewrite lookup_insert_eq.
      - by rewrite lookup_insert_eq.
      - unfold int32_min, int32_max. lia. }
    repeat split; try done; subst st1 st2; simpl.
    + by rewrite lookup_insert_eq.
    + by rewrite lookup_insert_eq.
    + by rewrite lookup_insert_eq.
    + intros n e. destruct (decide (n = next st)) as [->|Hne]; [done|].
      rewrite lookup_insert_ne by done. destruct e as [q c]. simpl.
      intros Hn ->. apply Hb in Hn. congruence.
  - intros Hp Hmin. by apply incref_fresh_panic.
Qed.

Lemma cgopy_incref_table_witness :
  cgopy_incref init 1 = Ret [] (Refs (-25) (<[1 := -24]> ∅) (<[-24 := CObj 1 1]> ∅)) ∧
  cgopy_incref (Refs (-25) (<[1 := -24]> ∅) (<[-24 := CObj 1 1]> ∅)) 1
    = Ret [] (Refs (-25) (<[1 := -24]> ∅) (<[-24 := CObj 1 2]> ∅)).
Proof.
  destruct (cgopy_incref_table init 1 wf_init) as (_ & H & _).
  destruct (H eq_refl eq_refl) as (E1 & E2 & _).
  split; [exact E1 | exact E2].
Defined.

(** C3 (amended): [cgopy_decref] panics on an address that is not in
    the table.  On a tracked address with count [c ≥ 2] it returns with
    the count lowered to [c - 1] and the entry kept; with count [1] the
    count reaches zero and the entry is removed from both maps.  The
    count is an [int32] that acquires can wrap below zero: with a count
    from the smallest [int32] plus one up to [0] the entry is removed as
    well, although [c - 1] is not zero, and with the smallest [int32] the
    count wraps to the largest and the entry is kept.  After two acquires
    of an untracked address, two releases remove its entry and a third
    release panics. *)
Theorem cgopy_decref_table (st : refs_t) (p : Z) :
  (refs st !! p = None →
     cgopy_decref st p = Panic "cgopy: decref untracked object") ∧
  (∀ n q c, refs st !! p = Some n → ptrs st !! n = Some (CObj q c) →
     int32_min ≤ c ≤ int32_max →
     ∃ st', cgopy_decref st p = Ret [] st' ∧ next st' = next st ∧
       (c = 1 → refs st' = delete p (refs st) ∧ ptrs st' = delete n (ptrs st)
                ∧ refs st' !! p = None ∧ ptrs st' !! n = None) ∧
       (2 ≤ c → refs st' = refs st ∧
                ptrs st' = <[n := CObj q (c - 1)]> (ptrs st)
                ∧ refs st' !! p = Some n
                ∧ ptrs st' !! n = Some (CObj q (c - 1))) ∧
       (int32_min < c ≤ 0 →
                c - 1 ≠ 0 ∧
                refs st' = delete p (refs st) ∧ ptrs st' = delete n (ptrs st)
                ∧ refs st' !! p = None ∧ ptrs st' !! n = None) ∧
       (c = int32_min →
                refs st' = refs st ∧
                ptrs st' = <[n := CObj q int32_max]> (ptrs st)
                ∧ refs st' !! p = Some n
                ∧ ptrs st' !! n = Some (CObj q int32_max))) ∧
  (refs st !! p = None → int32_min < next st ≤ 0 →
     ∃ s1 s2 s3 s4,
       cgopy_incref st p = Ret [] s1 ∧ cgopy_incref s1 p = Ret [] s2 ∧
       ptrs s2 !! next st = Some (CObj p 2) ∧
       cgopy_decref s2 p = Ret [] s3 ∧
       refs s3 !! p = Some (next st) ∧ ptrs s3 !! next st = Some (CObj p 1) ∧
       cgopy_decref s3 p = Ret [] s4 ∧
       refs s4 !! p = None ∧ ptrs s4 !! next st = None ∧
       cgopy_decref s4 p = Panic "cgopy: decref untracked object").
Proof.
  split; [|split].
  - intros Hp. unfold cgopy_decref. by rewrite Hp.
  - intros n q c Hp Hn Hc.
    rewrite (decref_tracked_int32 st p n q c Hp Hn Hc).
    destruct (decide (int32_min < c ≤ 1)) as [Hlow|Hhigh].
    + eexists. split; [reflexivity|]. simpl. split; [done|].
      split; [|split; [|split]].
      * intros _. by rewrite !lookup_delete_eq.
      * intros ?. lia.
      * intros ?. split; [lia|]. by rewrite !lookup_delete_eq.
      * intros ->. unfold int32_min in Hlow. lia.
    + eexists. split; [reflexivity|]. simpl. split; [done|].
      split; [|split; [|split]].
      * intros ->. unfold int32_min in Hhigh. lia.
      * intros ?. rewrite decide_False by (unfold int32_min; lia).
        by rewrite lookup_insert_eq.
      * intros ?. lia.
      * intros ->. rewrite decide_True by done. by rewrite lookup_insert_eq.
  - intros Hp Hn.
    set (s1 := Refs (next st - 1) (<[p := next st]> (refs st))
                    (<[next st := CObj p 1]> (ptrs st))).
    set (s2 := Refs (next st - 1) (<[p := next st]> (refs st))
                    (<[next st := CObj p 2]> (ptrs st))).
    set (s4 := Refs (next st - 1) (delete p (<[p := next st]> (refs st)))
                    (delete (next st) (<[next st := CObj p 1]> (ptrs st)))).
    exists s1, s2, s1, s4.
    assert (E1 : cgopy_incref st p = Ret [] s1) by by apply incref_fresh_eq.
    assert (E2 : cgopy_incref s1 p = Ret [] s2).
    { rewrite (incref_tracked_eq s1 p (next st) p 1); subst s1 s2; simpl.
      - by rewrite insert_insert_eq.
      - by rewrite lookup_insert_eq.
      - by rewrite lookup_insert_eq.
      - unfold int32_min, int32_max. lia. }
    assert (E3 : cgopy_decref s2 p = Ret [] s1).
    { rewrite (decref_tracked_eq s2 p (next st) p 2); subst s1 s2; simpl.
      - by rewrite insert_insert_eq.
      - by rewrite lookup_insert_eq.
      - by rewrite lookup_insert_eq.
      - unfold int32_max. lia. }
    assert (E4 : cgopy_decref s1 p = Ret [] s4).
    { rewrite (decref_tracked_eq s1 p (next st) p 1); subst s1 s4; simpl.
      - done.
      - by rewrite lookup_insert_eq.
      - by rewrite lookup_insert_eq.
      - unfold int32_max. lia. }
    repeat split; try done; subst s1 s2 s4; simpl;
      rewrite ?lookup_insert_eq, ?lookup_delete_eq; try done.
    unfold cgopy_decref. simpl. by rewrite lookup_delete_eq.
Qed.

Lemma cgopy_decref_table_witness :
  cgopy_decref init 1 = Panic "cgopy: decref untracked object" ∧
  ∃ s1 s2 s3 s4,
    cgopy_incref init 1 = Ret [] s1 ∧ cgopy_incref s1 1 = Ret [] s2 ∧
    cgopy_decref s2 1 = Ret [] s3 ∧ cgopy_decref s3 1 = Ret [] s4 ∧
    refs s4 !! 1 = None ∧
    cgopy_decref s4 1 = Panic "cgopy: decref untracked object".
Proof.
  destruct (cgopy_decref_table init 1) as (H1 & _ & H3).
  split; [exact (H1 eq_refl)|].
  destruct (H3 eq_refl ltac:(unfold int32_min; simpl; lia))
    as (s1 & s2 & s3 & s4 & E1 & E2 & _ & E3 & _ & _ & E4 & Hr & _ & E5).
  exists s1, s2, s3, s4. repeat split; assumption.
Defined.

(** C4: along every run of acquires and releases from the initial table,
    the ids handed out form a strictly decreasing sequence (each new id is
    below every earlier one), none occurs twice, and every one is negative
    (at most [-24], and an [int32]). *)
Theorem assigned_ids_strictly_decreasing (ops : list op) :
  StronglySorted (λ a b, b < a) (assigned init ops) ∧
  NoDup (assigned init ops) ∧
  Forall (λ i, int32_min < i ≤ -24 ∧ i < 0) (assigned init ops).
Proof.
  destruct (assigned_below ops init) as [Hall Hs].
  { simpl. unfold int32_min. lia. }
  split; [done|]. split; [by apply decreasing_NoDup|].
  eapply Forall_impl; [exact Hall|]. simpl. intros i Hi. lia.
Qed.

End BridgeFacts.

(** ** Facts about the signature analyzer and the documentation lookup *)
Module BindFacts.
Import Bind.

Section Analyzer.

Context (symtype : GoType → option symbol).
Context (newVarFrom : TVar → Var).

Abbreviation getDoc := (getDoc symtype).
Abbreviation newFuncFrom := (newFuncFrom symtype newVarFrom).
Abbreviation parseFn := (parseFn symtype).

(** *** Monadic steps *)

Lemma bind_Ok {A B} (m : res A) (k : A → res B) (b : B) :
  m ≫= k = Ok b → ∃ a, m = Ok a ∧ k a = Ok b.
Proof. destruct m; simpl; [eauto|done|done]. Qed.

(** *** The documentation lookup *)

Lemma docOfValue_absent n vs :
  (∀ c, c ∈ vs → n ∉ dv_names c) → docOfValue n vs = "".
Proof.
  induction vs as [|c vs IH]; intros H; simpl; [done|].
  rewrite bool_decide_eq_false_2 by (apply H; left).
  apply IH. intros c' Hc'. apply H. by right.
Qed.

Lemma docOfType_absent n ts :
  (∀ t, t ∈ ts → dt_name t ≠ n) → docOfType n ts = "".
Proof.
  induction ts as [|t ts IH]; intros H; simpl; [done|].
  rewrite bool_decide_eq_false_2.
  - apply IH. intros t' Ht'. apply H. by right.
  - intros ->. by apply (H t); [left|].
Qed.

Lemma docOfFunc_absent n fs :
  (∀ m, m ∈ fs → df_name m ≠ n) → docOfFunc n fs = None.
Proof.
  induction fs as [|m fs IH]; intros H; simpl; [done|].
  rewrite bool_decide_eq_false_2 by (apply H; left).
  apply IH. intros m' Hm'. apply H. by right.
Qed.

Lemma docInTypes_absent parent n pn ts :
  (∀ typ m, typ ∈ ts → dt_name typ = parent →
            m ∈ (dt_methods typ ++ dt_funcs typ)%list → df_name m ≠ n) →
  docInTypes parent n pn ts = "".
Proof.
  induction ts as [|typ ts IH]; intros H; simpl; [done|].
  assert (IH' : docInTypes parent n pn ts = "").
  { apply IH. intros typ' m Ht. apply H. by right. }
  case_bool_decide as Hname; [done|].
  rewrite docOfFunc_absent; [done|].
  intros m Hm. apply (H typ m); [by left|done|].
  apply elem_of_app. destruct pn; auto.
Qed.

Lemma parseFn_total tup :
  (∀ v, v ∈ tup → is_Some (symtype (tv_type v))) →
  ∃ l, parseFn tup = Ok l ∧ length l = length tup.
Proof.
  induction tup as [|v tup IH]; intros H; simpl; [by exists []|].
  destruct (H v) as [sym Hsym]; [by left|]. rewrite Hsym.
  destruct IH as (l & -> & Hl); [intros v' Hv'; apply H; by right|].
  simpl. eexists. split; [done|]. simpl. by rewrite Hl.
Qed.

Lemma parseFn_not_Err tup e : parseFn tup ≠ Err e.
Proof.
  induction tup as [|v tup IH]; simpl; [done|].
  destruct (symtype (tv_type v)); [|done].
  destruct (parseFn tup); simpl; done.
Qed.

Lemma getDoc_not_Err d parent o e : getDoc d parent o ≠ Err e.
Proof.
  destruct o as [i t|i t|i s|i t|i dyn]; simpl; try done.
  pose proof (parseFn_not_Err (ts_params s)) as Hp.
  pose proof (parseFn_not_Err (ts_results s)) as Hr.
  destruct (parseFn (ts_params s)) as [ps|e1|]; simpl; [|destruct (Hp e1 eq_refl)|done].
  destruct (parseFn (ts_results s)) as [rs|e1|]; simpl; [|destruct (Hr e1 eq_refl)|done].
  by case_bool_decide.
Qed.

Lemma append_nonempty (a b : string) : a ≠ "" → a +:+ b ≠ "".
Proof. destruct a; [done|]. simpl. done. Qed.

Lemma append_nonempty_r (a b : string) : b ≠ "" → a +:+ b ≠ "".
Proof. destruct a; simpl; done. Qed.

(** *** The result-arity switch *)

(** The generated identifier is a function of the package name, the owning
    scope and the name alone. *)
Lemma newFuncFrom_id d parent obj sig f :
  newFuncFrom d parent obj sig = Ok f →
  f_id f = if bool_decide (parent ≠ "")
           then o_pkg_name (info obj) +:+ "_" +:+ parent +:+ "_"
                +:+ o_name (info obj)
           else o_pkg_name (info obj) +:+ "_" +:+ o_name (info obj).
Proof.
  unfold Bind.newFuncFrom. intros H.
  apply bind_Ok in H as ([haserr ret] & _ & H).
  destruct (o_pkg_nil (info obj)); [done|].
  apply bind_Ok in H as (doc & _ & H). by injection H as <-.
Qed.



Lemma newFuncFrom_inv d parent obj sig f :
  newFuncFrom d parent obj sig = Ok f →
  ∃ doc, resultArity obj (ts_results sig) = Ok (f_err f, f_ret f) ∧
         getDoc d parent obj = Ok doc ∧
         f_doc f = doc ∧ f_ctor f = false ∧
         f_name f = o_name (info obj) ∧
         f_sig f = newSignatureFrom newVarFrom sig.
Proof.
  unfold Bind.newFuncFrom. intros H.
  apply bind_Ok in H as ([haserr ret] & Ha & H).
  destruct (o_pkg_nil (info obj)); [done|].
  apply bind_Ok in H as (doc & Hd & H).
  injection H as <-. simpl. exists doc. by rewrite Ha.
Qed.

(** A [Func] is built only for an object that has a package. *)
Lemma newFuncFrom_pkg d parent obj sig f :
  newFuncFrom d parent obj sig = Ok f → o_pkg_nil (info obj) = false.
Proof.
  unfold Bind.newFuncFrom. intros H.
  apply bind_Ok in H as ([haserr ret] & _ & H).
  by destruct (o_pkg_nil (info obj)).
Qed.


(** The one list the [*types.Func] case reads has no entry. *)
Lemma docInTypes_absent_one parent n (pn : bool) ts :
  (∀ typ m, typ ∈ ts → dt_name typ = parent →
            m ∈ (if pn then dt_methods typ else dt_funcs typ) →
            df_name m ≠ n) →
  docInTypes parent n pn ts = "".
Proof.
  induction ts as [|typ ts IH]; intros H; simpl; [done|].
  assert (IH' : docInTypes parent n pn ts = "").
  { apply IH. intros typ' m Ht. apply H. by right. }
  case_bool_decide as Hname; [done|].
  rewrite docOfFunc_absent; [done|].
  intros m Hm. apply (H typ m); [by left|done|done].
Qed.


(** C6 (amended): a [Func] built with the error flag keeps every raw
    result in its signature's result list, the error result included and
    last: the list has one entry (the error) or two (value, error).  What
    is kept apart is the return type: none for an error-only callable, the
    first result's type otherwise. *)
Theorem newFuncFrom_err_results d parent obj sig f :
  newFuncFrom d parent obj sig = Ok f →
  f_err f = true →
  sg_ret (f_sig f) = newVarsFrom newVarFrom (ts_results sig) ∧
  ((∃ r0, ts_results sig = [r0] ∧ isErrorType (tv_type r0) = true ∧
          sg_ret (f_sig f) = [newVarFrom r0] ∧ f_ret f = None) ∨
   (∃ r0 r1, ts_results sig = [r0; r1] ∧ isErrorType (tv_type r1) = true ∧
             sg_ret (f_sig f) = [newVarFrom r0; newVarFrom r1] ∧
             f_ret f = Some (tv_type r0))).
Proof.
  intros Hf He.
  destruct (newFuncFrom_inv _ _ _ _ _ Hf) as (doc & Ha & _ & _ & _ & _ & Hs).
  rewrite He in Ha. rewrite Hs. simpl. split; [done|].
  destruct (ts_results sig) as [|r0 [|r1 [|r2 rs]]]; simpl in Ha; try done.
  - left. exists r0. destruct (isErrorType (tv_type r0)); [|done].
    injection Ha as <-. done.
  - right. exists r0, r1. destruct (isErrorType (tv_type r1)); [|done].
    simpl in Ha. injection Ha as <-. done.
Qed.

(** C9 (amended): the documentation lookup never returns an error.  With
    no matching entry in the index it yields the empty string for a
    constant, a variable and a type; for a function or a method whose
    parameter and result types all have symbols it yields the rendered
    signature [name(params) results], which is never empty.  For a
    function or method, no matching entry means none in the one list the
    lookup reads: the methods of the types named after the owning scope
    for a method, the functions of those types for a package-level
    function looked up under an owning scope, and the functions of the
    package otherwise. *)
Theorem getDoc_absent d parent o :
  (∀ e, getDoc d parent o ≠ Err e) ∧
  match o with
  | OConst i _ =>
      (∀ c, c ∈ dp_consts d → o_name i ∉ dv_names c) →
      getDoc d parent o = Ok ""
  | OVar i _ =>
      (∀ c, c ∈ dp_vars d → o_name i ∉ dv_names c) →
      getDoc d parent o = Ok ""
  | OTypeName i _ =>
      (∀ t, t ∈ dp_types d → dt_name t ≠ o_name i) →
      getDoc d parent o = Ok ""
  | OFunc i sig =>
      (if o_parent_nil i
       then ∀ typ m, typ ∈ dp_types d → dt_name typ = parent →
                     m ∈ dt_methods typ → df_name m ≠ o_name i
       else if bool_decide (parent ≠ "")
       then ∀ typ m, typ ∈ dp_types d → dt_name typ = parent →
                     m ∈ dt_funcs typ → df_name m ≠ o_name i
       else ∀ m, m ∈ dp_funcs d → df_name m ≠ o_name i) →
      (∀ v, v ∈ (ts_params sig ++ ts_results sig)%list →
            is_Some (symtype (tv_type v))) →
      ∃ params results,
        parseFn (ts_params sig) = Ok params ∧
        parseFn (ts_results sig) = Ok results ∧
        getDoc d parent o
        = Ok (o_name i +:+ "(" +:+ join ", " params +:+ ") "
              +:+ join ", " results) ∧
        getDoc d parent o ≠ Ok ""
  | OOther i dyn => getDoc d parent o = Panic (not_supported i dyn)
  end.
Proof.
  split; [intros e; apply getDoc_not_Err|].
  destruct o as [i t|i t|i sig|i t|i dyn]; simpl.
  - intros H. by rewrite docOfValue_absent.
  - intros H. by rewrite docOfValue_absent.
  - intros Hno Hs.
    destruct (parseFn_total (ts_params sig)) as (params & -> & _).
    { intros v Hv. apply Hs, elem_of_app. by left. }
    destruct (parseFn_total (ts_results sig)) as (results & -> & _).
    { intros v Hv. apply Hs, elem_of_app. by right. }
    exists params, results. simpl.
    assert (Hdoc : funcDoc d parent i = "").
    { unfold funcDoc. destruct (o_parent_nil i); simpl.
      - by apply docInTypes_absent_one.
      - destruct (bool_decide (parent ≠ "")).
        + by apply docInTypes_absent_one.
        + by rewrite docOfFunc_absent. }
    rewrite Hdoc. rewrite bool_decide_eq_false_2 by (intros H; by apply H).
    repeat split. intros [= H]. revert H.
    apply append_nonempty_r, append_nonempty. done.
  - intros H. by rewrite docOfType_absent.
  - done.
Qed.

End Analyzer.



(** C6 (as stated, refuted): for [NewFoo() (Foo, error)] the signature's
    result list of the [Func] has two entries, and the second is the
    error result. *)
Lemma NewFoo_results_keep_error :
  ∃ f r0 r1,
    Bind.newFuncFrom Demo.symtype Demo.newVarFrom Demo.foo_doc ""
      (OFunc Demo.NewFoo_obj Demo.NewFoo_sig) Demo.NewFoo_sig = Ok f ∧
    f_err f = true ∧
    sg_ret (f_sig f) = [r0; r1] ∧
    isErrorType (s_gotyp (v_sym r1)) = true.
Proof. eexists _, _, _. repeat split. Qed.

Lemma newFuncFrom_err_results_witness :
  ∃ f, Bind.newFuncFrom Demo.symtype Demo.newVarFrom Demo.foo_doc ""
         (OFunc Demo.NewFoo_obj Demo.NewFoo_sig) Demo.NewFoo_sig = Ok f ∧
       sg_ret (f_sig f)
       = [Demo.newVarFrom (MkTVar "" Demo.Foo); Demo.newVarFrom (MkTVar "" TError)] ∧
       f_ret f = Some Demo.Foo.
Proof.
  eexists. split; [reflexivity|].
  destruct (newFuncFrom_err_results Demo.symtype Demo.newVarFrom Demo.foo_doc ""
              (OFunc Demo.NewFoo_obj Demo.NewFoo_sig) Demo.NewFoo_sig _
              eq_refl eq_refl) as [H _].
  split; [exact H | reflexivity].
Defined.

(** C9 (as stated, refuted): with an empty documentation index, the lookup
    for [func Hello()] yields its signature line, not the empty string. *)
Lemma getDoc_func_absent_not_empty :
  Bind.getDoc Demo.symtype Demo.no_doc "" (OFunc Demo.Hello_obj (MkTSig None [] []))
  = Ok "Hello() " ∧
  Bind.getDoc Demo.symtype Demo.no_doc "" (OFunc Demo.Hello_obj (MkTSig None [] []))
  ≠ Ok "".
Proof. split; [reflexivity|discriminate]. Qed.

Lemma getDoc_absent_witness :
  Bind.getDoc Demo.symtype Demo.no_doc ""
    (OConst Demo.Pi_obj (TBasic "float64")) = Ok "".
Proof.
  destruct (getDoc_absent Demo.symtype Demo.no_doc ""
              (OConst Demo.Pi_obj (TBasic "float64")))
    as [_ H].
  apply H. intros c Hc. simpl in Hc. by apply elem_of_nil in Hc.
Defined.

End BindFacts.

(** ** More on the analyzer: identifiers and documentation that is found *)
Module AnalyzerFacts.
Import Bind BindFacts.

(** *** Cancellation for string concatenation *)

Lemma append_inv_head (a x y : string) : a +:+ x = a +:+ y → x = y.
Proof. induction a as [|c a IH]; simpl; [done|]. intros [= H]. by apply IH. Qed.

Lemma list_ascii_append (x b : string) :
  String.list_ascii_of_string (x +:+ b)
  = (String.list_ascii_of_string x ++ String.list_ascii_of_string b)%list.
Proof. induction x as [|c x IH]; simpl; [done|]. by rewrite IH. Qed.

Lemma append_inv_tail (x y b : string) : x +:+ b = y +:+ b → x = y.
Proof.
  intros H. apply (f_equal String.list_ascii_of_string) in H.
  rewrite !list_ascii_append in H. apply app_inv_tail in H.
  apply (f_equal String.string_of_list_ascii) in H.
  by rewrite !String.string_of_list_ascii_of_string in H.
Qed.

Section Analyzer.

Context (symtype : GoType → option symbol).
Context (newVarFrom : TVar → Var).

Abbreviation getDoc := (Bind.getDoc symtype).
Abbreviation newFuncFrom := (Bind.newFuncFrom symtype newVarFrom).
Abbreviation parseFn := (Bind.parseFn symtype).

Lemma docOfValue_first n vs1 c vs2 :
  (∀ c', c' ∈ vs1 → n ∉ dv_names c') → n ∈ dv_names c →
  docOfValue n (vs1 ++ c :: vs2) = dv_doc c.
Proof.
  induction vs1 as [|c0 vs1 IH]; intros Hno Hin; simpl.
  - by rewrite bool_decide_eq_true_2.
  - rewrite bool_decide_eq_false_2 by (apply Hno; left).
    apply IH; [|done]. intros c' Hc'. apply Hno. by right.
Qed.

Lemma docOfType_first n ts1 t ts2 :
  (∀ t', t' ∈ ts1 → dt_name t' ≠ n) → dt_name t = n →
  docOfType n (ts1 ++ t :: ts2) = dt_doc t.
Proof.
  induction ts1 as [|t0 ts1 IH]; intros Hno Hin; simpl.
  - by rewrite bool_decide_eq_true_2.
  - rewrite bool_decide_eq_false_2.
    + apply IH; [|done]. intros t' Ht'. apply Hno. by right.
    + intros Heq. by apply (Hno t0); [left|].
Qed.

Lemma docOfFunc_first n fs1 m fs2 :
  (∀ m', m' ∈ fs1 → df_name m' ≠ n) → df_name m = n →
  docOfFunc n (fs1 ++ m :: fs2) = Some (df_doc m).
Proof.
  induction fs1 as [|m0 fs1 IH]; intros Hno Hin; simpl.
  - by rewrite bool_decide_eq_true_2.
  - rewrite bool_decide_eq_false_2 by (apply Hno; left).
    apply IH; [|done]. intros m' Hm'. apply Hno. by right.
Qed.

(** X15: generated identifiers tell callables of one package apart by
    owning scope and by name.  Two [Func]s the analyzer builds for objects
    of the same package get different identifiers when they have the same
    owning scope and different names, and when they have the same name
    and different owning type names. *)
Theorem newFuncFrom_ids_distinct d p1 p2 o1 o2 s1 s2 f1 f2 :
  newFuncFrom d p1 o1 s1 = Ok f1 →
  newFuncFrom d p2 o2 s2 = Ok f2 →
  o_pkg_name (info o1) = o_pkg_name (info o2) →
  (p1 = p2 ∧ o_name (info o1) ≠ o_name (info o2)) ∨
  (o_name (info o1) = o_name (info o2) ∧ p1 ≠ "" ∧ p2 ≠ "" ∧ p1 ≠ p2) →
  f_id f1 ≠ f_id f2.
Proof.
  intros H1 H2 Hpkg Hcase Heq.
  rewrite (newFuncFrom_id _ _ _ _ _ _ _ H1),
          (newFuncFrom_id _ _ _ _ _ _ _ H2), Hpkg in Heq.
  destruct Hcase as [[<- Hne]|(Hn & Hp1 & Hp2 & Hne)].
  - apply Hne. case_bool_decide.
    + by do 4 apply append_inv_head in Heq.
    + by do 2 apply append_inv_head in Heq.
  - rewrite !bool_decide_eq_true_2 in Heq by done. rewrite Hn in Heq.
    do 2 apply append_inv_head in Heq.
    by apply append_inv_tail in Heq.
Qed.

(** X16: the identifier scheme is not injective across scopes.  A method
    [m] of a type [T] and a package-level function named [T_m] of the same
    package get the same identifier. *)
Theorem newFuncFrom_id_collision d T o1 o2 s1 s2 f1 f2 :
  newFuncFrom d T o1 s1 = Ok f1 →
  newFuncFrom d "" o2 s2 = Ok f2 →
  T ≠ "" →
  o_pkg_name (info o1) = o_pkg_name (info o2) →
  o_name (info o2) = T +:+ "_" +:+ o_name (info o1) →
  f_id f1 = f_id f2.
Proof.
  intros H1 H2 HT Hpkg Hname.
  rewrite (newFuncFrom_id _ _ _ _ _ _ _ H1),
          (newFuncFrom_id _ _ _ _ _ _ _ H2), Hpkg, Hname.
  rewrite bool_decide_eq_true_2 by done.
  rewrite bool_decide_eq_false_2; [done|]. intros H. by apply H.
Qed.

(** X17: the documentation lookup returns the first match.  For a
    constant or a variable it is the text of the first group of the index
    that lists the name, for a type the text of the first entry of that
    name; for a package-level function looked up without an owning type
    it is the signature line, followed by a blank line and the text of the
    first entry of that name when that text is not empty.  Later entries
    of the same name are never read. *)
Theorem getDoc_first_match d o :
  match o with
  | OConst i _ =>
      ∀ vs1 c vs2, dp_consts d = (vs1 ++ c :: vs2)%list →
        (∀ c', c' ∈ vs1 → o_name i ∉ dv_names c') → o_name i ∈ dv_names c →
        getDoc d "" o = Ok (dv_doc c)
  | OVar i _ =>
      ∀ vs1 c vs2, dp_vars d = (vs1 ++ c :: vs2)%list →
        (∀ c', c' ∈ vs1 → o_name i ∉ dv_names c') → o_name i ∈ dv_names c →
        getDoc d "" o = Ok (dv_doc c)
  | OTypeName i _ =>
      ∀ ts1 t ts2, dp_types d = (ts1 ++ t :: ts2)%list →
        (∀ t', t' ∈ ts1 → dt_name t' ≠ o_name i) → dt_name t = o_name i →
        getDoc d "" o = Ok (dt_doc t)
  | OFunc i sig =>
      ∀ fs1 m fs2 params results, dp_funcs d = (fs1 ++ m :: fs2)%list →
        (∀ m', m' ∈ fs1 → df_name m' ≠ o_name i) → df_name m = o_name i →
        o_parent_nil i = false →
        parseFn (ts_params sig) = Ok params →
        parseFn (ts_results sig) = Ok results →
        let docSig := o_name i +:+ "(" +:+ join ", " params +:+ ") "
                      +:+ join ", " results in
        getDoc d "" o
        = Ok (if bool_decide (df_doc m ≠ "")
              then docSig +:+ nl +:+ nl +:+ df_doc m else docSig)
  | OOther _ _ => True
  end.
Proof.
  destruct o as [i t|i t|i sig|i t|i dyn]; simpl; [| | | |done].
  - intros vs1 c vs2 -> Hno Hin. by rewrite docOfValue_first.
  - intros vs1 c vs2 -> Hno Hin. by rewrite docOfValue_first.
  - intros fs1 m fs2 params results Hd Hno Hm Hpn -> ->. simpl.
    unfold funcDoc. rewrite Hpn, Hd. simpl.
    rewrite docOfFunc_first by done. simpl.
    by case_bool_decide.
  - intros ts1 t0 ts2 -> Hno Hin. by rewrite docOfType_first.
Qed.

End Analyzer.

Lemma newFuncFrom_ids_distinct_witness :
  ∃ f1 f2,
    Bind.newFuncFrom Demo.symtype Demo.newVarFrom Demo.foo_doc "Foo"
      (OFunc Zoo.String_obj Zoo.String_sig) Zoo.String_sig = Ok f1 ∧
    Bind.newFuncFrom Demo.symtype Demo.newVarFrom Demo.foo_doc "Bar"
      (OFunc Zoo.String_obj Zoo.String_sig) Zoo.String_sig = Ok f2 ∧
    f_id f1 = "foo_Foo_String" ∧ f_id f2 = "foo_Bar_String" ∧
    f_id f1 ≠ f_id f2.
Proof.
  eexists _, _. split; [reflexivity|]. split; [reflexivity|].
  split; [reflexivity|]. split; [reflexivity|].
  apply (newFuncFrom_ids_distinct Demo.symtype Demo.newVarFrom Demo.foo_doc
           "Foo" "Bar" (OFunc Zoo.String_obj Zoo.String_sig)
           (OFunc Zoo.String_obj Zoo.String_sig) Zoo.String_sig Zoo.String_sig
           _ _ eq_refl eq_refl eq_refl).
  right. split; [reflexivity|]. split; [discriminate|].
  split; discriminate.
Defined.

Lemma newFuncFrom_id_collision_witness :
  ∃ f1 f2,
    Bind.newFuncFrom Demo.symtype Demo.newVarFrom Demo.foo_doc "Foo"
      (OFunc Zoo.String_obj Zoo.String_sig) Zoo.String_sig = Ok f1 ∧
    Bind.newFuncFrom Demo.symtype Demo.newVarFrom Demo.foo_doc ""
      (OFunc Zoo.Foo_String_obj Zoo.Hello_sig) Zoo.Hello_sig = Ok f2 ∧
    f_name f1 = "String" ∧ f_name f2 = "Foo_String" ∧
    f_id f1 = f_id f2.
Proof.
  eexists _, _. split; [reflexivity|]. split; [reflexivity|].
  split; [reflexivity|]. split; [reflexivity|].
  apply (newFuncFrom_id_collision Demo.symtype Demo.newVarFrom Demo.foo_doc
           "Foo" (OFunc Zoo.String_obj Zoo.String_sig)
           (OFunc Zoo.Foo_String_obj Zoo.Hello_sig)
           Zoo.String_sig Zoo.Hello_sig _ _ eq_refl eq_refl).
  - discriminate.
  - reflexivity.
  - reflexivity.
Defined.

Lemma getDoc_first_match_witness :
  Bind.getDoc Demo.symtype Zoo.two_docs ""
    (OConst Demo.Pi_obj (TBasic "float64")) = Ok "Mathematical constants.".
Proof.
  apply (getDoc_first_match Demo.symtype Zoo.two_docs
           (OConst Demo.Pi_obj (TBasic "float64"))
           [] (MkDocValue ["E"; "Pi"] "Mathematical constants.")
           [MkDocValue ["Pi"] "Pi again."] eq_refl).
  - intros c' Hc'. by apply elem_of_nil in Hc'.
  - cbn. right. left.
Defined.

End AnalyzerFacts.

(** ** Facts about [Package.process] *)
Module ProcessFacts.
Import Bind BindFacts.

Section Process.

Context (symtype : GoType → option symbol).
Context (universe_string : symbol).
Context (newVarFrom : TVar → Var).
Context (newVar : GoType → string → string → string → Var).
Context (isStringer : Object → bool).
Context (named_syms : list (symbol * list Object)).
Context (method_sym : Object → option symbol).

Abbreviation getDoc := (Bind.getDoc symtype).
Abbreviation newFuncFrom := (Bind.newFuncFrom symtype newVarFrom).
Abbreviation newType := (Bind.newType symtype universe_string newVar).
Abbreviation classify :=
  (Bind.classify symtype universe_string newVarFrom newVar).
Abbreviation ctor_step := (Bind.ctor_step symtype).
Abbreviation meth_step := (Bind.meth_step symtype newVarFrom isStringer).
Abbreviation type_round := (Bind.type_round symtype newVarFrom isStringer).
Abbreviation process :=
  (Bind.process symtype universe_string newVarFrom newVar isStringer
                named_syms method_sym).
Abbreviation NewPackage :=
  (Bind.NewPackage symtype universe_string newVarFrom newVar isStringer
                   named_syms method_sym).

(** *** Ranges and lookups *)

Lemma elem_of_range_map {V} (ord : list string) (m : gmap string V) k v :
  (k, v) ∈ range_map ord m ↔ k ∈ ord ∧ m !! k = Some v.
Proof.
  unfold range_map. rewrite list_elem_of_omap. split.
  - intros (k' & Hk' & H). destruct (m !! k') as [v'|] eqn:E; [|done].
    simpl in H. injection H as <- <-. done.
  - intros [Hk Hv]. exists k. by rewrite Hv.
Qed.

Lemma scope_lookup_unique l o :
  NoDup (names l) → o ∈ l →
  List.find (λ o', bool_decide (o_name (info o') = o_name (info o))) l = Some o.
Proof.
  induction l as [|o' l IH]; intros Hnd Ho; [by apply elem_of_nil in Ho|].
  simpl in Hnd. apply NoDup_cons in Hnd as [Hnotin Hnd]. simpl.
  apply elem_of_cons in Ho as [->|Ho].
  - by rewrite bool_decide_eq_true_2.
  - rewrite bool_decide_eq_false_2; [by apply IH|].
    intros Heq. apply Hnotin. rewrite Heq.
    unfold names. apply list_elem_of_fmap. by exists o.
Qed.

(** *** The second pass: what [funcs] and [typs] hold *)

Lemma classify_inv st obj st' :
  classify st obj = Ok st' →
  same_core (cl_pkg st) (cl_pkg st') ∧
  (if o_exported (info obj) then
     match obj with
     | OFunc i s =>
         ∃ f, newFuncFrom (p_doc (cl_pkg st)) "" obj s = Ok f ∧
              cl_funcs st' = <[o_name i := f]> (cl_funcs st) ∧
              cl_typs st' = cl_typs st
     | OTypeName i t =>
         ∃ ty, newType (p_doc (cl_pkg st)) i t = Ok ty ∧
               cl_typs st' = <[o_name i := ty]> (cl_typs st) ∧
               cl_funcs st' = cl_funcs st
     | _ => cl_funcs st' = cl_funcs st ∧ cl_typs st' = cl_typs st
     end
   else st' = st).
Proof.
  unfold Bind.classify, same_core.
  destruct (o_exported (info obj)) eqn:E; simpl; [|by intros [= <-]].
  destruct obj as [i t|i t|i s|i t|i dyn]; simpl.
  - unfold Bind.addConst, Bind.newConst.
    destruct (o_pkg_nil i); simpl; [done|]. intros [= <-]. simpl. done.
  - intros [= <-]. simpl. done.
  - intros H. apply bind_Ok in H as (f & Hf & [= <-]). simpl.
    repeat split; eauto.
  - intros H. apply bind_Ok in H as (ty & Hty & [= <-]). simpl.
    repeat split; eauto.
  - done.
Qed.

Lemma classify_fold l : ∀ st st',
  NoDup (names l) →
  foldM classify st l = Ok st' →
  let d := p_doc (cl_pkg st) in
  same_core (cl_pkg st) (cl_pkg st') ∧
  (∀ k, k ∉ names l →
        cl_funcs st' !! k = cl_funcs st !! k ∧
        cl_typs st' !! k = cl_typs st !! k) ∧
  (∀ i s, OFunc i s ∈ l → o_exported i = true →
     ∃ f, newFuncFrom d "" (OFunc i s) s = Ok f ∧
          cl_funcs st' !! o_name i = Some f) ∧
  (∀ i t, OTypeName i t ∈ l → o_exported i = true →
     ∃ ty, newType d i t = Ok ty ∧ cl_typs st' !! o_name i = Some ty) ∧
  (∀ k f, cl_funcs st' !! k = Some f →
     cl_funcs st !! k = Some f ∨
     ∃ i s, OFunc i s ∈ l ∧ o_exported i = true ∧ o_name i = k ∧
            newFuncFrom d "" (OFunc i s) s = Ok f) ∧
  (∀ k ty, cl_typs st' !! k = Some ty →
     cl_typs st !! k = Some ty ∨
     ∃ i t, OTypeName i t ∈ l ∧ o_exported i = true ∧ o_name i = k ∧
            newType d i t = Ok ty).
Proof.
  induction l as [|o l IH]; intros st st' Hnd H d.
  - simpl in H. injection H as <-. unfold same_core.
    repeat split; try done.
    + intros i s Hin. by apply elem_of_nil in Hin.
    + intros i t Hin. by apply elem_of_nil in Hin.
    + by left.
    + by left.
  - simpl in H. apply bind_Ok in H as (st1 & H1 & H).
    simpl in Hnd. apply NoDup_cons in Hnd as [Hnotin Hnd].
    destruct (classify_inv _ _ _ H1) as [Hcore1 Hobj].
    destruct (IH st1 st' Hnd H) as (Hcore & Hkeep & Hf & Ht & Hfs & Hts).
    assert (Hd : p_doc (cl_pkg st1) = d) by apply Hcore1.
    rewrite Hd in Hf, Ht, Hfs, Hts.
    assert (Hst1 : ∀ k, k ≠ o_name (info o) →
              cl_funcs st1 !! k = cl_funcs st !! k ∧
              cl_typs st1 !! k = cl_typs st !! k).
    { intros k Hk. destruct (o_exported (info o)); [|by subst st1].
      destruct o as [i t|i t|i s|i t|i dyn]; simpl in *.
      - by destruct Hobj as [-> ->].
      - by destruct Hobj as [-> ->].
      - destruct Hobj as (f & _ & -> & ->). by rewrite lookup_insert_ne.
      - destruct Hobj as (f & _ & -> & ->). by rewrite lookup_insert_ne.
      - by destruct Hobj as [-> ->]. }
    split; [|split; [|split; [|split; [|split]]]].
    + unfold same_core in *. destruct Hcore1 as (?&?&?&?).
      destruct Hcore as (?&?&?&?). repeat split; congruence.
    + intros k Hk. simpl in Hk. apply not_elem_of_cons in Hk as [Hne Hk].
      destruct (Hkeep k Hk) as [-> ->]. by apply Hst1.
    + intros i s Hin Hex. apply elem_of_cons in Hin as [<-|Hin]; [|eauto].
      simpl in Hobj. rewrite Hex in Hobj.
      destruct Hobj as (f & Hnf & Hfu & _). exists f. split; [done|].
      destruct (Hkeep (o_name i)) as [-> _]; [done|].
      by rewrite Hfu, lookup_insert_eq.
    + intros i t Hin Hex. apply elem_of_cons in Hin as [<-|Hin]; [|eauto].
      simpl in Hobj. rewrite Hex in Hobj.
      destruct Hobj as (ty & Hnt & Hty & _). exists ty. split; [done|].
      destruct (Hkeep (o_name i)) as [_ ->]; [done|].
      by rewrite Hty, lookup_insert_eq.
    + intros k f Hk. destruct (Hfs k f Hk) as [Hk1|(i & s & Hin & ?)].
      * destruct (decide (k = o_name (info o))) as [->|Hne].
        -- destruct (o_exported (info o)) eqn:Hex; [|left; by subst st1].
           destruct o as [i t|i t|i s|i t|i dyn]; simpl in *.
           ++ left. destruct Hobj as [<- _]. done.
           ++ left. destruct Hobj as [<- _]. done.
           ++ right. destruct Hobj as (f' & Hnf & Hfu & _).
              rewrite Hfu, lookup_insert_eq in Hk1. injection Hk1 as ->.
              exists i, s. repeat split; try done. by left.
           ++ left. destruct Hobj as (f' & _ & _ & <-). done.
           ++ left. destruct Hobj as [<- _]. done.
        -- left. by destruct (Hst1 k Hne) as [<- _].
      * right. exists i, s. split; [by right|done].
    + intros k ty Hk. destruct (Hts k ty Hk) as [Hk1|(i & t & Hin & ?)].
      * destruct (decide (k = o_name (info o))) as [->|Hne].
        -- destruct (o_exported (info o)) eqn:Hex; [|left; by subst st1].
           destruct o as [i t|i t|i s|i t|i dyn]; simpl in *.
           ++ left. destruct Hobj as [_ <-]. done.
           ++ left. destruct Hobj as [_ <-]. done.
           ++ left. destruct Hobj as (f' & _ & _ & <-). done.
           ++ right. destruct Hobj as (ty' & Hnt & Hty & _).
              rewrite Hty, lookup_insert_eq in Hk1. injection Hk1 as ->.
              exists i, t. repeat split; try done. by left.
           ++ left. destruct Hobj as [_ <-]. done.
        -- left. by destruct (Hst1 k Hne) as [_ <-].
      * right. exists i, t. split; [by right|done].
Qed.

Lemma newType_inv d i t ty :
  newType d i t = Ok ty →
  t_obj ty = i ∧ t_ctors ty = [] ∧ t_meths ty = [] ∧
  ∃ sym0, symtype t = Some sym0 ∧ Type_GoType ty = s_gotyp sym0.
Proof.
  unfold Bind.newType. destruct (symtype t) as [sym0|]; [|done].
  intros H. apply bind_Ok in H as (doc & _ & [= <-]). simpl.
  repeat split. by exists sym0.
Qed.

(** *** The third pass: promotion *)

Lemma ctor_step_inv d tp tname t funcs k fct t1 funcs1 :
  ctor_step d tp tname (t, funcs) (k, fct) = Ok (t1, funcs1) →
  (f_ret fct ≠ Some (Type_GoType t) ∧ t1 = t ∧ funcs1 = funcs) ∨
  (f_ret fct = Some (Type_GoType t) ∧
   ∃ o doc, scope_lookup tp k = Some o ∧ getDoc d tname o = Ok doc ∧
            t1 = with_ctors t (t_ctors t ++ [as_ctor fct doc]) ∧
            funcs1 = delete k funcs).
Proof.
  unfold Bind.ctor_step. destruct (f_ret fct) as [r|]; [|intros [= <- <-]; by left].
  case_bool_decide as Hr; [|intros [= <- <-]; left; split; [congruence|done]].
  destruct (scope_lookup tp k) as [o|]; [|done].
  intros H. apply bind_Ok in H as (doc & Hdoc & [= <- <-]).
  right. split; [by rewrite Hr|]. by exists o, doc.
Qed.

Lemma ctor_fold d tp tname l : ∀ t funcs t' funcs',
  foldM (ctor_step d tp tname) (t, funcs) l = Ok (t', funcs') →
  t_sym t' = t_sym t ∧ t_obj t' = t_obj t ∧
  (∀ c, c ∈ t_ctors t → c ∈ t_ctors t') ∧
  (∀ k, funcs' !! k = funcs !! k ∨
        (funcs' !! k = None ∧
         ∃ fct, (k, fct) ∈ l ∧ f_ret fct = Some (Type_GoType t))) ∧
  (∀ k fct, (k, fct) ∈ l → f_ret fct = Some (Type_GoType t) →
     funcs' !! k = None ∧
     ∃ o doc, scope_lookup tp k = Some o ∧ getDoc d tname o = Ok doc ∧
              as_ctor fct doc ∈ t_ctors t').
Proof.
  induction l as [|[k0 fct0] l IH]; intros t funcs t' funcs' H.
  - simpl in H. injection H as <- <-. repeat split; try done.
    + by left.
    + by apply elem_of_nil in H.
    + by apply elem_of_nil in H.
  - simpl in H. apply bind_Ok in H as ([t1 funcs1] & H1 & H).
    destruct (IH _ _ _ _ H) as (Hsym & Hobj & Hc & Hdel & Hpro).
    apply ctor_step_inv in H1
      as [(Hne & -> & ->)|(Heq & o & doc & Ho & Hdoc & -> & ->)].
    + split; [done|]. split; [done|]. split; [done|]. split.
      * intros k. destruct (Hdel k) as [?|(? & fct & ? & ?)]; [by left|].
        right. split; [done|]. exists fct. split; [by right|done].
      * intros k fct Hin Hret. apply elem_of_cons in Hin as [[= -> ->]|Hin];
          [done|]. by apply Hpro.
    + assert (Hty : Type_GoType (with_ctors t (t_ctors t ++ [as_ctor fct0 doc]))
                    = Type_GoType t) by done.
      rewrite Hty in Hdel, Hpro. simpl in Hsym, Hobj, Hc.
      assert (Hk0 : funcs' !! k0 = None).
      { destruct (Hdel k0) as [->|[? _]]; [|done]. apply lookup_delete_eq. }
      split; [done|]. split; [done|]. split; [|split].
      * intros c Hin. apply Hc, elem_of_app. by left.
      * intros k. destruct (decide (k = k0)) as [->|Hne].
        -- right. split; [done|]. exists fct0. split; [by left|done].
        -- destruct (Hdel k) as [Hk|(? & fct & ? & ?)].
           ++ left. by rewrite Hk, lookup_delete_ne.
           ++ right. split; [done|]. exists fct. split; [by right|done].
      * intros k fct Hin Hret. apply elem_of_cons in Hin as [[= -> ->]|Hin];
          [|by apply Hpro].
        split; [done|]. exists o, doc. repeat split; try done.
        apply Hc, elem_of_app. right. by apply list_elem_of_singleton.
Qed.

Lemma meth_fold d tname ms : ∀ t t',
  foldM (meth_step d tname) t ms = Ok t' →
  t_sym t' = t_sym t ∧ t_obj t' = t_obj t ∧ t_ctors t' = t_ctors t.
Proof.
  induction ms as [|[mobj msig] ms IH]; intros t t' H.
  - simpl in H. by injection H as <-.
  - simpl in H. apply bind_Ok in H as (t1 & H1 & H).
    destruct (IH _ _ H) as (-> & -> & ->).
    unfold Bind.meth_step in H1.
    destruct (negb (o_exported (info mobj))); [by injection H1 as <-|].
    apply bind_Ok in H1 as (f & _ & [= <-]).
    by destruct (isStringer mobj).
Qed.

Lemma type_round_inv d tp ords p funcs tname t p' funcs' :
  type_round d tp ords (p, funcs) (tname, t) = Ok (p', funcs') →
  (∀ k, is_Some (funcs !! k) → k ∈ ord_ctors ords tname) →
  ∃ t2, p_types p' = (p_types p ++ [t2])%list ∧ p_funcs p' = p_funcs p ∧
        t_sym t2 = t_sym t ∧ t_obj t2 = t_obj t ∧
        (∀ k, funcs !! k = None → funcs' !! k = None) ∧
        (∀ k fct, funcs !! k = Some fct →
           if decide (f_ret fct = Some (Type_GoType t)) then
             funcs' !! k = None ∧
             ∃ o doc, scope_lookup tp k = Some o ∧
                      getDoc d tname o = Ok doc ∧
                      as_ctor fct doc ∈ t_ctors t2
           else funcs' !! k = Some fct).
Proof.
  unfold Bind.type_round. intros H Hord.
  apply bind_Ok in H as ([t1 funcs1] & Hc & H).
  apply bind_Ok in H as (t2 & Hm & [= <- <-]).
  destruct (ctor_fold _ _ _ _ _ _ _ _ Hc) as (Hsym & Hobj & _ & Hdel & Hpro).
  destruct (meth_fold _ _ _ _ _ Hm) as (Hsym2 & Hobj2 & Hct2).
  exists t2. simpl. split; [done|]. split; [done|].
  split; [congruence|]. split; [congruence|]. split.
  - intros k Hk. destruct (Hdel k) as [->|[? _]]; done.
  - intros k fct Hk. destruct (decide _) as [Hret|Hret].
    + rewrite Hct2. apply Hpro; [|done].
      apply elem_of_range_map. split; [|done]. apply Hord. by rewrite Hk.
    + destruct (Hdel k) as [->|(_ & fct' & Hin & Hret')]; [done|].
      apply elem_of_range_map in Hin as [_ Hin]. congruence.
Qed.

Lemma rounds_inv d tp ords L : ∀ p funcs p' funcs',
  foldM (type_round d tp ords) (p, funcs) L = Ok (p', funcs') →
  (∀ tname k, is_Some (funcs !! k) → k ∈ ord_ctors ords tname) →
  p_funcs p' = p_funcs p ∧
  (∀ t, t ∈ p_types p → t ∈ p_types p') ∧
  (∀ k fct, funcs' !! k = Some fct → funcs !! k = Some fct) ∧
  (∀ k fct, funcs !! k = Some fct →
     (∃ e, e ∈ L ∧ f_ret fct = Some (Type_GoType e.2)) →
     funcs' !! k = None ∧
     ∃ tname t0 t' o doc,
       (tname, t0) ∈ L ∧ t' ∈ p_types p' ∧
       t_sym t' = t_sym t0 ∧ t_obj t' = t_obj t0 ∧
       f_ret fct = Some (Type_GoType t0) ∧
       scope_lookup tp k = Some o ∧ getDoc d tname o = Ok doc ∧
       as_ctor fct doc ∈ t_ctors t').
Proof.
  induction L as [|[tname t] L IH]; intros p funcs p' funcs' H Hord.
  - simpl in H. injection H as <- <-.
    split; [done|]. split; [done|]. split; [done|].
    intros k fct _ (e & He & _). by apply elem_of_nil in He.
  - simpl in H. apply bind_Ok in H as ([p1 funcs1] & H1 & H).
    destruct (type_round_inv _ _ _ _ _ _ _ _ _ H1 (Hord tname))
      as (t2 & Hty & Hfu & Hsym & Hobj & Hnone & Hsome).
    assert (Hsub : ∀ k fct, funcs1 !! k = Some fct → funcs !! k = Some fct).
    { intros k fct Hk. destruct (funcs !! k) as [fct'|] eqn:E.
      - specialize (Hsome k fct' E). destruct (decide _).
        + destruct Hsome as [Hn _]. congruence.
        + congruence.
      - rewrite (Hnone k E) in Hk. done. }
    destruct (IH _ _ _ _ H) as (Hfu' & Hty' & Hsub' & Hpro').
    { intros tn k [fct Hk]. apply Hord. rewrite (Hsub _ _ Hk). eauto. }
    split; [congruence|]. split; [|split].
    + intros t0 Ht0. apply Hty'. rewrite Hty. apply elem_of_app. by left.
    + eauto.
    + intros k fct Hk (e & He & Hret).
      specialize (Hsome k fct Hk). destruct (decide _) as [Hm|Hm].
      * destruct Hsome as (Hk1 & o & doc & Ho & Hdoc & Hin). split.
        -- destruct (funcs' !! k) as [x|] eqn:E; [|done].
           apply Hsub' in E. congruence.
        -- exists tname, t, t2, o, doc. repeat split; try done.
           ++ by left.
           ++ apply Hty'. rewrite Hty. apply elem_of_app. right.
              by apply list_elem_of_singleton.
      * apply elem_of_cons in He as [->|He]; [done|].
        destruct (Hpro' k fct Hsome) as (Hk' & tn & t0 & t' & o & doc & Hin & ?).
        { by exists e. }
        split; [done|]. exists tn, t0, t', o, doc. split; [by right|done].
Qed.

(** What ends up in a constructor list has been promoted in that round. *)
Lemma ctor_fold_only d tp tname l : ∀ t funcs t' funcs',
  foldM (ctor_step d tp tname) (t, funcs) l = Ok (t', funcs') →
  ∀ c, c ∈ t_ctors t' →
    c ∈ t_ctors t ∨
    ∃ k fct o doc, (k, fct) ∈ l ∧ f_ret fct = Some (Type_GoType t) ∧
                   scope_lookup tp k = Some o ∧ getDoc d tname o = Ok doc ∧
                   c = as_ctor fct doc.
Proof.
  induction l as [|[k0 fct0] l IH]; intros t funcs t' funcs' H c Hc.
  - simpl in H. injection H as <- <-. by left.
  - simpl in H. apply bind_Ok in H as ([t1 funcs1] & H1 & H).
    apply ctor_step_inv in H1
      as [(Hne & -> & ->)|(Heq & o & doc & Ho & Hdoc & -> & ->)].
    + destruct (IH _ _ _ _ H c Hc) as [?|(k & fct & o & doc & Hin & ?)];
        [by left|].
      right. exists k, fct, o, doc. split; [by right|done].
    + destruct (IH _ _ _ _ H c Hc) as [Hc0|(k & fct & o' & doc' & Hin & ?)].
      * simpl in Hc0. apply elem_of_app in Hc0 as [?|Hc0]; [by left|].
        apply list_elem_of_singleton in Hc0 as ->.
        right. exists k0, fct0, o, doc. split; [by left|done].
      * right. exists k, fct, o', doc'. split; [by right|done].
Qed.

Lemma rounds_only d tp ords L : ∀ p funcs p' funcs',
  foldM (type_round d tp ords) (p, funcs) L = Ok (p', funcs') →
  ∀ t', t' ∈ p_types p' →
    t' ∈ p_types p ∨
    ∃ tname t0, (tname, t0) ∈ L ∧
      t_sym t' = t_sym t0 ∧ t_obj t' = t_obj t0 ∧
      ∀ c, c ∈ t_ctors t' →
        c ∈ t_ctors t0 ∨
        ∃ k fct o doc, funcs !! k = Some fct ∧
                       f_ret fct = Some (Type_GoType t0) ∧
                       scope_lookup tp k = Some o ∧
                       getDoc d tname o = Ok doc ∧ c = as_ctor fct doc.
Proof.
  induction L as [|[tname t] L IH]; intros p funcs p' funcs' H t' Ht'.
  - simpl in H. injection H as <- <-. by left.
  - simpl in H. apply bind_Ok in H as ([p1 funcs1] & H1 & H).
    unfold Bind.type_round in H1.
    apply bind_Ok in H1 as ([t1 funcs1'] & Hc & H1).
    apply bind_Ok in H1 as (t2 & Hm & [= <- <-]).
    destruct (ctor_fold _ _ _ _ _ _ _ _ Hc) as (Hsym & Hobj & _ & Hdel & _).
    destruct (meth_fold _ _ _ _ _ Hm) as (Hsym2 & Hobj2 & Hct2).
    assert (Hsub : ∀ k fct, funcs1' !! k = Some fct → funcs !! k = Some fct).
    { intros k fct Hk. destruct (Hdel k) as [<-|[Hn _]]; congruence. }
    destruct (IH _ _ _ _ H t' Ht') as [Hin|(tn & t0 & Hin & ? & ? & Hcs)].
    + simpl in Hin. apply elem_of_app in Hin as [?|Hin]; [by left|].
      apply list_elem_of_singleton in Hin as ->.
      right. exists tname, t. split; [by left|].
      split; [congruence|]. split; [congruence|].
      intros c Hcin. rewrite Hct2 in Hcin.
      destruct (ctor_fold_only _ _ _ _ _ _ _ _ Hc c Hcin)
        as [?|(k & fct & o & doc & Hl & ?)]; [by left|].
      right. exists k, fct, o, doc. split; [|done].
      by apply elem_of_range_map in Hl as [_ ?].
    + right. exists tn, t0. split; [by right|]. split; [done|]. split; [done|].
      intros c Hcin. destruct (Hcs c Hcin) as [?|(k & fct & o & doc & Hk & ?)];
        [by left|].
      right. exists k, fct, o, doc. split; [by apply Hsub|done].
Qed.

(** A function whose return type is the type of no round stays in [funcs]. *)
Lemma rounds_keep d tp ords L : ∀ p funcs p' funcs' k fct,
  foldM (type_round d tp ords) (p, funcs) L = Ok (p', funcs') →
  (∀ tname k, is_Some (funcs !! k) → k ∈ ord_ctors ords tname) →
  funcs !! k = Some fct →
  (∀ e, e ∈ L → f_ret fct ≠ Some (Type_GoType e.2)) →
  funcs' !! k = Some fct.
Proof.
  induction L as [|[tname t] L IH]; intros p funcs p' funcs' k fct H Hord Hk Hno.
  - simpl in H. by injection H as <- <-.
  - simpl in H. apply bind_Ok in H as ([p1 funcs1] & H1 & H).
    destruct (type_round_inv _ _ _ _ _ _ _ _ _ H1 (Hord tname))
      as (t2 & _ & _ & _ & _ & Hnone & Hsome).
    assert (Hk1 : funcs1 !! k = Some fct).
    { specialize (Hsome k fct Hk). destruct (decide _) as [Hm|Hm]; [|done].
      destruct (Hno (tname, t)); [by left|done]. }
    apply (IH _ _ _ _ _ _ H); [|done|].
    + intros tn k' [g Hg]. apply Hord.
      destruct (funcs !! k') as [g'|] eqn:E; [eauto|].
      rewrite (Hnone k' E) in Hg. done.
    + intros e He. apply Hno. by right.
Qed.

Lemma addFunc_fold fs : ∀ p,
  p_types (foldl addFunc p fs) = p_types p ∧
  p_funcs (foldl addFunc p fs) = (p_funcs p ++ fs)%list.
Proof.
  induction fs as [|f fs IH]; intros p; simpl.
  - by rewrite app_nil_r.
  - destruct (IH (addFunc p f)) as [-> ->]. simpl.
    by rewrite <- app_assoc.
Qed.

(** C5 (amended): constructor promotion is a pass over the classified
    set.  When the pipeline returns a package, every exported free function
    whose return type is the type of an exported type name is absent from
    the package's function list and sits in the constructor list of a
    [Type] of that type, with its constructor flag set and with its
    documentation looked up afresh under that type's name; its other
    fields are as the analyzer built them. *)
Theorem process_promotes_constructors ords tp d p' :
  NoDup (names (tp_scope tp)) →
  orders_cover ords tp →
  NewPackage ords tp d = Ok p' →
  ∀ i s f ti tt ty,
    OFunc i s ∈ tp_scope tp → o_exported i = true →
    newFuncFrom d "" (OFunc i s) s = Ok f →
    OTypeName ti tt ∈ tp_scope tp → o_exported ti = true →
    newType d ti tt = Ok ty →
    f_ret f = Some (Type_GoType ty) →
    (∀ g, g ∈ p_funcs p' → f_name g ≠ o_name i) ∧
    ∃ t' doc, t' ∈ p_types p' ∧ f_ret f = Some (Type_GoType t') ∧
      getDoc d (o_name (t_obj t')) (OFunc i s) = Ok doc ∧
      as_ctor f doc ∈ t_ctors t'.
Proof.
  intros Hnd (Hot & Hoc & Hof) Hnew i s f ti tt ty Hi Hex Hf Hti Htex Hty Hret.
  unfold Bind.NewPackage, Bind.process in Hnew. cbv zeta in Hnew.
  apply bind_Ok in Hnew as (st & Hst & Hnew).
  apply bind_Ok in Hnew as ([p3 funcs3] & Hrounds & Hnew).
  apply bind_Ok in Hnew as (_ & _ & [= <-]).
  apply classify_fold in Hst as (Hcore & _ & Hfc & Htc & Hfs & Hts); [|done].
  simpl in Hcore, Hfc, Htc, Hfs, Hts.
  destruct (Hfc i s Hi Hex) as (f' & Hf' & Hfk).
  assert (f' = f) as -> by congruence.
  destruct (Htc ti tt Hti Htex) as (ty' & Hty' & Htk).
  assert (ty' = ty) as -> by congruence.
  assert (Hkeys : ∀ k g, cl_funcs st !! k = Some g →
            k ∈ names (tp_scope tp) ∧ f_name g = k).
  { intros k g Hk. destruct (Hfs k g Hk) as [Hk0|(i' & s' & Hin & _ & <- & Hg)].
    - by rewrite lookup_empty in Hk0.
    - split.
      + unfold names. apply list_elem_of_fmap. by exists (OFunc i' s').
      + by destruct (newFuncFrom_inv _ _ _ _ _ _ _ Hg) as (_ & _ & _ & _ & _ & ? & _). }
  apply rounds_inv in Hrounds as (Hpf & _ & Hsub & Hpro).
  2:{ intros tname k [g Hk]. apply Hoc. by apply (Hkeys k g). }
  destruct (Hpro (o_name i) f Hfk)
    as (Hgone & tname & t0 & t' & o & doc & Hin & Ht' & Hsym & Hobj & Hr
        & Ho & Hdoc & Hc).
  { exists (o_name ti, ty). split; [|done].
    apply elem_of_range_map. split; [|done]. apply Hot.
    unfold names. apply list_elem_of_fmap. by exists (OTypeName ti tt). }
  destruct (addFunc_fold (range_map (ord_funcs ords) funcs3).*2 p3) as [Htys Hfus].
  split.
  - intros g Hg Hname. rewrite Hfus in Hg. apply elem_of_app in Hg as [Hg|Hg].
    + rewrite Hpf in Hg. destruct Hcore as (_ & _ & _ & Hcf).
      rewrite Hcf in Hg. simpl in Hg. by apply elem_of_nil in Hg.
    + apply list_elem_of_fmap in Hg as ([k g'] & -> & Hg). simpl in Hname.
      apply elem_of_range_map in Hg as [_ Hg].
      destruct (Hkeys k g' (Hsub _ _ Hg)) as [_ Hk]. congruence.
  - exists t', doc. rewrite Htys. split; [done|].
    apply elem_of_range_map in Hin as [_ Hin].
    destruct (Hts tname t0 Hin) as [H0|(i' & t'' & _ & _ & <- & Hnt)].
    { by rewrite lookup_empty in H0. }
    destruct (newType_inv _ _ _ _ Hnt) as (Hobj0 & _).
    assert (Ho' : o = OFunc i s).
    { unfold scope_lookup in Ho.
      pose proof (scope_lookup_unique _ (OFunc i s) Hnd Hi) as Hu.
      simpl in Hu, Ho. congruence. }
    subst o. rewrite Hobj, Hobj0. unfold Type_GoType. rewrite Hsym.
    split; [exact Hr|]. done.
Qed.

(** The converse: every constructor of a [Type] of the package is a promoted
    exported free function whose return type is the type of that [Type]. *)
Lemma process_constructors_only ords tp d p' :
  NoDup (names (tp_scope tp)) →
  NewPackage ords tp d = Ok p' →
  ∀ t' c, t' ∈ p_types p' → c ∈ t_ctors t' →
    ∃ i s f doc,
      OFunc i s ∈ tp_scope tp ∧ o_exported i = true ∧
      newFuncFrom d "" (OFunc i s) s = Ok f ∧
      f_ret f = Some (Type_GoType t') ∧
      getDoc d (o_name (t_obj t')) (OFunc i s) = Ok doc ∧
      c = as_ctor f doc.
Proof.
  intros Hnd Hnew t' c Ht' Hc.
  unfold Bind.NewPackage, Bind.process in Hnew. cbv zeta in Hnew.
  apply bind_Ok in Hnew as (st & Hst & Hnew).
  apply bind_Ok in Hnew as ([p3 funcs3] & Hrounds & Hnew).
  apply bind_Ok in Hnew as (_ & _ & [= <-]).
  apply classify_fold in Hst as (Hcore & _ & _ & _ & Hfs & Hts); [|done].
  simpl in Hcore, Hfs, Hts.
  destruct (addFunc_fold (range_map (ord_funcs ords) funcs3).*2 p3) as [Htys _].
  rewrite Htys in Ht'.
  destruct (rounds_only _ _ _ _ _ _ _ _ Hrounds t' Ht')
    as [Hin|(tname & t0 & Hin & Hsym & Hobj & Hcs)].
  { destruct Hcore as (_ & _ & Hct & _). rewrite Hct in Hin. simpl in Hin.
    by apply elem_of_nil in Hin. }
  apply elem_of_range_map in Hin as [_ Hin].
  destruct (Hts tname t0 Hin) as [H0|(ti & tt & _ & _ & <- & Hnt)].
  { by rewrite lookup_empty in H0. }
  destruct (newType_inv _ _ _ _ Hnt) as (Hobj0 & Hct0 & _).
  destruct (Hcs c Hc) as [Hc0|(k & fct & o & doc & Hk & Hret & Ho & Hdoc & ->)].
  { rewrite Hct0 in Hc0. by apply elem_of_nil in Hc0. }
  destruct (Hfs k fct Hk) as [H0|(i & s & Hi & Hex & <- & Hf)].
  { by rewrite lookup_empty in H0. }
  assert (Ho' : o = OFunc i s).
  { unfold scope_lookup in Ho.
    pose proof (scope_lookup_unique _ (OFunc i s) Hnd Hi) as Hu.
    simpl in Hu, Ho. congruence. }
  subst o. exists i, s, fct, doc. rewrite Hobj, Hobj0.
  unfold Type_GoType. rewrite Hsym. done.
Qed.

(** An exported free function whose return type is the type of no exported
    type name is still in the function list of the package. *)
Lemma process_keeps_other_functions ords tp d p' :
  NoDup (names (tp_scope tp)) →
  orders_cover ords tp →
  NewPackage ords tp d = Ok p' →
  ∀ i s f,
    OFunc i s ∈ tp_scope tp → o_exported i = true →
    newFuncFrom d "" (OFunc i s) s = Ok f →
    (∀ ti tt ty, OTypeName ti tt ∈ tp_scope tp → newType d ti tt = Ok ty →
                 f_ret f ≠ Some (Type_GoType ty)) →
    f ∈ p_funcs p'.
Proof.
  intros Hnd (Hot & Hoc & Hof) Hnew i s f Hi Hex Hf Hno.
  unfold Bind.NewPackage, Bind.process in Hnew. cbv zeta in Hnew.
  apply bind_Ok in Hnew as (st & Hst & Hnew).
  apply bind_Ok in Hnew as ([p3 funcs3] & Hrounds & Hnew).
  apply bind_Ok in Hnew as (_ & _ & [= <-]).
  apply classify_fold in Hst as (Hcore & _ & Hfc & _ & Hfs & Hts); [|done].
  simpl in Hcore, Hfc, Hfs, Hts.
  destruct (Hfc i s Hi Hex) as (f' & Hf' & Hfk).
  assert (f' = f) as -> by congruence.
  assert (Hkeys : ∀ k g, cl_funcs st !! k = Some g → k ∈ names (tp_scope tp)).
  { intros k g Hk. destruct (Hfs k g Hk) as [Hk0|(i' & s' & Hin & _ & <- & _)].
    - by rewrite lookup_empty in Hk0.
    - unfold names. apply list_elem_of_fmap. by exists (OFunc i' s'). }
  assert (Hk3 : funcs3 !! o_name i = Some f).
  { apply (rounds_keep _ _ _ _ _ _ _ _ _ _ Hrounds); [|done|].
    - intros tname k [g Hk]. apply Hoc. by apply (Hkeys k g).
    - intros [tname t0] Hin. simpl.
      apply elem_of_range_map in Hin as [_ Hin].
      destruct (Hts tname t0 Hin) as [H0|(ti & tt & Hti & _ & _ & Hnt)].
      + by rewrite lookup_empty in H0.
      + by apply (Hno ti tt). }
  destruct (addFunc_fold (range_map (ord_funcs ords) funcs3).*2 p3) as [_ ->].
  apply elem_of_app. right. apply list_elem_of_fmap.
  exists (o_name i, f). split; [done|].
  apply elem_of_range_map. split; [|done].
  apply Hof. unfold names. apply list_elem_of_fmap. by exists (OFunc i s).
Qed.



(** *** What the passes leave alone, and what they attach *)

Abbreviation newConst := (Bind.newConst symtype newVar).

Lemma Forall2_elem_of_l {A B} (R : A → B → Prop) l k x :
  Forall2 R l k → x ∈ l → ∃ y, y ∈ k ∧ R x y.
Proof.
  induction 1 as [|a b l k HR _ IH]; intros Hx; [by apply elem_of_nil in Hx|].
  apply elem_of_cons in Hx as [->|Hx].
  - exists b. split; [by left|done].
  - destruct (IH Hx) as (y & Hy & ?). exists y. split; [by right|done].
Qed.

Lemma Forall2_elem_of_r {A B} (R : A → B → Prop) l k y :
  Forall2 R l k → y ∈ k → ∃ x, x ∈ l ∧ R x y.
Proof.
  induction 1 as [|a b l k HR _ IH]; intros Hy; [by apply elem_of_nil in Hy|].
  apply elem_of_cons in Hy as [->|Hy].
  - exists a. split; [by left|done].
  - destruct (IH Hy) as (x & Hx & ?). exists x. split; [by right|done].
Qed.

Lemma Forall2_impl_elem_of {A B} (R R' : A → B → Prop) l k :
  Forall2 R l k → (∀ x y, x ∈ l → R x y → R' x y) → Forall2 R' l k.
Proof.
  induction 1 as [|a b l k HR _ IH]; intros H; constructor.
  - apply H; [by left|done].
  - apply IH. intros x y Hx. apply H. by right.
Qed.

Lemma fmap_inj_on {A B} (h : A → B) (l : list A) x y :
  NoDup (h <$> l) → x ∈ l → y ∈ l → h x = h y → x = y.
Proof.
  induction l as [|a l IH]; intros Hnd Hx Hy Heq;
    [by apply elem_of_nil in Hx|].
  simpl in Hnd. apply NoDup_cons in Hnd as [Hnotin Hnd].
  apply elem_of_cons in Hx as [->|Hx]; apply elem_of_cons in Hy as [->|Hy].
  - done.
  - destruct Hnotin. rewrite Heq. apply list_elem_of_fmap. by exists y.
  - destruct Hnotin. rewrite <- Heq. apply list_elem_of_fmap. by exists x.
  - by apply IH.
Qed.

Lemma range_map_keys_NoDup {V} (ord : list string) (m : gmap string V) :
  NoDup ord → NoDup (range_map ord m).*1.
Proof.
  unfold range_map. induction ord as [|k ord IH]; intros Hnd; simpl;
    [constructor|].
  apply NoDup_cons in Hnd as [Hnotin Hnd].
  destruct (m !! k) as [v|] eqn:E; simpl; [|by apply IH].
  constructor; [|by apply IH].
  intros Hin. apply list_elem_of_fmap in Hin as ([k' v'] & -> & Hin).
  apply (elem_of_range_map ord m) in Hin as [Hin _]. done.
Qed.

Lemma range_map_values {V} (h : V → string) (l : list (string * V)) :
  (∀ k v, (k, v) ∈ l → h v = k) → h <$> l.*2 = l.*1.
Proof.
  induction l as [|[k v] l IH]; intros H; simpl; [done|].
  rewrite (H k v) by left. f_equal. apply IH. intros k' v' Hin.
  apply H. by right.
Qed.

Lemma ctor_fold_frame d tp tname l : ∀ t funcs t' funcs',
  foldM (ctor_step d tp tname) (t, funcs) l = Ok (t', funcs') →
  t_meths t' = t_meths t ∧ t_prots t' = t_prots t.
Proof.
  induction l as [|[k0 fct0] l IH]; intros t funcs t' funcs' H.
  - simpl in H. by injection H as <- <-.
  - simpl in H. apply bind_Ok in H as ([t1 funcs1] & H1 & H).
    destruct (IH _ _ _ _ H) as [-> ->].
    by apply ctor_step_inv in H1
      as [(_ & -> & _)|(_ & o & doc & _ & _ & -> & _)].
Qed.

Lemma meth_fold_inv d tname ms : ∀ t t',
  foldM (meth_step d tname) t ms = Ok t' →
  ∃ fs, t_meths t' = (t_meths t ++ fs)%list ∧
        Forall2 (λ m f, newFuncFrom d tname m.1 m.2 = Ok f)
                (Objects.exported_methods ms) fs ∧
        t_prots t' =
          if existsb isStringer (Objects.exported_methods ms).*1
          then Z.lor (t_prots t) ProtoStringer else t_prots t.
Proof.
  induction ms as [|[mobj msig] ms IH]; intros t t' H.
  - simpl in H. injection H as <-. exists []. rewrite app_nil_r.
    split; [done|]. split; [constructor|done].
  - simpl in H. apply bind_Ok in H as (t1 & H1 & H).
    destruct (IH _ _ H) as (fs & Hm & Hall & Hp).
    unfold Bind.meth_step in H1. unfold Objects.exported_methods in *. simpl.
    destruct (o_exported (info mobj)) eqn:Hex; simpl in H1.
    + apply bind_Ok in H1 as (f & Hf & [= <-]).
      exists (f :: fs). split; [|split].
      * rewrite Hm. destruct (isStringer mobj); simpl; by rewrite <- app_assoc.
      * by constructor.
      * rewrite Hp. simpl. destruct (isStringer mobj); simpl; [|done].
        destruct (existsb _ _); [|done].
        by rewrite <- Z.lor_assoc, Z.lor_diag.
    + injection H1 as <-. by exists fs.
Qed.

(** One [Type] per round, in the order of the rounds, each with the
    methods of its round attached; nothing else of the package moves. *)
Lemma rounds_types d tp ords L : ∀ p funcs p' funcs',
  foldM (type_round d tp ords) (p, funcs) L = Ok (p', funcs') →
  p_consts p' = p_consts p ∧ p_vars p' = p_vars p ∧ p_n p' = p_n p ∧
  ∃ ts, p_types p' = (p_types p ++ ts)%list ∧
        p_objs p' = foldl (λ m t, <[Type_GoName t := ObjType t]> m) (p_objs p) ts ∧
        Forall2 (λ e t',
          t_sym t' = t_sym e.2 ∧ t_obj t' = t_obj e.2 ∧
          ∃ fs, t_meths t' = (t_meths e.2 ++ fs)%list ∧
                Forall2 (λ m f, newFuncFrom d e.1 m.1 m.2 = Ok f)
                  (Objects.exported_methods (tp_methods tp (Type_GoType e.2))) fs ∧
                t_prots t' =
                  if existsb isStringer
                       (Objects.exported_methods
                          (tp_methods tp (Type_GoType e.2))).*1
                  then Z.lor (t_prots e.2) ProtoStringer else t_prots e.2)
          L ts.
Proof.
  induction L as [|[tname t] L IH]; intros p funcs p' funcs' H.
  - simpl in H. injection H as <- <-. repeat (split; [done|]).
    exists []. rewrite app_nil_r. split; [done|]. split; [done|constructor].
  - simpl in H. apply bind_Ok in H as ([p1 funcs1] & H1 & H).
    destruct (IH _ _ _ _ H) as (-> & -> & -> & ts & -> & -> & Hall).
    unfold Bind.type_round in H1.
    apply bind_Ok in H1 as ([t1 funcs1'] & Hc & H1).
    apply bind_Ok in H1 as (t2 & Hm & [= <- <-]). simpl.
    repeat (split; [done|]).
    destruct (ctor_fold _ _ _ _ _ _ _ _ Hc) as (Hsym & Hobj & _).
    destruct (ctor_fold_frame _ _ _ _ _ _ _ _ Hc) as (Hme & Hpr).
    destruct (meth_fold _ _ _ _ _ Hm) as (Hsym2 & Hobj2 & _).
    destruct (meth_fold_inv _ _ _ _ _ Hm) as (fs & Hfs & Hf2 & Hp2).
    assert (Hty : Type_GoType t1 = Type_GoType t)
      by (unfold Type_GoType; by rewrite Hsym).
    rewrite Hty in Hf2, Hp2. rewrite Hme in Hfs. rewrite Hpr in Hp2.
    exists (t2 :: ts). split; [by rewrite <- app_assoc|]. split; [done|].
    constructor; [|done]. simpl.
    split; [congruence|]. split; [congruence|]. by exists fs.
Qed.

Lemma rounds_funcs d tp ords L : ∀ p funcs p' funcs',
  foldM (type_round d tp ords) (p, funcs) L = Ok (p', funcs') →
  p_funcs p' = p_funcs p.
Proof.
  induction L as [|[tname t] L IH]; intros p funcs p' funcs' H.
  - simpl in H. by injection H as <- <-.
  - simpl in H. apply bind_Ok in H as ([p1 funcs1] & H1 & H).
    rewrite (IH _ _ _ _ H). unfold Bind.type_round in H1.
    apply bind_Ok in H1 as ([t1 funcs1'] & _ & H1).
    by apply bind_Ok in H1 as (t2 & _ & [= <- <-]).
Qed.

Lemma addType_objs ts : ∀ (m : gmap string BObject) k,
  (∀ f, foldl (λ m t, <[Type_GoName t := ObjType t]> m) m ts !! k
        = Some (ObjFunc f) → m !! k = Some (ObjFunc f)) ∧
  (∀ t, foldl (λ m t, <[Type_GoName t := ObjType t]> m) m ts !! k
        = Some (ObjType t) →
        (t ∈ ts ∧ Type_GoName t = k) ∨ m !! k = Some (ObjType t)).
Proof.
  induction ts as [|t0 ts IH]; intros m k; simpl; [by split; auto|].
  destruct (IH (<[Type_GoName t0 := ObjType t0]> m) k) as [IHf IHt]. split.
  - intros f Hf. apply IHf in Hf.
    destruct (decide (Type_GoName t0 = k)) as [<-|Hne].
    + by rewrite lookup_insert_eq in Hf.
    + by rewrite lookup_insert_ne in Hf.
  - intros t Ht. apply IHt in Ht as [[Hin Hk]|Ht].
    + left. split; [by right|done].
    + destruct (decide (Type_GoName t0 = k)) as [<-|Hne].
      * rewrite lookup_insert_eq in Ht. injection Ht as ->.
        left. split; [by left|done].
      * rewrite lookup_insert_ne in Ht by done. by right.
Qed.

Lemma addFunc_frame fs : ∀ p,
  p_consts (foldl addFunc p fs) = p_consts p ∧
  p_vars (foldl addFunc p fs) = p_vars p ∧
  p_n (foldl addFunc p fs) = p_n p.
Proof.
  induction fs as [|f fs IH]; intros p; simpl; [done|].
  by destruct (IH (addFunc p f)) as (-> & -> & ->).
Qed.

Lemma addFunc_objs fs : ∀ p k,
  (∃ f, f ∈ fs ∧ f_name f = k ∧
        p_objs (foldl addFunc p fs) !! k = Some (ObjFunc f)) ∨
  ((∀ f, f ∈ fs → f_name f ≠ k) ∧
   p_objs (foldl addFunc p fs) !! k = p_objs p !! k).
Proof.
  induction fs as [|f fs IH]; intros p k; simpl.
  - right. split; [|done]. intros f Hf. by apply elem_of_nil in Hf.
  - destruct (IH (addFunc p f) k) as [(g & Hg & Hk & Hl)|[Hno Hl]].
    + left. exists g. split; [by right|done].
    + simpl in Hl. destruct (decide (f_name f = k)) as [Hk|Hne].
      * left. exists f. split; [by left|]. split; [done|].
        by rewrite Hl, Hk, lookup_insert_eq.
      * right. split.
        -- intros g Hg. apply elem_of_cons in Hg as [->|Hg]; [done|].
           by apply Hno.
        -- by rewrite Hl, lookup_insert_ne.
Qed.

(** The second pass keeps [n] and [objs], appends one [Var] per exported
    variable and one [Const] per exported constant, in scope order. *)
Lemma classify_values l : ∀ st st',
  foldM classify st l = Ok st' →
  let d := p_doc (cl_pkg st) in
  p_n (cl_pkg st') = p_n (cl_pkg st) ∧
  p_objs (cl_pkg st') = p_objs (cl_pkg st) ∧
  p_vars (cl_pkg st') =
    (p_vars (cl_pkg st)
     ++ ((λ e, newVarFrom (MkTVar (o_name e.1) e.2))
           <$> Objects.exported_vars l))%list ∧
  ∃ cs, p_consts (cl_pkg st') = (p_consts (cl_pkg st) ++ cs)%list ∧
        Forall2 (λ e c, newConst d e.1 e.2 = Ok c)
                (Objects.exported_consts l) cs.
Proof.
  induction l as [|o l IH]; intros st st' H d.
  - simpl in H. injection H as <-. rewrite app_nil_r.
    repeat (split; [done|]). exists []. rewrite app_nil_r.
    split; [done|constructor].
  - simpl in H. apply bind_Ok in H as (st1 & H1 & H).
    destruct (IH _ _ H) as (-> & -> & -> & cs & -> & Hcs). clear IH.
    unfold Bind.classify in H1.
    unfold Objects.exported_vars, Objects.exported_consts,
      Objects.exported_objects in *. simpl.
    destruct (o_exported (info o)) eqn:Hex; simpl in H1.
    2:{ injection H1 as <-. repeat (split; [done|]). by exists cs. }
    destruct o as [i t|i t|i s|i t|i dyn]; simpl in *.
    + unfold Bind.addConst, Bind.newConst in H1.
      destruct (o_pkg_nil i) eqn:Hpk; simpl in H1; [done|].
      injection H1 as <-. simpl in *. repeat (split; [done|]).
      eexists (_ :: cs). split; [by rewrite <- app_assoc|].
      constructor; [|done]. simpl. unfold Bind.newConst. by rewrite Hpk.
    + injection H1 as <-. simpl in *. repeat (split; [done|]).
      split; [by rewrite <- app_assoc|]. by exists cs.
    + apply bind_Ok in H1 as (f & _ & [= <-]). simpl in *.
      repeat (split; [done|]). by exists cs.
    + apply bind_Ok in H1 as (ty & _ & [= <-]). simpl in *.
      repeat (split; [done|]). by exists cs.
    + done.
Qed.

(** What a successful run of the pipeline went through. *)
Lemma NewPackage_inv ords tp d p' :
  NewPackage ords tp d = Ok p' →
  ∃ st p3 funcs3,
    foldM classify
      (MkCollected
         (MkPackage tp (0 + Z.of_nat (length (Objects.exported_objects (tp_scope tp))))
                    d ∅ [] [] [] []) ∅ ∅)
      (tp_scope tp) = Ok st ∧
    foldM (type_round d tp ords) (cl_pkg st, cl_funcs st)
          (range_map (ord_typs ords) (cl_typs st)) = Ok (p3, funcs3) ∧
    p' = foldl addFunc p3 (range_map (ord_funcs ords) funcs3).*2.
Proof.
  intros Hnew. unfold Bind.NewPackage, Bind.process in Hnew. cbv zeta in Hnew.
  apply bind_Ok in Hnew as (st & Hst & Hnew).
  apply bind_Ok in Hnew as ([p3 funcs3] & Hrounds & Hnew).
  apply bind_Ok in Hnew as (_ & _ & [= <-]).
  by exists st, p3, funcs3.
Qed.

Lemma newType_fresh d i t ty :
  newType d i t = Ok ty → t_meths ty = [] ∧ t_prots ty = 0.
Proof.
  unfold Bind.newType. destruct (symtype t) as [sym0|]; [|done].
  intros H. apply bind_Ok in H as (doc & _ & [= <-]). done.
Qed.

Lemma resultArity_shape obj rs x :
  resultArity obj rs = Ok x →
  (length rs ≤ 2)%nat ∧
  ∀ r0 r1, rs = [r0; r1] → isErrorType (tv_type r1) = true.
Proof.
  destruct rs as [|r0 [|r1 [|r2 rs]]]; simpl; intros H.
  - split; [lia|]. intros ? ? [=].
  - split; [lia|]. intros ? ? [=].
  - split; [lia|]. intros ? ? [= <- <-].
    by destruct (isErrorType (tv_type r1)).
  - done.
Qed.

(** The free functions of a returned package: the names in the function
    list are pairwise distinct, and its members are the analyzer's [Func]s
    of the exported functions whose return type is the type of no
    exported type name. *)
Lemma funcs_inv ords tp d p' :
  NoDup (names (tp_scope tp)) →
  orders_cover ords tp →
  NewPackage ords tp d = Ok p' →
  NoDup (f_name <$> p_funcs p') ∧
  ∀ f, f ∈ p_funcs p' ↔
    ∃ i s, OFunc i s ∈ tp_scope tp ∧ o_exported i = true ∧
      newFuncFrom d "" (OFunc i s) s = Ok f ∧
      ∀ ti tt ty, OTypeName ti tt ∈ tp_scope tp → o_exported ti = true →
        newType d ti tt = Ok ty → f_ret f ≠ Some (Type_GoType ty).
Proof.
  intros Hnd (Hot & Hoc & Hof) Hnew.
  apply NewPackage_inv in Hnew as (st & p3 & funcs3 & Hst & Hrounds & ->).
  apply classify_fold in Hst as (Hcore & _ & Hfc & Htc & Hfs & Hts); [|done].
  simpl in Hcore, Hfc, Htc, Hfs, Hts.
  assert (Hkeys : ∀ k g, cl_funcs st !! k = Some g →
            k ∈ names (tp_scope tp) ∧ f_name g = k).
  { intros k g Hk. destruct (Hfs k g Hk) as [Hk0|(i' & s' & Hin & _ & <- & Hg)].
    - by rewrite lookup_empty in Hk0.
    - split.
      + unfold names. apply list_elem_of_fmap. by exists (OFunc i' s').
      + by destruct (newFuncFrom_inv _ _ _ _ _ _ _ Hg) as (_ & _ & _ & _ & _ & ? & _). }
  assert (Hord : ∀ (tname k : string), is_Some (cl_funcs st !! k) →
            k ∈ ord_ctors ords tname).
  { intros tname k [g Hk]. apply Hoc. by apply (Hkeys k g). }
  destruct (rounds_inv _ _ _ _ _ _ _ _ Hrounds Hord) as (Hpf & _ & Hsub & Hpro).
  destruct (addFunc_fold (range_map (ord_funcs ords) funcs3).*2 p3) as [_ ->].
  destruct Hcore as (_ & _ & _ & Hcf). rewrite Hpf, Hcf. simpl.
  split.
  { rewrite (range_map_values f_name).
    - apply range_map_keys_NoDup, Hof.
    - intros k g Hin. apply elem_of_range_map in Hin as [_ Hin].
      by apply (Hkeys k g), Hsub. }
  intros f. split.
  - intros Hin. apply list_elem_of_fmap in Hin as ([k g] & -> & Hin). simpl.
    apply elem_of_range_map in Hin as [_ Hk3].
    pose proof (Hsub _ _ Hk3) as Hk.
    destruct (Hfs k g Hk) as [Hk0|(i & s & Hi & Hex & <- & Hg)].
    { by rewrite lookup_empty in Hk0. }
    exists i, s. repeat (split; [done|]).
    intros ti tt ty Hti Htex Hty Hret.
    destruct (Htc ti tt Hti Htex) as (ty' & Hty' & Htk).
    assert (ty' = ty) as -> by congruence.
    destruct (Hpro (o_name i) g Hk) as [Hgone _]; [|congruence].
    exists (o_name ti, ty). split; [|done].
    apply elem_of_range_map. split; [|done]. apply Hot.
    unfold names. apply list_elem_of_fmap. by exists (OTypeName ti tt).
  - intros (i & s & Hi & Hex & Hf & Hno).
    destruct (Hfc i s Hi Hex) as (f' & Hf' & Hfk).
    assert (f' = f) as -> by congruence.
    assert (Hk3 : funcs3 !! o_name i = Some f).
    { apply (rounds_keep _ _ _ _ _ _ _ _ _ _ Hrounds); [done|done|].
      intros [tname t0] Hin. simpl.
      apply elem_of_range_map in Hin as [_ Hin].
      destruct (Hts tname t0 Hin) as [H0|(ti & tt & Hti & Htex & _ & Hnt)].
      + by rewrite lookup_empty in H0.
      + by apply (Hno ti tt). }
    apply list_elem_of_fmap. exists (o_name i, f). split; [done|].
    apply elem_of_range_map. split; [|done].
    apply Hof. unfold names. apply list_elem_of_fmap. by exists (OFunc i s).
Qed.

(** The [Type]s of a returned package, against the exported type names of
    the scope: one [Type] per name, each built by [newType] for that name
    and then given the [Func]s of the exported methods of its method set,
    in the order of the method set. *)
Lemma types_inv ords tp d p' :
  NoDup (names (tp_scope tp)) →
  NewPackage ords tp d = Ok p' →
  ∃ L, (∀ k t0, (k, t0) ∈ L ↔ k ∈ ord_typs ords ∧
          ∃ ti tt, OTypeName ti tt ∈ tp_scope tp ∧ o_exported ti = true ∧
                   o_name ti = k ∧ newType d ti tt = Ok t0) ∧
       (NoDup (ord_typs ords) → NoDup L.*1) ∧
       Forall2 (λ e t',
          t_sym t' = t_sym e.2 ∧ t_obj t' = t_obj e.2 ∧
          o_name (t_obj t') = e.1 ∧
          Forall2 (λ m f, newFuncFrom d e.1 m.1 m.2 = Ok f)
            (Objects.exported_methods (tp_methods tp (Type_GoType t')))
            (t_meths t') ∧
          t_prots t' =
            if existsb isStringer
                 (Objects.exported_methods (tp_methods tp (Type_GoType t'))).*1
            then ProtoStringer else 0)
         L (p_types p').
Proof.
  intros Hnd Hnew.
  apply NewPackage_inv in Hnew as (st & p3 & funcs3 & Hst & Hrounds & ->).
  apply classify_fold in Hst as (Hcore & _ & _ & Htc & _ & Hts); [|done].
  simpl in Hcore, Htc, Hts.
  exists (range_map (ord_typs ords) (cl_typs st)). split; [|split].
  - intros k t0. rewrite elem_of_range_map. split.
    + intros [Hk Ht0]. split; [done|].
      destruct (Hts k t0 Ht0) as [H0|(ti & tt & ? & ? & ? & ?)].
      * by rewrite lookup_empty in H0.
      * by exists ti, tt.
    + intros [Hk (ti & tt & Hti & Hex & <- & Hnt)]. split; [done|].
      destruct (Htc ti tt Hti Hex) as (ty' & Hty' & Htk). congruence.
  - apply range_map_keys_NoDup.
  - destruct (rounds_types _ _ _ _ _ _ _ _ Hrounds)
      as (_ & _ & _ & ts & Hty & _ & Hall).
    destruct (addFunc_fold (range_map (ord_funcs ords) funcs3).*2 p3) as [-> _].
    destruct Hcore as (_ & _ & Hct & _). rewrite Hty, Hct. simpl.
    eapply Forall2_impl_elem_of; [exact Hall|].
    intros [k t0] t' Hin Hfa. simpl in *.
    destruct Hfa as (Hsym & Hobj & fs & Hfs & Hf2 & Hp).
    apply elem_of_range_map in Hin as [_ Hin].
    destruct (Hts k t0 Hin) as [H0|(ti & tt & _ & _ & <- & Hnt)].
    { by rewrite lookup_empty in H0. }
    destruct (newType_inv _ _ _ _ Hnt) as (Hobj0 & _).
    destruct (newType_fresh _ _ _ _ Hnt) as (Hm0 & Hp0).
    assert (HT : Type_GoType t' = Type_GoType t0)
      by (unfold Type_GoType; by rewrite Hsym).
    rewrite HT, Hfs, Hm0, Hp, Hp0. simpl.
    split; [done|]. split; [done|]. split; [by rewrite Hobj, Hobj0|].
    split; [done|]. by destruct (existsb _ _).
Qed.

(** *** The returned package *)

(** X7: constructors come from promotion only.  In a returned package,
    every entry of a constructor list has its constructor flag set and is
    the analyzer's [Func] of an exported package-level function of the
    scope whose return type is the type of the [Type] it hangs on, with
    the documentation looked up under that type's name. *)
Theorem constructors_are_promoted_functions ords tp d p' :
  NoDup (names (tp_scope tp)) →
  NewPackage ords tp d = Ok p' →
  ∀ t' c, t' ∈ p_types p' → c ∈ t_ctors t' →
    f_ctor c = true ∧
    ∃ i s f doc,
      OFunc i s ∈ tp_scope tp ∧ o_exported i = true ∧
      newFuncFrom d "" (OFunc i s) s = Ok f ∧
      f_ret f = Some (Type_GoType t') ∧
      getDoc d (o_name (t_obj t')) (OFunc i s) = Ok doc ∧
      c = as_ctor f doc.
Proof.
  intros Hnd Hnew t' c Ht' Hc.
  destruct (process_constructors_only _ _ _ _ Hnd Hnew t' c Ht' Hc)
    as (i & s & f & doc & Hi & Hex & Hf & Hret & Hdoc & ->).
  split; [done|]. by exists i, s, f, doc.
Qed.

(** X8: what stays a free function.  In a returned package the names in
    the function list are pairwise distinct, and a [Func] is in the list
    exactly when it is the analyzer's [Func] of an exported package-level
    function whose return type is the type of no exported type name of
    the scope. *)
Theorem free_functions_characterised ords tp d p' :
  NoDup (names (tp_scope tp)) →
  orders_cover ords tp →
  NewPackage ords tp d = Ok p' →
  NoDup (f_name <$> p_funcs p') ∧
  ∀ f, f ∈ p_funcs p' ↔
    ∃ i s, OFunc i s ∈ tp_scope tp ∧ o_exported i = true ∧
      newFuncFrom d "" (OFunc i s) s = Ok f ∧
      ∀ ti tt ty, OTypeName ti tt ∈ tp_scope tp → o_exported ti = true →
        newType d ti tt = Ok ty → f_ret f ≠ Some (Type_GoType ty).
Proof. apply funcs_inv. Qed.

(** X9: the range order moves functions around, nothing more.  Two
    returned packages of the same input, under any two choices of the
    map range orders, have the same free functions: each function list is
    a permutation of the other. *)
Theorem function_list_permutes_across_orders ords1 ords2 tp d p1 p2 :
  NoDup (names (tp_scope tp)) →
  orders_cover ords1 tp → orders_cover ords2 tp →
  NewPackage ords1 tp d = Ok p1 →
  NewPackage ords2 tp d = Ok p2 →
  p_funcs p1 ≡ₚ p_funcs p2.
Proof.
  intros Hnd Ho1 Ho2 H1 H2.
  destruct (funcs_inv _ _ _ _ Hnd Ho1 H1) as [Hn1 Hi1].
  destruct (funcs_inv _ _ _ _ Hnd Ho2 H2) as [Hn2 Hi2].
  apply NoDup_Permutation.
  - by eapply NoDup_fmap_1.
  - by eapply NoDup_fmap_1.
  - intros f. by rewrite Hi1, Hi2.
Qed.

(** X10: constants, variables and the object count do not depend on any
    map range.  In a returned package [n] is the number of exported
    objects of the scope, the variable list holds one [Var] per exported
    variable and the constant list one [Const] per exported constant, both
    in the order of the scope. *)
Theorem values_follow_scope_order ords tp d p' :
  NewPackage ords tp d = Ok p' →
  p_n p' = Z.of_nat (length (Objects.exported_objects (tp_scope tp))) ∧
  p_vars p' = ((λ e, newVarFrom (MkTVar (o_name e.1) e.2))
                 <$> Objects.exported_vars (tp_scope tp)) ∧
  Forall2 (λ e c, newConst d e.1 e.2 = Ok c)
          (Objects.exported_consts (tp_scope tp)) (p_consts p').
Proof.
  intros Hnew.
  apply NewPackage_inv in Hnew as (st & p3 & funcs3 & Hst & Hrounds & ->).
  apply classify_values in Hst as (Hn & _ & Hv & cs & Hc & Hcs).
  simpl in Hn, Hv, Hc, Hcs.
  destruct (rounds_types _ _ _ _ _ _ _ _ Hrounds) as (Hc3 & Hv3 & Hn3 & _).
  destruct (addFunc_frame (range_map (ord_funcs ords) funcs3).*2 p3)
    as (-> & -> & ->).
  rewrite Hc3, Hv3, Hn3, Hn, Hv, Hc. done.
Qed.

(** X11: one [Type] per exported type name.  In a returned package every
    exported type name of the scope has a [Type] carrying its object and
    the Go type of its symbol, every [Type] of the package belongs to
    such a name, and no two [Type]s belong to the same name. *)
Theorem types_match_exported_type_names ords tp d p' :
  NoDup (names (tp_scope tp)) →
  orders_cover ords tp →
  NewPackage ords tp d = Ok p' →
  (∀ ti tt, OTypeName ti tt ∈ tp_scope tp → o_exported ti = true →
     ∃ t' sym0, t' ∈ p_types p' ∧ t_obj t' = ti ∧
                symtype tt = Some sym0 ∧ Type_GoType t' = s_gotyp sym0) ∧
  (∀ t', t' ∈ p_types p' →
     ∃ tt sym0, OTypeName (t_obj t') tt ∈ tp_scope tp ∧
                o_exported (t_obj t') = true ∧
                symtype tt = Some sym0 ∧ Type_GoType t' = s_gotyp sym0) ∧
  NoDup ((λ t', o_name (t_obj t')) <$> p_types p').
Proof.
  intros Hnd (Hot & _ & _) Hnew.
  destruct (types_inv _ _ _ _ Hnd Hnew) as (L & HL & HLnd & Hall).
  split; [|split].
  - intros ti tt Hti Hex.
    assert (Hnt : ∃ t0, (o_name ti, t0) ∈ L) .
    { apply NewPackage_inv in Hnew as (st & p3 & funcs3 & Hst & _ & _).
      apply classify_fold in Hst as (_ & _ & _ & Htc & _ & _); [|done].
      destruct (Htc ti tt Hti Hex) as (t0 & Ht0 & _). exists t0.
      apply HL. split.
      - apply Hot. unfold names. apply list_elem_of_fmap.
        by exists (OTypeName ti tt).
      - by exists ti, tt. }
    destruct Hnt as [t0 Hin].
    destruct (Forall2_elem_of_l _ _ _ _ Hall Hin)
      as (t' & Ht' & Hsym & Hobj & _). simpl in *.
    apply HL in Hin as [_ (ti' & tt' & Hti' & _ & Hname & Hnt)].
    assert (Heq : OTypeName ti' tt' = OTypeName ti tt).
    { pose proof (scope_lookup_unique _ _ Hnd Hti) as H1.
      pose proof (scope_lookup_unique _ _ Hnd Hti') as H2.
      simpl in H1, H2. rewrite Hname in H2. congruence. }
    injection Heq as -> ->.
    destruct (newType_inv _ _ _ _ Hnt) as (Hobj0 & _ & _ & sym0 & Hs & Hg).
    exists t', sym0. split; [done|]. split; [congruence|]. split; [done|].
    unfold Type_GoType in *. by rewrite Hsym.
  - intros t' Ht'.
    destruct (Forall2_elem_of_r _ _ _ _ Hall Ht')
      as ([k t0] & Hin & Hsym & Hobj & _). simpl in *.
    apply HL in Hin as [_ (ti & tt & Hti & Hex & Hname & Hnt)].
    destruct (newType_inv _ _ _ _ Hnt) as (Hobj0 & _ & _ & sym0 & Hs & Hg).
    exists tt, sym0. rewrite Hobj, Hobj0. repeat (split; [done|]).
    unfold Type_GoType in *. by rewrite Hsym.
  - assert (Hk : (λ t', o_name (t_obj t')) <$> p_types p' = L.*1).
    { clear HL HLnd. induction Hall as [|[k t0] t' L ts HR _ IH]; [done|].
      rewrite !fmap_cons. f_equal; [by destruct HR as (_ & _ & ? & _)|exact IH]. }
    rewrite Hk. apply HLnd, Hot.
Qed.

(** X12: method attachment.  In a returned package every [Type] holds, in
    the order of the method set of its Go type, the analyzer's [Func] of
    each exported method, built with the type's name as owning scope, and
    none for an unexported method; its protocol set is [ProtoStringer]
    when one of these methods is a stringer and empty otherwise. *)
Theorem methods_attached_in_order ords tp d p' :
  NoDup (names (tp_scope tp)) →
  NewPackage ords tp d = Ok p' →
  ∀ t', t' ∈ p_types p' →
    Forall2 (λ m f, newFuncFrom d (o_name (t_obj t')) m.1 m.2 = Ok f)
      (Objects.exported_methods (tp_methods tp (Type_GoType t')))
      (t_meths t') ∧
    t_prots t' =
      if existsb isStringer
           (Objects.exported_methods (tp_methods tp (Type_GoType t'))).*1
      then ProtoStringer else 0.
Proof.
  intros Hnd Hnew t' Ht'.
  destruct (types_inv _ _ _ _ Hnd Hnew) as (L & _ & _ & Hall).
  destruct (Forall2_elem_of_r _ _ _ _ Hall Ht')
    as ([k t0] & _ & _ & _ & Hname & Hms & Hp). simpl in *.
  by rewrite Hname.
Qed.

(** X13: no package with an unsupported signature comes out.  When the
    pipeline returns a package, every exported package-level function of
    the scope, and every exported method of every exported type name, has
    at most two results, and with two results the second is of the error
    type. *)
Theorem returned_package_obeys_arity ords tp d p' :
  NoDup (names (tp_scope tp)) →
  orders_cover ords tp →
  NewPackage ords tp d = Ok p' →
  (∀ i s, OFunc i s ∈ tp_scope tp → o_exported i = true →
     (length (ts_results s) ≤ 2)%nat ∧
     ∀ r0 r1, ts_results s = [r0; r1] → isErrorType (tv_type r1) = true) ∧
  (∀ ti tt sym0 mobj msig,
     OTypeName ti tt ∈ tp_scope tp → o_exported ti = true →
     symtype tt = Some sym0 →
     (mobj, msig) ∈ tp_methods tp (s_gotyp sym0) →
     o_exported (info mobj) = true →
     (length (ts_results msig) ≤ 2)%nat ∧
     ∀ r0 r1, ts_results msig = [r0; r1] → isErrorType (tv_type r1) = true).
Proof.
  intros Hnd Hcov Hnew. split.
  - intros i s Hi Hex.
    apply NewPackage_inv in Hnew as (st & p3 & funcs3 & Hst & _ & _).
    apply classify_fold in Hst as (_ & _ & Hfc & _); [|done].
    destruct (Hfc i s Hi Hex) as (f & Hf & _).
    destruct (newFuncFrom_inv _ _ _ _ _ _ _ Hf) as (doc & Ha & _).
    by eapply resultArity_shape.
  - intros ti tt sym0 mobj msig Hti Hex Hsym Hm Hmex.
    destruct (types_inv _ _ _ _ Hnd Hnew) as (L & HL & _ & Hall).
    assert (Hnt : ∃ t0, (o_name ti, t0) ∈ L ∧ newType d ti tt = Ok t0).
    { apply NewPackage_inv in Hnew as (st & p3 & funcs3 & Hst & _ & _).
      apply classify_fold in Hst as (_ & _ & _ & Htc & _ & _); [|done].
      destruct (Htc ti tt Hti Hex) as (t0 & Ht0 & _). exists t0.
      split; [|done]. apply HL. split.
      - apply Hcov. unfold names. apply list_elem_of_fmap.
        by exists (OTypeName ti tt).
      - by exists ti, tt. }
    destruct Hnt as (t0 & Hin & Hnt).
    destruct (Forall2_elem_of_l _ _ _ _ Hall Hin)
      as (t' & Ht' & Hs' & _ & _ & Hms & _). simpl in *.
    destruct (newType_inv _ _ _ _ Hnt) as (_ & _ & _ & sym1 & Hs1 & Hg).
    assert (sym1 = sym0) as -> by congruence.
    assert (HT : Type_GoType t' = s_gotyp sym0)
      by (unfold Type_GoType in *; by rewrite Hs').
    rewrite HT in Hms.
    assert (Hin' : (mobj, msig)
              ∈ Objects.exported_methods (tp_methods tp (s_gotyp sym0))).
    { unfold Objects.exported_methods. apply list_elem_of_In, filter_In.
      split; [by apply list_elem_of_In|done]. }
    destruct (Forall2_elem_of_l _ _ _ _ Hms Hin') as (f & _ & Hf).
    simpl in Hf.
    destruct (newFuncFrom_inv _ _ _ _ _ _ _ Hf) as (doc & Ha & _).
    by eapply resultArity_shape.
Qed.

(** X14: [Lookup] finds what the package holds.  In a returned package
    every free function is found under its name; a [Func] that [Lookup]
    returns is a free function of the package with the name asked for
    (so a promoted constructor is never found), and a [Type] it returns
    is a [Type] of the package whose Go name is the name asked for. *)
Theorem Lookup_returns_package_members ords tp d p' :
  NoDup (names (tp_scope tp)) →
  orders_cover ords tp →
  NewPackage ords tp d = Ok p' →
  (∀ f o, f ∈ p_funcs p' → o_name (info o) = f_name f →
          Objects.Lookup p' o = Some (ObjFunc f)) ∧
  (∀ o f, Objects.Lookup p' o = Some (ObjFunc f) →
          f ∈ p_funcs p' ∧ f_name f = o_name (info o)) ∧
  (∀ o t, Objects.Lookup p' o = Some (ObjType t) →
          t ∈ p_types p' ∧ Type_GoName t = o_name (info o)).
Proof.
  intros Hnd Hcov Hnew.
  destruct (funcs_inv _ _ _ _ Hnd Hcov Hnew) as [Hfnd _].
  apply NewPackage_inv in Hnew as (st & p3 & funcs3 & Hst & Hrounds & ->).
  destruct (classify_values _ _ _ Hst) as (_ & Hobjs & _). simpl in Hobjs.
  apply classify_fold in Hst as (Hcore & _); [|done].
  destruct Hcore as (_ & _ & Hct & Hcf). simpl in Hct, Hcf.
  destruct (rounds_types _ _ _ _ _ _ _ _ Hrounds)
    as (_ & _ & _ & ts & Hty & Ho3 & _).
  rewrite Hobjs in Ho3. rewrite Hct in Hty. simpl in Hty.
  pose proof (rounds_funcs _ _ _ _ _ _ _ _ Hrounds) as Hf3.
  rewrite Hcf in Hf3. simpl in Hf3.
  set (fs := (range_map (ord_funcs ords) funcs3).*2) in *.
  destruct (addFunc_fold fs p3) as [Hpt Hpf].
  rewrite Hpt, Hpf, Hf3, Hty in *. simpl in *. unfold Objects.Lookup.
  split; [|split].
  - intros f o Hf Hname. rewrite Hname.
    destruct (addFunc_objs fs p3 (f_name f)) as [(g & Hg & Hk & Hl)|[Hno _]].
    + rewrite Hl. by rewrite (fmap_inj_on f_name fs g f Hfnd Hg Hf Hk).
    + by destruct (Hno f Hf).
  - intros o f Hl.
    destruct (addFunc_objs fs p3 (o_name (info o)))
      as [(g & Hg & Hk & Hl')|[_ Hl']]; rewrite Hl' in Hl.
    + by injection Hl as <-.
    + rewrite Ho3 in Hl.
      apply (addType_objs ts ∅ (o_name (info o))) in Hl.
      by rewrite lookup_empty in Hl.
  - intros o t Hl.
    destruct (addFunc_objs fs p3 (o_name (info o)))
      as [(g & Hg & Hk & Hl')|[_ Hl']]; rewrite Hl' in Hl; [done|].
    rewrite Ho3 in Hl.
    apply (addType_objs ts ∅ (o_name (info o))) in Hl as [?|Hl]; [done|].
    by rewrite lookup_empty in Hl.
Qed.

End Process.

(** C5 (as stated, refuted): on [package foo], the pipeline leaves no free
    function and gives [Foo] exactly one constructor, [NewFoo], but the
    constructor does not carry the documentation the function had: that
    was the signature line alone, and the constructor's is the signature
    line followed by the entry found under [Foo] in the index. *)
Lemma NewFoo_doc_not_carried_over :
  ∃ f p' t c,
    Bind.newFuncFrom Demo.symtype Demo.newVarFrom Demo.foo_doc ""
      (OFunc Demo.NewFoo_obj Demo.NewFoo_sig) Demo.NewFoo_sig = Ok f ∧
    Bind.NewPackage Demo.symtype Demo.universe_string Demo.newVarFrom
      Demo.newVar Demo.isStringer Demo.named_syms Demo.method_sym
      Demo.foo_orders Demo.foo_pkg Demo.foo_doc = Ok p' ∧
    p_funcs p' = [] ∧ p_types p' = [t] ∧ t_ctors t = [c] ∧
    f_name c = "NewFoo" ∧ f_ctor c = true ∧
    f_doc f = "NewFoo() Foo, error" ∧
    f_doc c = "NewFoo() Foo, error" +:+ nl +:+ nl +:+ "NewFoo makes a Foo." ∧
    f_doc c ≠ f_doc f.
Proof.
  eexists _, _, _, _.
  split; [vm_compute; reflexivity|].
  split; [vm_compute; reflexivity|].
  repeat split. discriminate.
Qed.

Lemma foo_orders_cover : orders_cover Demo.foo_orders Demo.foo_pkg.
Proof.
  assert (H : covers ["Foo"; "NewFoo"] Demo.foo_pkg).
  { split; [compute_done|done]. }
  repeat split; try apply H.
Qed.

Lemma process_promotes_constructors_witness :
  ∃ p' t' c,
    Bind.NewPackage Demo.symtype Demo.universe_string Demo.newVarFrom
      Demo.newVar Demo.isStringer Demo.named_syms Demo.method_sym
      Demo.foo_orders Demo.foo_pkg Demo.foo_doc = Ok p' ∧
    (∀ g, g ∈ p_funcs p' → f_name g ≠ "NewFoo") ∧
    p_funcs p' = [] ∧ p_types p' = [t'] ∧ Type_GoType t' = Demo.Foo ∧
    t_ctors t' = [c] ∧ f_name c = "NewFoo" ∧ f_ctor c = true.
Proof.
  eexists _, _, _.
  assert (Hnd : NoDup (names (tp_scope Demo.foo_pkg))) by compute_done.
  split; [vm_compute; reflexivity|]. split.
  - apply (process_promotes_constructors
             Demo.symtype Demo.universe_string Demo.newVarFrom Demo.newVar
             Demo.isStringer Demo.named_syms Demo.method_sym
             Demo.foo_orders Demo.foo_pkg Demo.foo_doc _
             Hnd foo_orders_cover eq_refl
             Demo.NewFoo_obj Demo.NewFoo_sig _ Demo.Foo_obj Demo.Foo _
             ltac:(cbn; right; left) eq_refl eq_refl ltac:(cbn; left) eq_refl
             eq_refl eq_refl).
  - repeat split.
Defined.


(** *** The pipeline on [package foo] with every kind of object, and on
    [package ab] under two range orders *)

Lemma zoo_names_NoDup : NoDup (names (tp_scope Zoo.pkg)).
Proof. compute_done. Qed.

Lemma zoo_orders_cover : orders_cover Zoo.orders Zoo.pkg.
Proof.
  assert (H : covers Zoo.scope_names Zoo.pkg).
  { split; [compute_done|done]. }
  repeat split; try apply H.
Qed.

Lemma zoo_run : Zoo.pipeline Zoo.orders = Ok Zoo.out.
Proof. vm_compute. reflexivity. Qed.

Lemma ab_names_NoDup : NoDup (names (tp_scope Demo.ab_pkg)).
Proof. compute_done. Qed.

Lemma ab_orders_cover : orders_cover Demo.ab_orders Demo.ab_pkg.
Proof.
  assert (H : covers ["A"; "B"] Demo.ab_pkg).
  { split; [compute_done|done]. }
  repeat split; try apply H.
Qed.

Lemma ba_orders_cover : orders_cover Demo.ba_orders Demo.ab_pkg.
Proof.
  assert (H : covers ["A"; "B"] Demo.ab_pkg).
  { split; [compute_done|done]. }
  assert (H' : covers ["B"; "A"] Demo.ab_pkg).
  { split; [compute_done|]. intros k Hk. simpl in Hk.
    apply elem_of_cons in Hk as [->|Hk]; [compute_done|].
    apply elem_of_cons in Hk as [->|Hk]; [compute_done|].
    by apply elem_of_nil in Hk. }
  repeat split; try apply H; apply H'.
Qed.

Lemma ab_run : Zoo.pipeline_ab Demo.ab_orders = Ok Zoo.ab_out.
Proof. vm_compute. reflexivity. Qed.

Lemma ba_run : Zoo.pipeline_ab Demo.ba_orders = Ok Zoo.ba_out.
Proof. vm_compute. reflexivity. Qed.

Lemma constructors_are_promoted_functions_witness :
  ∃ t' c,
    p_types Zoo.out = [t'] ∧ t_ctors t' = [c] ∧
    f_name c = "NewFoo" ∧ f_ctor c = true.
Proof.
  eexists _, _.
  split; [reflexivity|]. split; [reflexivity|]. split; [reflexivity|].
  refine (proj1 (constructors_are_promoted_functions
    Demo.symtype Demo.universe_string Demo.newVarFrom Demo.newVar
    Zoo.isStringer Demo.named_syms Demo.method_sym
    Zoo.orders Zoo.pkg Demo.foo_doc Zoo.out zoo_names_NoDup zoo_run
    _ _ _ _)); cbn; left.
Defined.

Lemma free_functions_characterised_witness :
  NoDup (f_name <$> p_funcs Zoo.out).
Proof.
  exact (proj1 (free_functions_characterised
    Demo.symtype Demo.universe_string Demo.newVarFrom Demo.newVar
    Zoo.isStringer Demo.named_syms Demo.method_sym
    Zoo.orders Zoo.pkg Demo.foo_doc Zoo.out
    zoo_names_NoDup zoo_orders_cover zoo_run)).
Defined.

Lemma function_list_permutes_across_orders_witness :
  f_name <$> p_funcs Zoo.ab_out = ["A"; "B"] ∧
  f_name <$> p_funcs Zoo.ba_out = ["B"; "A"] ∧
  p_funcs Zoo.ab_out ≡ₚ p_funcs Zoo.ba_out.
Proof.
  split; [reflexivity|]. split; [reflexivity|].
  exact (function_list_permutes_across_orders
    Demo.symtype Demo.universe_string Demo.newVarFrom Demo.newVar
    Demo.isStringer Demo.named_syms Demo.method_sym
    Demo.ab_orders Demo.ba_orders Demo.ab_pkg Demo.no_doc
    Zoo.ab_out Zoo.ba_out
    ab_names_NoDup ab_orders_cover ba_orders_cover ab_run ba_run).
Defined.

Lemma values_follow_scope_order_witness :
  p_n Zoo.out = 5 ∧ v_name <$> p_vars Zoo.out = ["Debug"].
Proof.
  destruct (values_follow_scope_order
    Demo.symtype Demo.universe_string Demo.newVarFrom Demo.newVar
    Zoo.isStringer Demo.named_syms Demo.method_sym
    Zoo.orders Zoo.pkg Demo.foo_doc Zoo.out zoo_run) as (Hn & Hv & _).
  split; [exact Hn|]. rewrite Hv. reflexivity.
Defined.

Lemma types_match_exported_type_names_witness :
  NoDup ((λ t', o_name (t_obj t')) <$> p_types Zoo.out).
Proof.
  exact (proj2 (proj2 (types_match_exported_type_names
    Demo.symtype Demo.universe_string Demo.newVarFrom Demo.newVar
    Zoo.isStringer Demo.named_syms Demo.method_sym
    Zoo.orders Zoo.pkg Demo.foo_doc Zoo.out
    zoo_names_NoDup zoo_orders_cover zoo_run))).
Defined.

Lemma methods_attached_in_order_witness :
  ∃ t' m,
    p_types Zoo.out = [t'] ∧ t_meths t' = [m] ∧
    f_name m = "String" ∧ f_id m = "foo_Foo_String" ∧
    t_prots t' = ProtoStringer.
Proof.
  eexists _, _.
  split; [reflexivity|]. split; [reflexivity|]. split; [reflexivity|].
  split; [reflexivity|].
  refine (proj2 (methods_attached_in_order
    Demo.symtype Demo.universe_string Demo.newVarFrom Demo.newVar
    Zoo.isStringer Demo.named_syms Demo.method_sym
    Zoo.orders Zoo.pkg Demo.foo_doc Zoo.out zoo_names_NoDup zoo_run
    _ _)); cbn; left.
Defined.

Lemma returned_package_obeys_arity_witness :
  (length (ts_results Demo.NewFoo_sig) ≤ 2)%nat ∧
  ∀ r0 r1, ts_results Demo.NewFoo_sig = [r0; r1] →
           isErrorType (tv_type r1) = true.
Proof.
  refine (proj1 (returned_package_obeys_arity
    Demo.symtype Demo.universe_string Demo.newVarFrom Demo.newVar
    Zoo.isStringer Demo.named_syms Demo.method_sym
    Zoo.orders Zoo.pkg Demo.foo_doc Zoo.out
    zoo_names_NoDup zoo_orders_cover zoo_run)
    Demo.NewFoo_obj Demo.NewFoo_sig _ eq_refl).
  cbn. do 3 right. left.
Defined.

Lemma Lookup_returns_package_members_witness :
  ∃ f,
    p_funcs Zoo.out = [f] ∧
    Objects.Lookup Zoo.out (OFunc Demo.Hello_obj Zoo.Hello_sig)
    = Some (ObjFunc f).
Proof.
  eexists. split; [reflexivity|].
  apply (proj1 (Lookup_returns_package_members
    Demo.symtype Demo.universe_string Demo.newVarFrom Demo.newVar
    Zoo.isStringer Demo.named_syms Demo.method_sym
    Zoo.orders Zoo.pkg Demo.foo_doc Zoo.out
    zoo_names_NoDup zoo_orders_cover zoo_run)).
  - cbn. left.
  - reflexivity.
Defined.


End ProcessFacts.

(** ** Facts about the emitters *)
Module EmitFacts.
Import Bind Emit BindFacts.

Lemma elem_of_concat {A} (x : A) (ls : list (list A)) :
  x ∈ concat ls ↔ ∃ l, x ∈ l ∧ l ∈ ls.
Proof.
  induction ls as [|l0 ls IH]; simpl.
  - split; [by intros ?%elem_of_nil|]. intros (l & _ & H).
    by apply elem_of_nil in H.
  - rewrite elem_of_app, IH. split.
    + intros [H|(l & Hx & Hl)].
      * exists l0. split; [done|by left].
      * exists l. split; [done|by right].
    + intros (l & Hx & Hl). apply elem_of_cons in Hl as [->|Hl]; [by left|].
      right. by exists l.
Qed.

Section CPyEmitter.

Context (symtype : GoType → option symbol).
Context (newVarFrom : TVar → Var).
Context (quote : string → string).
Context (genRecvDecl genDecl genRetDecl genRecvImpl genFuncPreamble
         : Var → list ev).
Context (getFuncArg : Var → string).
Context (getArgParse getArgBuildValue : Var → string * list string).

Abbreviation newFuncFrom := (Bind.newFuncFrom symtype newVarFrom).
Abbreviation before_call :=
  (CPy.before_call quote genRecvDecl genDecl genRetDecl genRecvImpl
                   genFuncPreamble getArgParse).
Abbreviation call_of := (CPy.call_of getFuncArg).
Abbreviation genFuncBody :=
  (CPy.genFuncBody quote genRecvDecl genDecl genRetDecl genRecvImpl
                   genFuncPreamble getFuncArg getArgParse getArgBuildValue).
Abbreviation new_object := CPy.new_object.
Abbreviation genStructInit := (CPy.genStructInit quote).
Abbreviation module_methods := (CPy.module_methods quote).





(** C10: whatever constructors a wrapped struct type has, the [tp_init]
    that [genStructInit] writes consists of its header and keyword
    declarations followed by one fixed check; that check, run on the
    argument tuple and keyword dictionary of a call, sets a [TypeError]
    reading "<type>.__init__ takes no argument" and returns [-1] exactly
    when their sizes sum to more than zero, and returns [0] with no error
    set otherwise.  The constructors get their entries in the method table
    of the module, and the method table of the type is the same with and
    without them. *)
Theorem genStructInit_takes_no_argument pkgname ord1 ord2 cpy :
  (∃ pre, CPy.impl (genStructInit pkgname ord1 ord2 cpy)
          = pre ++ CPy.init_check (Type_GoName cpy) ∧
          Forall (CPy.init_decl quote) pre) ∧
  (∀ args kwds : option Z,
     (0 < default 0 args + default 0 kwds →
      CPy.tp_init (Type_GoName cpy) args kwds
      = CPy.MkInitResult (-1)
          (Some ("PyExc_TypeError",
                 Type_GoName cpy +:+ ".__init__ takes no argument"))) ∧
     (default 0 args + default 0 kwds ≤ 0 →
      CPy.tp_init (Type_GoName cpy) args kwds = CPy.MkInitResult 0 None)) ∧
  (∀ structs funcs c, cpy ∈ structs → c ∈ t_ctors cpy →
     CPy.method_entry quote (f_name c) ("cpy_func_" +:+ f_id c) (f_doc c)
     ∈ module_methods structs funcs) ∧
  (∀ ctors, CPy.struct_methods quote (with_ctors cpy ctors)
            = CPy.struct_methods quote cpy).
Proof.
  split; [|split; [|split]]; [| | |done].
  - eexists. split.
    + unfold CPy.genStructInit, CPy.init_check. cbn [CPy.impl].
      rewrite !app_assoc. reflexivity.
    + repeat (apply Forall_app; split); repeat apply Forall_cons_2;
        try apply Forall_nil_2; try apply Forall_fmap, Forall_true;
        try (intros [k n]; simpl); constructor.
  - intros args kwds. unfold CPy.tp_init.
    replace (match kwds with Some n => n | None => 0 end + _)
      with (default 0 args + default 0 kwds)
      by (destruct args, kwds; simpl; lia).
    split; intros H.
    + by rewrite (proj2 (Z.ltb_lt _ _) H).
    + by rewrite (proj2 (Z.ltb_ge _ _) H).
  - intros structs funcs c Hs Hc. unfold CPy.module_methods.
    apply elem_of_app. right. apply elem_of_concat.
    eexists. split; [|apply list_elem_of_fmap; by exists cpy].
    apply list_elem_of_fmap. by exists c.
Qed.

End CPyEmitter.


Lemma genStructInit_takes_no_argument_witness :
  CPy.tp_init "Foo" (Some 1) None
  = CPy.MkInitResult (-1)
      (Some ("PyExc_TypeError", "Foo.__init__ takes no argument")) ∧
  CPy.tp_init "Foo" (Some 0) None = CPy.MkInitResult 0 None.
Proof.
  pose proof (genStructInit_takes_no_argument (λ s, dq +:+ s +:+ dq)
                "foo" [] [] Demo.Foo_struct) as (_ & H & _).
  split.
  - apply (H (Some 1) None); simpl; lia.
  - apply (H (Some 0) None); simpl; lia.
Defined.

(** C8 (the code departs from it): the pipeline and the cgo emitter, run
    twice on [package ab], print different text when the final range over
    the map [funcs] yields [A] first in one run and [B] first in the
    other; both are orders a range over that map may take. *)
Lemma gen_depends_on_range_order :
  ∃ p1 p2,
    orders_cover Demo.ab_orders Demo.ab_pkg ∧
    orders_cover Demo.ba_orders Demo.ab_pkg ∧
    Bind.NewPackage Demo.symtype Demo.universe_string Demo.newVarFrom
      Demo.newVar Demo.isStringer Demo.named_syms Demo.method_sym
      Demo.ab_orders Demo.ab_pkg Demo.no_doc = Ok p1 ∧
    Bind.NewPackage Demo.symtype Demo.universe_string Demo.newVarFrom
      Demo.newVar Demo.isStringer Demo.named_syms Demo.method_sym
      Demo.ba_orders Demo.ab_pkg Demo.no_doc = Ok p2 ∧
    f_id <$> p_funcs p1 = ["ab_A"; "ab_B"] ∧
    f_id <$> p_funcs p2 = ["ab_B"; "ab_A"] ∧
    text (Demo.go_gen p1) ≠ text (Demo.go_gen p2).
Proof.
  assert (Hab : covers ["A"; "B"] Demo.ab_pkg).
  { split; [compute_done|done]. }
  assert (Hba : covers ["B"; "A"] Demo.ab_pkg).
  { split; [compute_done|]. intros k Hk.
    apply elem_of_cons in Hk as [->|Hk]; [compute_done|].
    apply elem_of_cons in Hk as [->|Hk]; [compute_done|].
    by apply elem_of_nil in Hk. }
  eexists _, _.
  split; [split; [exact Hab|split; [intros ?; exact Hab|exact Hab]]|].
  split; [split; [exact Hab|split; [intros ?; exact Hab|exact Hba]]|].
  split; [vm_compute; reflexivity|]. split; [vm_compute; reflexivity|].
  split; [reflexivity|]. split; [reflexivity|].
  vm_compute. discriminate.
Qed.

End EmitFacts.

(** ** More on the CPython emitter: the unsupported-arity panic and the
    keyword numbering of [genStructInit] *)
Module EmitMore.
Import Bind Emit Keywords BindFacts EmitFacts AnalyzerFacts.

Section CPyEmitter.

Context (symtype : GoType → option symbol).
Context (newVarFrom : TVar → Var).
Context (quote : string → string).
Context (genRecvDecl genDecl genRetDecl genRecvImpl genFuncPreamble
         : Var → list ev).
Context (getFuncArg : Var → string).
Context (getArgParse getArgBuildValue : Var → string * list string).

Abbreviation newFuncFrom := (Bind.newFuncFrom symtype newVarFrom).
Abbreviation genFuncBody :=
  (CPy.genFuncBody quote genRecvDecl genDecl genRetDecl genRecvImpl
                   genFuncPreamble getFuncArg getArgParse getArgBuildValue).

(** *** The keyword map *)

Lemma add_kwd_numbered m a :
  numbered m → numbered (CPy.add_kwd m a) ∧
  (∀ k, is_Some (CPy.add_kwd m a !! k) ↔ is_Some (m !! k) ∨ k = v_name a).
Proof.
  intros (Hlt & Hinj & Hsur). unfold CPy.add_kwd.
  destruct (m !! v_name a) as [n0|] eqn:E.
  - split; [done|]. intros k. split; [by left|].
    intros [?| ->]; [done|]. by rewrite E.
  - split; [split; [|split]|].
    + intros k n. rewrite map_size_insert_None by done.
      destruct (decide (k = v_name a)) as [->|Hne].
      * rewrite lookup_insert_eq. intros [= <-]. lia.
      * rewrite lookup_insert_ne by done. intros H. apply Hlt in H. lia.
    + intros k1 k2 n.
      destruct (decide (k1 = v_name a)) as [->|Hne1];
        destruct (decide (k2 = v_name a)) as [->|Hne2]; try done.
      * rewrite lookup_insert_eq, lookup_insert_ne by done.
        intros [= <-] H. apply Hlt in H. lia.
      * rewrite lookup_insert_eq, lookup_insert_ne by done.
        intros H [= <-]. apply Hlt in H. lia.
      * rewrite !lookup_insert_ne by done. apply Hinj.
    + intros n. rewrite map_size_insert_None by done. intros Hn.
      destruct (decide (n = size m)) as [->|Hne].
      * exists (v_name a). by rewrite lookup_insert_eq.
      * destruct (Hsur n) as [k Hk]; [lia|]. exists k.
        rewrite lookup_insert_ne; [done|]. intros <-. congruence.
    + intros k. destruct (decide (k = v_name a)) as [->|Hne].
      * rewrite lookup_insert_eq. split; [by right|eauto].
      * rewrite lookup_insert_ne by done. split; [by left|].
        by intros [?|?].
Qed.

Lemma add_kwds_numbered args : ∀ m,
  numbered m →
  numbered (foldl CPy.add_kwd m args) ∧
  (∀ k, is_Some (foldl CPy.add_kwd m args !! k) ↔
        is_Some (m !! k) ∨ ∃ a, a ∈ args ∧ v_name a = k).
Proof.
  induction args as [|a args IH]; intros m Hm; simpl.
  - split; [done|]. intros k. split; [by left|].
    intros [?|(a & Ha & _)]; [done|]. by apply elem_of_nil in Ha.
  - destruct (add_kwd_numbered m a Hm) as [Hm1 Hk1].
    destruct (IH _ Hm1) as [Hm2 Hk2]. split; [done|].
    intros k. rewrite Hk2, Hk1. split.
    + intros [[?| ->]|(a' & Ha' & ?)]; [by left| |].
      * right. exists a. split; [by left|done].
      * right. exists a'. split; [by right|done].
    + intros [?|(a' & Ha' & Hn)]; [by left; left|].
      apply elem_of_cons in Ha' as [->|Ha']; [by left; right|].
      right. by exists a'.
Qed.

Lemma ctor_kwds_numbered ctors : ∀ m,
  numbered m →
  numbered (foldl (λ kwds ctor, foldl CPy.add_kwd kwds (sg_args (f_sig ctor)))
                  m ctors) ∧
  (∀ k, is_Some (foldl (λ kwds ctor,
                          foldl CPy.add_kwd kwds (sg_args (f_sig ctor)))
                       m ctors !! k) ↔
        is_Some (m !! k) ∨
        ∃ c a, c ∈ ctors ∧ a ∈ sg_args (f_sig c) ∧ v_name a = k).
Proof.
  induction ctors as [|c ctors IH]; intros m Hm; simpl.
  - split; [done|]. intros k. split; [by left|].
    intros [?|(c & a & Hc & _)]; [done|]. by apply elem_of_nil in Hc.
  - destruct (add_kwds_numbered (sg_args (f_sig c)) m Hm) as [Hm1 Hk1].
    destruct (IH _ Hm1) as [Hm2 Hk2]. split; [done|].
    intros k. rewrite Hk2, Hk1. split.
    + intros [[?|(a & Ha & ?)]|(c' & a & Hc' & ?)]; [by left| |].
      * right. exists c, a. split; [by left|done].
      * right. exists c', a. split; [by right|done].
    + intros [?|(c' & a & Hc' & Ha & Hn)]; [by left; left|].
      apply elem_of_cons in Hc' as [->|Hc'].
      * left. right. by exists a.
      * right. by exists c', a.
Qed.

Lemma numbered_empty : numbered (∅ : gmap string nat).
Proof.
  split; [|split].
  - intros k n H. by rewrite lookup_empty in H.
  - intros k1 k2 n H. by rewrite lookup_empty in H.
  - intros n. rewrite map_size_empty. lia.
Qed.

(** X18: the keywords of [genStructInit] are numbered without gaps or
    repeats.  The map it builds from the constructors has exactly the
    parameter names of the constructors as keys; its numbers are exactly
    those below its size, each under one name; so the declarations
    [PyObject *py_kwd_N = NULL;] written from a range over it declare no
    variable twice. *)
Theorem genStructInit_keywords_numbered (ctors : list Func) (ord : list string) :
  NoDup ord →
  let kwds := CPy.ctor_kwds ctors in
  (∀ k, is_Some (kwds !! k) ↔
        ∃ c a, c ∈ ctors ∧ a ∈ sg_args (f_sig c) ∧ v_name a = k) ∧
  (∀ k n, kwds !! k = Some n → (n < size kwds)%nat) ∧
  (∀ k1 k2 n, kwds !! k1 = Some n → kwds !! k2 = Some n → k1 = k2) ∧
  (∀ n, (n < size kwds)%nat → ∃ k, kwds !! k = Some n) ∧
  NoDup ((λ e : string * nat,
            Printf ("PyObject *py_kwd_" +:+ fmt_d e.2 +:+ " = NULL;" +:+ nl))
         <$> range_map ord kwds).
Proof.
  intros Hnd kwds.
  destruct (ctor_kwds_numbered ctors ∅ numbered_empty)
    as [(Hlt & Hinj & Hsur) Hkeys].
  fold (CPy.ctor_kwds ctors) in Hlt, Hinj, Hsur, Hkeys. fold kwds in Hlt, Hinj, Hsur, Hkeys.
  split; [|split; [done|split; [done|split; [done|]]]].
  - intros k. rewrite Hkeys. split; [|by right].
    intros [H|?]; [|done]. rewrite lookup_empty in H. by destruct H.
  - apply NoDup_fmap_2_strong.
    + intros [k1 n1] [k2 n2] H1 H2 Heq. simpl in Heq.
      injection Heq as Heq. apply append_inv_head in Heq.
      apply append_inv_tail in Heq. apply (inj pretty) in Heq. subst n2.
      apply ProcessFacts.elem_of_range_map in H1 as [_ H1].
      apply ProcessFacts.elem_of_range_map in H2 as [_ H2].
      by rewrite (Hinj _ _ _ H1 H2).
    + apply (NoDup_fmap_1 fst).
      by apply ProcessFacts.range_map_keys_NoDup.
Qed.

(** *** The unsupported-arity panic *)


End CPyEmitter.

Lemma genStructInit_keywords_numbered_witness :
  CPy.ctor_kwds [Zoo.NewXY; Zoo.NewXZ] = {["x" := 0; "y" := 1; "z" := 2]}%nat ∧
  NoDup ((λ e : string * nat,
            Printf ("PyObject *py_kwd_" +:+ fmt_d e.2 +:+ " = NULL;" +:+ nl))
         <$> range_map ["z"; "x"; "y"] (CPy.ctor_kwds [Zoo.NewXY; Zoo.NewXZ])).
Proof.
  split; [by vm_compute|].
  apply (genStructInit_keywords_numbered [Zoo.NewXY; Zoo.NewXZ] ["z"; "x"; "y"]).
  compute_done.
Defined.


End EmitMore.

(** ** The bridge along runs: consistency, framing, balance and limits *)
Module TallyFacts.
Import Bridge Tally BridgeFacts.

Lemma wf_inj st p q n :
  wf st → refs st !! p = Some n → refs st !! q = Some n → p = q.
Proof.
  intros Hwf Hp Hq.
  destruct (wf_fwd _ Hwf _ _ Hp) as [c Hc].
  destruct (wf_fwd _ Hwf _ _ Hq) as [c' Hc']. congruence.
Qed.

Lemma count_tracked st p n q c :
  refs st !! p = Some n → ptrs st !! n = Some (CObj q c) → count st p = c.
Proof. intros Hp Hn. unfold count. by rewrite Hp, Hn. Qed.

Lemma count_untracked st p : refs st !! p = None → count st p = 0.
Proof. intros Hp. unfold count. by rewrite Hp. Qed.

(** A call about one address leaves the id and the entry of every other
    address untouched. *)
Lemma step_other st o rs st' q :
  wf st → step st o = Ret rs st' → q ≠ target o →
  refs st' !! q = refs st !! q ∧
  (∀ n, refs st !! q = Some n → ptrs st' !! n = ptrs st !! n).
Proof.
  intros Hwf E Hq. destruct o as [p|p]; simpl in *.
  - unfold cgopy_incref in E. destruct (refs st !! p) as [num|] eqn:Hp.
    + injection E as <- <-. simpl. split; [done|]. intros n Hn.
      rewrite lookup_insert_ne; [done|]. intros <-.
      apply Hq. by eapply wf_inj.
    + cbv zeta in E. destruct (0 <? _); [discriminate|].
      injection E as <- <-. simpl. split.
      * by rewrite lookup_insert_ne.
      * intros n Hn. rewrite lookup_insert_ne; [done|]. intros <-.
        destruct (wf_fwd _ Hwf _ _ Hn) as [c Hc].
        apply (wf_ids _ Hwf) in Hc. lia.
  - unfold cgopy_decref in E.
    destruct (refs st !! p) as [num|] eqn:Hp; [|discriminate].
    destruct (_ <=? _); injection E as <- <-; simpl.
    + split; [by rewrite lookup_delete_ne|]. intros n Hn.
      rewrite lookup_delete_ne; [done|]. intros <-.
      apply Hq. by eapply wf_inj.
    + split; [done|]. intros n Hn.
      rewrite lookup_insert_ne; [done|]. intros <-.
      apply Hq. by eapply wf_inj.
Qed.

Lemma step_other_count st o rs st' q :
  wf st → step st o = Ret rs st' → q ≠ target o → count st' q = count st q.
Proof.
  intros Hwf E Hq. destruct (step_other _ _ _ _ _ Hwf E Hq) as [Hr Hp].
  unfold count. rewrite Hr. destruct (refs st !! q) as [n|] eqn:Hn; [|done].
  by rewrite (Hp _ eq_refl).
Qed.

Lemma incref_count st p rs st' :
  wf st → counted st → count st p < int32_max →
  cgopy_incref st p = Ret rs st' →
  count st' p = count st p + 1 ∧ is_Some (refs st' !! p).
Proof.
  intros Hwf Hc Hlt E.
  destruct (refs st !! p) as [n|] eqn:Hp.
  - destruct (wf_fwd _ Hwf _ _ Hp) as [c Hn].
    pose proof (Hc _ _ Hp) as Hc1.
    rewrite (count_tracked _ _ _ _ _ Hp Hn) in *.
    rewrite (incref_tracked_eq st p n p c Hp Hn) in E
      by (unfold int32_min in *; lia).
    injection E as <- <-. split; [|simpl; rewrite Hp; eauto].
    eapply count_tracked; simpl; [exact Hp|]. by rewrite lookup_insert_eq.
  - rewrite (count_untracked _ _ Hp).
    unfold cgopy_incref in E. rewrite Hp in E. cbv zeta in E.
    destruct (0 <? _); [discriminate|]. injection E as <- <-. simpl.
    split; [|rewrite lookup_insert_eq; eauto].
    eapply count_tracked; simpl; by rewrite lookup_insert_eq.
Qed.

Lemma decref_count st p rs st' :
  wf st → counted st →
  cgopy_decref st p = Ret rs st' →
  count st' p = count st p - 1 ∧
  (refs st' !! p = None ↔ count st p = 1).
Proof.
  intros Hwf Hc E.
  destruct (refs st !! p) as [n|] eqn:Hp;
    [|unfold cgopy_decref in E; by rewrite Hp in E].
  destruct (wf_fwd _ Hwf _ _ Hp) as [c Hn].
  pose proof (Hc _ _ Hp) as Hc1.
  rewrite (count_tracked _ _ _ _ _ Hp Hn) in *.
  rewrite (decref_tracked_eq st p n p c Hp Hn Hc1) in E.
  destruct (decide (c = 1)) as [->|Hne]; injection E as <- <-.
  - split.
    + rewrite count_untracked; [done|]. simpl. by rewrite lookup_delete_eq.
    + simpl. by rewrite lookup_delete_eq.
  - split.
    + eapply count_tracked; simpl; [exact Hp|]. by rewrite lookup_insert_eq.
    + simpl. rewrite Hp. split; [done|lia].
Qed.

Lemma step_counted st o rs st' :
  wf st → counted st → count st (target o) < int32_max →
  step st o = Ret rs st' → counted st'.
Proof.
  intros Hwf Hc Hlt E q n Hq.
  destruct (decide (q = target o)) as [->|Hne].
  - destruct o as [p|p]; simpl in *.
    + destruct (incref_count _ _ _ _ Hwf Hc Hlt E) as [-> _].
      destruct (refs st !! p) as [m|] eqn:Hp.
      * pose proof (Hc _ _ Hp). lia.
      * rewrite (count_untracked _ _ Hp). unfold int32_max. lia.
    + destruct (decref_count _ _ _ _ Hwf Hc E) as [-> Hiff].
      destruct (refs st !! p) as [m|] eqn:Hp;
        [|unfold cgopy_decref in E; by rewrite Hp in E].
      pose proof (Hc _ _ Hp).
      destruct (decide (count st p = 1)) as [H1|H1]; [|lia].
      apply Hiff in H1. congruence.
  - rewrite (step_other_count _ _ _ _ _ Hwf E Hne).
    destruct (step_other _ _ _ _ _ Hwf E Hne) as [Hr _].
    rewrite Hr in Hq. by eapply Hc.
Qed.

Lemma step_count st o rs st' q :
  wf st → counted st → count st (target o) < int32_max →
  step st o = Ret rs st' →
  count st' q = count st q + balance q [o].
Proof.
  intros Hwf Hc Hlt E. destruct (decide (q = target o)) as [->|Hne].
  - destruct o as [p|p]; simpl in *; rewrite decide_True by done.
    + destruct (incref_count _ _ _ _ Hwf Hc Hlt E) as [-> _]. lia.
    + destruct (decref_count _ _ _ _ Hwf Hc E) as [-> _]. lia.
  - rewrite (step_other_count _ _ _ _ _ Hwf E Hne).
    destruct o as [p|p]; simpl in *; rewrite decide_False by done; lia.
Qed.

Lemma balance_bound q o : -1 ≤ balance q [o] ≤ 1.
Proof. destruct o; simpl; case_decide; lia. Qed.

Lemma balance_cons q o ops : balance q (o :: ops) = balance q [o] + balance q ops.
Proof. destruct o; simpl; lia. Qed.

Lemma run_count ops : ∀ st st',
  wf st → counted st →
  (∀ q, count st q + Z.of_nat (length ops) ≤ int32_max) →
  run st ops = Some st' →
  wf st' ∧ counted st' ∧ ∀ q, count st' q = count st q + balance q ops.
Proof.
  induction ops as [|o ops IH]; intros st st' Hwf Hc Hb Hrun.
  - injection Hrun as <-. split; [done|]. split; [done|].
    intros q. simpl. lia.
  - simpl in Hrun. destruct (step st o) as [rs s1|] eqn:E; [|done].
    assert (Hlt : count st (target o) < int32_max).
    { specialize (Hb (target o)). simpl length in Hb. lia. }
    pose proof (step_wf _ _ _ _ Hwf E) as Hwf1.
    pose proof (step_counted _ _ _ _ Hwf Hc Hlt E) as Hc1.
    destruct (IH s1 st' Hwf1 Hc1) as (Hwf' & Hc' & Hcount); [|done|].
    { intros q. rewrite (step_count _ _ _ _ q Hwf Hc Hlt E).
      pose proof (balance_bound q o). specialize (Hb q).
      simpl length in Hb. lia. }
    split; [done|]. split; [done|]. intros q.
    rewrite Hcount, (step_count _ _ _ _ q Hwf Hc Hlt E), (balance_cons q o ops).
    lia.
Qed.

Lemma counted_init : counted init.
Proof. intros p n H. simpl in H. by rewrite lookup_empty in H. Qed.

(** X1: in every table a run from the initial one produces, the two maps
    describe the same entries (an address maps to an id whose entry names
    that address, and the other way round), no two addresses share an id,
    every id in use lies strictly above [next] and at most at [-24], and
    [next] has stayed within [int32] at or below [-24]. *)
Theorem reachable_table_consistent (st : refs_t) :
  reachable st →
  (∀ p n, refs st !! p = Some n → ∃ c, ptrs st !! n = Some (CObj p c)) ∧
  (∀ n p c, ptrs st !! n = Some (CObj p c) → refs st !! p = Some n) ∧
  (∀ p q n, refs st !! p = Some n → refs st !! q = Some n → p = q) ∧
  (∀ p n, refs st !! p = Some n → next st < n ≤ -24) ∧
  int32_min ≤ next st ≤ -24.
Proof.
  intros Hr. pose proof (reachable_wf _ Hr) as Hwf.
  split; [exact (wf_fwd _ Hwf)|]. split; [exact (wf_bwd _ Hwf)|].
  split; [intros p q n; by apply wf_inj|]. split; [|exact (wf_next _ Hwf)].
  intros p n Hp. destruct (wf_fwd _ Hwf _ _ Hp) as [c Hc].
  by apply (wf_ids _ Hwf) in Hc.
Qed.

Lemma reachable_table_consistent_witness :
  int32_min ≤ next (Refs (-25) (<[1 := -24]> ∅) (<[-24 := CObj 1 1]> ∅)) ≤ -24.
Proof.
  refine (proj2 (proj2 (proj2 (proj2 (reachable_table_consistent _ _))))).
  eapply reach_step; [apply reach_init|].
  instantiate (1 := []). instantiate (1 := Acquire 1). reflexivity.
Defined.

(** X2: a call that returns changes nothing for the other addresses: an
    acquire or release of [p] on a consistent table leaves every address
    [q ≠ p] with the id, the entry and the count it had. *)
Theorem step_frame (st : refs_t) (o : op) (rs : list Z) (st' : refs_t) (q : Z) :
  wf st → step st o = Ret rs st' → q ≠ target o →
  refs st' !! q = refs st !! q ∧
  (∀ n, refs st !! q = Some n → ptrs st' !! n = ptrs st !! n) ∧
  count st' q = count st q.
Proof.
  intros Hwf E Hq. destruct (step_other _ _ _ _ _ Hwf E Hq) as [H1 H2].
  split; [done|]. split; [done|]. by eapply step_other_count.
Qed.

Lemma step_frame_witness :
  refs (Refs (-25) (<[1 := -24]> ∅) (<[-24 := CObj 1 1]> ∅)) !! 2
    = refs init !! 2.
Proof.
  refine (proj1 (step_frame init (Acquire 1) [] _ 2 wf_init _ _)).
  - reflexivity.
  - simpl. lia.
Defined.

(** X3: a release undoes an acquire.  On a consistent table, for an
    address that is untracked, or tracked with a count from 1 to below the
    [int32] maximum, and with an id left to hand out, acquire followed by
    release returns both times and restores both maps exactly; [next] is
    unchanged when the address was tracked and one lower when it was not
    (the id handed out is not reused). *)
Theorem acquire_release_restores (st : refs_t) (p : Z) :
  wf st → int32_min < next st →
  (∀ n, refs st !! p = Some n → 1 ≤ count st p < int32_max) →
  ∃ s1 s2,
    cgopy_incref st p = Ret [] s1 ∧ cgopy_decref s1 p = Ret [] s2 ∧
    refs s2 = refs st ∧ ptrs s2 = ptrs st ∧
    next s2 = match refs st !! p with Some _ => next st | None => next st - 1 end.
Proof.
  intros Hwf Hnx Hc. pose proof (wf_next _ Hwf) as Hn.
  destruct (refs st !! p) as [n|] eqn:Hp.
  - destruct (wf_fwd _ Hwf _ _ Hp) as [c Hcn].
    specialize (Hc _ eq_refl). rewrite (count_tracked _ _ _ _ _ Hp Hcn) in Hc.
    rewrite (incref_tracked_eq st p n p c Hp Hcn)
      by (unfold int32_min; lia).
    eexists _, _. split; [reflexivity|].
    rewrite (decref_tracked_eq _ p n p (c + 1));
      [|exact Hp|simpl; by rewrite lookup_insert_eq|lia].
    rewrite decide_False by lia. split; [reflexivity|]. simpl.
    split; [done|]. split; [|done].
    rewrite insert_insert_eq. replace (c + 1 - 1) with c by lia.
    by apply insert_id.
  - rewrite (incref_fresh_eq st p Hp) by lia.
    eexists _, _. split; [reflexivity|].
    rewrite (decref_tracked_eq _ p (next st) p 1);
      [|simpl; by rewrite lookup_insert_eq|simpl; by rewrite lookup_insert_eq
       |unfold int32_max; lia].
    rewrite decide_True by done. split; [reflexivity|]. simpl.
    split; [|split; [|done]].
    + rewrite delete_insert_eq. by apply delete_id.
    + rewrite delete_insert_eq. apply delete_id.
      destruct (ptrs st !! next st) as [e|] eqn:He; [|done].
      apply (wf_ids _ Hwf) in He. lia.
Qed.

Lemma acquire_release_restores_witness :
  ∃ s1 s2,
    cgopy_incref init 5 = Ret [] s1 ∧ cgopy_decref s1 5 = Ret [] s2 ∧
    refs s2 = refs init ∧ ptrs s2 = ptrs init ∧
    next s2 = match refs init !! 5 with Some _ => next init | None => next init - 1 end.
Proof.
  apply (acquire_release_restores init 5 wf_init).
  - reflexivity.
  - intros n H. simpl in H. rewrite lookup_empty in H. discriminate.
Defined.

(** X4: the table counts acquires minus releases.  After a run from the
    initial table that did not panic and made at most [int32_max] calls,
    the count held for every address is the number of its acquires minus
    the number of its releases in the run; that balance is never negative,
    and the address is tracked exactly when the balance is positive. *)
Theorem run_counts_balance (ops : list op) (st : refs_t) :
  run init ops = Some st →
  Z.of_nat (length ops) ≤ int32_max →
  ∀ p, count st p = balance p ops ∧ 0 ≤ balance p ops ∧
       (is_Some (refs st !! p) ↔ 0 < balance p ops).
Proof.
  intros Hrun Hlen.
  assert (H0 : ∀ q, count init q = 0)
    by (intros q; apply count_untracked, lookup_empty).
  destruct (run_count ops init st wf_init counted_init) as (Hwf & Hc & Hb);
    [|done|].
  { intros q. rewrite H0. lia. }
  intros p. specialize (Hb p). rewrite H0 in Hb.
  split; [lia|].
  replace (balance p ops) with (count st p) by lia. clear Hb.
  destruct (refs st !! p) as [n|] eqn:Hp.
  - pose proof (Hc _ _ Hp). split; [lia|]. split; [lia|eauto].
  - rewrite (count_untracked _ _ Hp). split; [lia|].
    split; [intros [? ?]; done|lia].
Qed.

Lemma run_counts_balance_witness :
  count (Refs (-26) (<[7 := -25]> ∅) (<[-25 := CObj 7 2]> ∅)) 7 = 2.
Proof.
  refine (proj1 (run_counts_balance
    [Acquire 5; Acquire 7; Release 5; Acquire 7] _ _ _ 7)).
  - reflexivity.
  - unfold int32_max. simpl. lia.
Defined.

(** A single address acquired [c] times from the initial table. *)
Lemma reachable_held (p c : Z) :
  1 ≤ c ≤ int32_max →
  reachable (Refs (-25) (<[p := -24]> ∅) (<[-24 := CObj p c]> ∅)).
Proof.
  intros [Hc0 Hc]. revert Hc. pattern c. apply Zlt_lower_bound_ind with (z := 1);
    [|exact Hc0].
  clear c Hc0. intros c IH Hc0 Hc.
  destruct (decide (c = 1)) as [->|Hne].
  - eapply reach_step; [apply reach_init|].
    instantiate (1 := []). instantiate (1 := Acquire p). reflexivity.
  - eapply reach_step; [apply (IH (c - 1)); lia|].
    instantiate (1 := []). instantiate (1 := Acquire p). simpl.
    rewrite (incref_tracked_eq _ p (-24) p (c - 1)); simpl.
    + rewrite insert_insert_eq. by replace (c - 1 + 1) with c by lia.
    + by rewrite lookup_insert_eq.
    + by rewrite lookup_insert_eq.
    + unfold int32_min. lia.
Qed.

(** C3 (as stated, refuted): the table in which address [1] has been
    acquired [2^31 + 1] times is reachable and holds the count
    [int32_min + 1] for it; one release there removes the entry from both
    maps, although the count it leaves, [int32_min], is not zero. *)
Lemma cgopy_decref_drops_entry_below_zero :
  reachable (Refs (-25) (<[1 := -24]> ∅) (<[-24 := CObj 1 (int32_min + 1)]> ∅)) ∧
  count (Refs (-25) (<[1 := -24]> ∅) (<[-24 := CObj 1 (int32_min + 1)]> ∅)) 1
  = int32_min + 1 ∧
  wrap32 (int32_min + 1 - 1) ≠ 0 ∧
  cgopy_decref
    (Refs (-25) (<[1 := -24]> ∅) (<[-24 := CObj 1 (int32_min + 1)]> ∅)) 1
  = Ret [] (Refs (-25) ∅ ∅).
Proof.
  assert (Hmax : reachable
            (Refs (-25) (<[1 := -24]> ∅) (<[-24 := CObj 1 int32_max]> ∅)))
    by (apply reachable_held; unfold int32_max; lia).
  assert (Hmin : reachable
            (Refs (-25) (<[1 := -24]> ∅) (<[-24 := CObj 1 int32_min]> ∅))).
  { eapply reach_step; [exact Hmax|]. instantiate (1 := []).
    instantiate (1 := Acquire 1). simpl. unfold cgopy_incref. simpl.
    rewrite lookup_insert_eq. simpl. rewrite lookup_insert_eq. simpl.
    by rewrite insert_insert_eq. }
  split; [|split; [|split]].
  - eapply reach_step; [exact Hmin|]. instantiate (1 := []).
    instantiate (1 := Acquire 1). simpl. unfold cgopy_incref. simpl.
    rewrite lookup_insert_eq. simpl. rewrite lookup_insert_eq. simpl.
    by rewrite insert_insert_eq.
  - unfold count. simpl. rewrite lookup_insert_eq. simpl.
    by rewrite lookup_insert_eq.
  - done.
  - unfold cgopy_decref. simpl. rewrite lookup_insert_eq. simpl.
    rewrite lookup_insert_eq. simpl.
    by rewrite !delete_insert_eq, !delete_empty.
Qed.

(** X5: the count is an [int32] that wraps.  The table in which one
    address has been acquired [int32_max] times is reachable; one more
    acquire returns and leaves that address tracked with the negative
    count [int32_min], and the release after it wraps the count back to
    [int32_max] instead of dropping the entry. *)
Theorem count_wraps_after_max_acquires (p : Z) :
  let held c := Refs (-25) (<[p := -24]> ∅) (<[-24 := CObj p c]> ∅) in
  reachable (held int32_max) ∧
  cgopy_incref (held int32_max) p = Ret [] (held int32_min) ∧
  reachable (held int32_min) ∧
  count (held int32_min) p = int32_min ∧
  cgopy_decref (held int32_min) p = Ret [] (held int32_max).
Proof.
  intros held.
  assert (Hr : reachable (held int32_max))
    by (apply reachable_held; unfold int32_max; lia).
  assert (E : cgopy_incref (held int32_max) p = Ret [] (held int32_min)).
  { unfold cgopy_incref, held. simpl. rewrite lookup_insert_eq. simpl.
    rewrite lookup_insert_eq. simpl. by rewrite insert_insert_eq. }
  split; [done|]. split; [done|]. split.
  { eapply reach_step; [exact Hr|]. instantiate (1 := []).
    instantiate (1 := Acquire p). exact E. }
  split.
  - unfold count, held. simpl. rewrite lookup_insert_eq. simpl.
    by rewrite lookup_insert_eq.
  - unfold cgopy_decref, held. simpl. rewrite lookup_insert_eq. simpl.
    rewrite lookup_insert_eq. simpl. by rewrite insert_insert_eq.
Qed.

(** X6: the ids run out.  Acquiring and releasing moves [next] down
    without ever moving it back, so the empty table with [next] at any
    value from [-24] down to the smallest [int32] is reachable, and on the
    last of them an acquire of any address panics. *)
Theorem ids_exhausted_reachable (k p : Z) :
  0 ≤ k ≤ 2147483624 →
  reachable (Refs (-24 - k) ∅ ∅) ∧
  (k = 2147483624 →
   cgopy_incref (Refs (-24 - k) ∅ ∅) p = Panic "refs.next underflow").
Proof.
  intros Hk. split; [by apply reachable_drained|].
  intros ->. apply incref_fresh_panic; [done|reflexivity].
Qed.

Lemma ids_exhausted_reachable_witness :
  reachable (Refs (-24 - 2147483624) ∅ ∅) ∧
  (2147483624 = 2147483624 →
   cgopy_incref (Refs (-24 - 2147483624) ∅ ∅) 9 = Panic "refs.next underflow").
Proof. apply (ids_exhausted_reachable 2147483624 9). lia. Defined.

End TallyFacts.

(** ** Facts about the helpers of the Python generator *)
Module PyGenFacts.
Import PyGen.

(** *** Strings, prefixes and slices *)

Lemma length_append a b :
  String.length (a +:+ b) = (String.length a + String.length b)%nat.
Proof. induction a as [|c a IH]; simpl; [done|]. by rewrite IH. Qed.

Lemma len_append a b : len (a +:+ b) = len a + len b.
Proof. unfold len. rewrite length_append. lia. Qed.

Lemma len_nonneg s : 0 ≤ len s.
Proof. unfold len. lia. Qed.

Lemma prefix_length a : ∀ s,
  String.prefix a s = true → (String.length a ≤ String.length s)%nat.
Proof.
  induction a as [|c a IH]; intros s; [simpl; lia|].
  destruct s as [|c' s]; simpl; [done|].
  destruct (Ascii.ascii_dec c c'); [|done].
  intros H. apply IH in H. lia.
Qed.

Lemma Index_nil substr :
  Index "" substr = if String.prefix substr "" then 0 else -1.
Proof. done. Qed.

Lemma Index_cons c s substr :
  Index (String c s) substr
  = if String.prefix substr (String c s) then 0
    else if Index s substr <? 0 then -1 else Index s substr + 1.
Proof. done. Qed.

Lemma Index_range s substr :
  Index s substr = -1 ∨
  (0 ≤ Index s substr ∧ Index s substr + len substr ≤ len s).
Proof.
  unfold len. induction s as [|c s IH].
  - rewrite Index_nil. destruct (String.prefix substr "") eqn:E; [|by left].
    right. apply prefix_length in E. lia.
  - rewrite Index_cons. destruct (String.prefix substr (String c s)) eqn:E.
    + right. apply prefix_length in E. lia.
    + destruct IH as [->|[H0 Hle]]; [by left|].
      right. destruct (Index s substr <? 0) eqn:Hlt;
        [apply Z.ltb_lt in Hlt; lia|].
      change (String.length (String c s)) with (S (String.length s)). lia.
Qed.

Lemma take_length_append a b : take (String.length a) (a +:+ b) = a.
Proof. induction a as [|c a IH]; simpl; [by destruct b|]. by rewrite IH. Qed.

Lemma drop_length_append a b : drop (String.length a) (a +:+ b) = b.
Proof. induction a as [|c a IH]; simpl; [by destruct b|]. done. Qed.

Lemma take_drop n : ∀ s, take n s +:+ drop n s = s.
Proof.
  induction n as [|n IH]; intros s; simpl; [by destruct s|].
  destruct s as [|c s]; simpl; [done|].
  change (String c (take n s +:+ drop n s) = String c s). by rewrite IH.
Qed.

Lemma take_all n : ∀ s, (String.length s ≤ n)%nat → take n s = s.
Proof.
  induction n as [|n IH]; intros s; simpl.
  - destruct s; simpl; [done|lia].
  - destruct s as [|c s]; simpl; [done|]. intros H. rewrite IH; [done|lia].
Qed.

Lemma length_take n : ∀ s,
  (n ≤ String.length s)%nat → String.length (take n s) = n.
Proof.
  induction n as [|n IH]; intros s; simpl; [by destruct s|].
  destruct s as [|c s]; simpl; [lia|]. intros H. rewrite IH; lia.
Qed.

Lemma length_drop n : ∀ s,
  String.length (drop n s) = (String.length s - n)%nat.
Proof.
  induction n as [|n IH]; intros s; simpl; [by destruct s; simpl; lia|].
  destruct s as [|c s]; simpl; [done|]. apply IH.
Qed.

Lemma drop_add n m : ∀ s, drop (n + m) s = drop m (drop n s).
Proof.
  induction n as [|n IH]; intros s; simpl; [by destruct s|].
  destruct s as [|c s]; [by destruct m|]. apply IH.
Qed.

Lemma slice_from s lo :
  0 ≤ lo ≤ len s → slice s lo (len s) = Some (drop (Z.to_nat lo) s).
Proof.
  intros H. unfold slice. rewrite bool_decide_eq_true_2 by lia.
  rewrite take_all; [done|]. rewrite length_drop. unfold len in *. lia.
Qed.

Lemma slice_to s hi :
  0 ≤ hi ≤ len s → slice s 0 hi = Some (take (Z.to_nat hi) s).
Proof.
  intros H. unfold slice. rewrite bool_decide_eq_true_2 by lia.
  rewrite Z.sub_0_r. simpl. by destruct s.
Qed.

(** The first instance of a byte that does not occur in [w] lies right
    after [w]. *)
Lemma Index_byte_after w c rest :
  Index w (String c "") = -1 →
  Index (w +:+ String c rest) (String c "") = len w.
Proof.
  assert (Hp : ∀ a t, String.prefix (String c "") (String a t)
                      = if Ascii.ascii_dec c a then true else false).
  { intros a t. simpl. destruct (Ascii.ascii_dec c a); [|done]. by destruct t. }
  unfold len. induction w as [|a w IH].
  - intros _. change ("" +:+ String c rest) with (String c rest).
    rewrite Index_cons, Hp. by destruct (Ascii.ascii_dec c c).
  - change (String a w +:+ String c rest) with (String a (w +:+ String c rest)).
    rewrite !Index_cons, !Hp.
    destruct (Ascii.ascii_dec c a) as [->|Hne]; [done|].
    pose proof (Index_range w (String c "")) as Hr.
    destruct (Index w (String c "") <? 0) eqn:Hlt.
    + intros _. apply Z.ltb_lt in Hlt.
      destruct Hr as [Hr|[Hr _]]; [|lia]. rewrite (IH Hr).
      change (String.length (String a w)) with (S (String.length w)).
      destruct (_ <? 0) eqn:E; [apply Z.ltb_lt in E; lia|lia].
    + intros H. apply Z.ltb_ge in Hlt. lia.
Qed.

(** What [CmdStrToMakefile] computes once the flag has been found past
    the first byte. *)
Lemma CmdStrToMakefile_found s :
  0 < Index s "-output=" →
  let oidx := Z.to_nat (Index s "-output=") in
  let spidx := Index (drop oidx s) " " in
  CmdStrToMakefile s
  = Some (take oidx s +:+ drop (Z.to_nat (Z.of_nat oidx + spidx + 1)) s) ∧
  0 ≤ spidx + 1 ∧ Z.of_nat oidx + spidx + 1 ≤ len s.
Proof.
  intros Hpos oidx spidx. unfold CmdStrToMakefile. cbv zeta.
  rewrite (proj2 (Z.ltb_lt _ _) Hpos).
  destruct (Index_range s "-output=") as [H|[_ Hle]]; [lia|].
  assert (Hlen : len "-output=" = 8) by reflexivity. rewrite Hlen in Hle.
  rewrite slice_from by lia. simpl. fold oidx. fold spidx.
  assert (Hsp : 0 ≤ spidx + 1 ∧ Z.of_nat oidx + spidx + 1 ≤ len s).
  { pose proof (Index_range (drop oidx s) " ") as Hr.
    change (Index (drop oidx s) " ") with spidx in Hr.
    assert (Hl1 : len " " = 1) by reflexivity. rewrite Hl1 in Hr.
    unfold len in Hr. rewrite length_drop in Hr. unfold len in *.
    clearbody spidx. subst oidx. lia. }
  rewrite slice_to by lia. simpl.
  replace (Index s "-output=") with (Z.of_nat oidx) by (subst oidx; lia).
  rewrite slice_from by lia. simpl. by rewrite Nat2Z.id.
Qed.

(** *** The [bool] conversions *)

(** X20: the [bool] conversions of the preamble round-trip on Go's side,
    and normalise on C's side: converting a [bool] to a [C.char] and back
    gives the [bool] again, while converting a [C.char] to a [bool] and
    back gives [1] for every non-zero value, so it gives the value itself
    exactly for [0] and [1]. *)
Theorem bool_conversions_round_trip :
  (∀ b : bool, boolPyToGo (boolGoToPy b) = b) ∧
  (∀ c : Z, boolGoToPy (boolPyToGo c) = if bool_decide (c = 0) then 0 else 1) ∧
  (∀ c : Z, boolGoToPy (boolPyToGo c) = c ↔ c = 0 ∨ c = 1).
Proof.
  split; [by intros []|]. split.
  - intros c. unfold boolPyToGo, boolGoToPy. by repeat case_bool_decide.
  - intros c. unfold boolPyToGo, boolGoToPy. case_bool_decide; lia.
Qed.

(** *** [CmdStrToMakefile] *)

(** X21: [CmdStrToMakefile] never slices out of range: on every command
    string it returns a string, and that string is no longer than the one
    it was given. *)
Theorem CmdStrToMakefile_returns (s : string) :
  ∃ r, CmdStrToMakefile s = Some r ∧ len r ≤ len s.
Proof.
  destruct (decide (0 < Index s "-output=")) as [Hpos|Hneg].
  - destruct (CmdStrToMakefile_found s Hpos) as (-> & H0 & H1).
    eexists. split; [done|]. rewrite len_append. unfold len in *.
    destruct (Index_range s "-output=") as [H|[_ Hle]]; [lia|].
    rewrite length_take, length_drop; lia.
  - exists s. split; [|lia]. unfold CmdStrToMakefile.
    by rewrite (proj2 (Z.ltb_ge _ _)) by lia.
Qed.

(** X22: what is removed.  When the first [-output=] of the command
    string starts right after a non-empty [pre] and is followed, after a
    stretch [w] without a space, by a space, the result is the string
    without [w] and that space: the flag with its value and one
    separator are cut out, everything before and after is kept. *)
Theorem CmdStrToMakefile_removes_flag (pre w rest : string) :
  Index (pre +:+ w +:+ " " +:+ rest) "-output=" = len pre →
  pre ≠ "" →
  Index w " " = -1 →
  CmdStrToMakefile (pre +:+ w +:+ " " +:+ rest) = Some (pre +:+ rest).
Proof.
  intros Hidx Hpre Hw.
  change (" " +:+ rest) with (String " "%char rest) in *.
  assert (Hpos : 0 < Index (pre +:+ w +:+ String " "%char rest) "-output=").
  { rewrite Hidx. unfold len. destruct pre; [done|]. simpl String.length. lia. }
  destruct (CmdStrToMakefile_found _ Hpos) as (-> & _ & _).
  rewrite Hidx.
  assert (Hn : Z.to_nat (len pre) = String.length pre) by (unfold len; lia).
  rewrite !Hn, take_length_append, drop_length_append.
  rewrite (Index_byte_after w " "%char rest Hw).
  replace (Z.to_nat (Z.of_nat (String.length pre) + len w + 1))
    with (String.length pre + (String.length w + 1))%nat by (unfold len; lia).
  by rewrite !drop_add, !drop_length_append.
Qed.

(** X23: what is left alone.  The command string comes back unchanged
    when it has no [-output=], when its first [-output=] is at the very
    start, and when no space follows its first [-output=] (the flag is the
    last word): in the last two cases the flag is not removed. *)
Theorem CmdStrToMakefile_leaves_alone (s : string) :
  (Index s "-output=" ≤ 0 → CmdStrToMakefile s = Some s) ∧
  (∀ pre tl, s = pre +:+ tl → Index s "-output=" = len pre →
             Index tl " " = -1 → CmdStrToMakefile s = Some s).
Proof.
  split.
  - intros H. unfold CmdStrToMakefile.
    by rewrite (proj2 (Z.ltb_ge _ _)) by lia.
  - intros pre tl -> Hidx Htl.
    destruct (decide (0 < Index (pre +:+ tl) "-output=")) as [Hpos|Hneg].
    + destruct (CmdStrToMakefile_found _ Hpos) as (-> & _ & _).
      rewrite Hidx.
      assert (Hn : Z.to_nat (len pre) = String.length pre) by (unfold len; lia).
      rewrite !Hn, drop_length_append, Htl.
      replace (Z.to_nat (Z.of_nat (String.length pre) + -1 + 1))
        with (String.length pre) by lia.
      by rewrite take_drop.
    + unfold CmdStrToMakefile. by rewrite (proj2 (Z.ltb_ge _ _)) by lia.
Qed.

Lemma CmdStrToMakefile_removes_flag_witness :
  CmdStrToMakefile "gopy gen -vm=python3 -output=out example/foo"
  = Some "gopy gen -vm=python3 example/foo".
Proof.
  apply (CmdStrToMakefile_removes_flag
           "gopy gen -vm=python3 " "-output=out" "example/foo").
  - reflexivity.
  - discriminate.
  - reflexivity.
Defined.

Lemma CmdStrToMakefile_leaves_alone_witness :
  CmdStrToMakefile "-output=out gopy gen example/foo"
  = Some "-output=out gopy gen example/foo" ∧
  CmdStrToMakefile "gopy gen example/foo -output=out"
  = Some "gopy gen example/foo -output=out".
Proof.
  split.
  - apply (proj1 (CmdStrToMakefile_leaves_alone
                    "-output=out gopy gen example/foo")).
    vm_compute. discriminate.
  - apply (proj2 (CmdStrToMakefile_leaves_alone
                    "gopy gen example/foo -output=out")
             "gopy gen example/foo " "-output=out"); reflexivity.
Defined.

End PyGenFacts.

